(** * ScaledInteger: a fixed-point decimal over JavaScript numbers

    A shallow embedding of [src/scaled-integer.ts] and [src/util.ts] and the
    properties of the value type that follow from the code.

    The fields of a [ScaledInteger] are JavaScript numbers, that is IEEE-754
    binary64 values.  The embedding keeps that: [Num.number] below holds every
    double (integers, dyadic fractions, the two infinities and NaN) and every
    arithmetic operation is the exact result followed by rounding to nearest
    even on 53 bits, as IEEE-754 prescribes. *)

From Stdlib Require Import ZArith Lia Bool List String Ascii.
From Stdlib Require Import DecimalString DecimalPos QArith.
From Stdlib Require SpecFloat DecimalFacts.
Import ListNotations.

Local Open Scope string_scope.
Local Open Scope Z_scope.

(* ================================================================== *)
(** ** JavaScript numbers *)
(* ================================================================== *)

Module Num.

(** A double is written in a unique way:
    - [Int z]: a finite double whose value is the integer [z];
    - [Frac m e]: a finite double that is not an integer, [m * 2^e] with
      [m] odd and [e < 0];
    - [Inf neg]: plus or minus infinity;
    - [NaN].
    The sign of zero is not tracked ([-0] is [Int 0]): the operators the class
    uses ([===], [<], [%], [isSafeInteger], [toString]) do not tell [-0] from
    [0], and every divisor in the class is a power of ten, never [-0]. *)
Inductive number : Type :=
| Int (z : Z)
| Frac (m e : Z)
| Inf (neg : bool)
| NaN.

Definition prec : Z := 53.
Definition emin : Z := -1074.
Definition emax : Z := 1024.

(** [Number.MAX_SAFE_INTEGER] *)
Definition MAX_SAFE_INTEGER : Z := 2 ^ 53 - 1.

Fixpoint pos_ctz (p : positive) : Z :=
  match p with
  | xO q => 1 + pos_ctz q
  | _ => 0
  end.

(** number of trailing zero bits *)
Definition ctz (z : Z) : Z :=
  match z with
  | Z0 => 0
  | Zpos p | Zneg p => pos_ctz p
  end.

(** number of significant bits of a non-zero integer *)
Definition bits (m : Z) : Z := Z.log2 (Z.abs m) + 1.

(** [mk m e]: the double [m * 2^e], when that is one: written in the unique
    form above. *)
Definition mk (m e : Z) : number :=
  if m =? 0 then Int 0
  else if 0 <=? e then Int (m * 2 ^ e)
  else
    let t := Z.min (ctz m) (- e) in
    if e + t =? 0 then Int (m / 2 ^ t) else Frac (m / 2 ^ t) (e + t).

(** overflow to infinity at [2^1024] *)
Definition fits (m e : Z) : number :=
  if m =? 0 then Int 0
  else if emax <? bits m + e then Inf (m <? 0)
  else mk m e.

(** [round m e]: the double nearest to the exact value [m * 2^e], ties to
    even: 53 significant bits, no bit below [2^emin]. *)
Definition round (m e : Z) : number :=
  if m =? 0 then Int 0
  else
    let sh := Z.max (bits m - prec) (emin - e) in
    if sh <=? 0 then fits m e
    else
      let a := Z.abs m in
      let q := a / 2 ^ sh in
      let r := a mod 2 ^ sh in
      let half := 2 ^ (sh - 1) in
      let q' := if (half <? r) || ((r =? half) && Z.odd q) then q + 1 else q in
      fits (Z.sgn m * q') (e + sh).

(** [round_quot n d]: the double nearest to [n / d], for [0 < d].  When the
    quotient is not an integer, it is cut after at least 55 bits and a
    sticky bit remembers that something was cut. *)
Definition round_quot (n d : Z) : number :=
  if n mod d =? 0 then round (n / d) 0
  else
    let a := Z.abs n in
    let e0 := Z.log2 a - Z.log2 d - 55 in
    let num := if e0 <? 0 then a * 2 ^ (- e0) else a in
    let den := if e0 <? 0 then d else d * 2 ^ e0 in
    let q := num / den in
    let sticky := if num mod den =? 0 then 0 else 1 in
    round (Z.sgn n * (2 * q + sticky)) (e0 - 1).

(** the finite doubles as mantissa and exponent *)
Definition dy (x : number) : option (Z * Z) :=
  match x with
  | Int z => Some (z, 0)
  | Frac m e => Some (m, e)
  | _ => None
  end.

Definition is_neg (x : number) : bool :=
  match x with
  | Int z => z <? 0
  | Frac m _ => m <? 0
  | Inf s => s
  | NaN => false
  end.

Definition is_zero (x : number) : bool :=
  match x with
  | Int z => z =? 0
  | _ => false
  end.

(** [x * y] *)
Definition mul (x y : number) : number :=
  match x, y with
  | NaN, _ => NaN
  | _, NaN => NaN
  | Inf s, Inf t => Inf (xorb s t)
  | Inf s, _ => if is_zero y then NaN else Inf (xorb s (is_neg y))
  | _, Inf t => if is_zero x then NaN else Inf (xorb (is_neg x) t)
  | _, _ =>
      match dy x, dy y with
      | Some (m1, e1), Some (m2, e2) => round (m1 * m2) (e1 + e2)
      | _, _ => NaN
      end
  end.

(** [x + y] *)
Definition add (x y : number) : number :=
  match x, y with
  | NaN, _ => NaN
  | _, NaN => NaN
  | Inf s, Inf t => if Bool.eqb s t then Inf s else NaN
  | Inf s, _ => Inf s
  | _, Inf t => Inf t
  | _, _ =>
      match dy x, dy y with
      | Some (m1, e1), Some (m2, e2) =>
          let e := Z.min e1 e2 in
          round (m1 * 2 ^ (e1 - e) + m2 * 2 ^ (e2 - e)) e
      | _, _ => NaN
      end
  end.

(** [- x] *)
Definition neg (x : number) : number :=
  match x with
  | Int z => Int (- z)
  | Frac m e => Frac (- m) e
  | Inf s => Inf (negb s)
  | NaN => NaN
  end.

(** [x - y] *)
Definition sub (x y : number) : number := add x (neg y).

(** [x / y] *)
Definition div (x y : number) : number :=
  match x, y with
  | NaN, _ => NaN
  | _, NaN => NaN
  | Inf _, Inf _ => NaN
  | Inf s, _ => Inf (xorb s (is_neg y))
  | _, Inf _ => Int 0
  | _, _ =>
      match dy x, dy y with
      | Some (m1, e1), Some (m2, e2) =>
          if m2 =? 0 then (if m1 =? 0 then NaN else Inf (m1 <? 0))
          else
            let e := Z.min e1 e2 in
            let n := m1 * 2 ^ (e1 - e) in
            let d := m2 * 2 ^ (e2 - e) in
            round_quot (Z.sgn d * n) (Z.abs d)
      | _, _ => NaN
      end
  end.

(** [x % y]: the remainder of the division truncated toward zero, with the
    sign of [x]; it is always a double, nothing is rounded. *)
Definition rem (x y : number) : number :=
  match x, y with
  | NaN, _ => NaN
  | _, NaN => NaN
  | Inf _, _ => NaN
  | _, Inf _ => x
  | _, _ =>
      match dy x, dy y with
      | Some (m1, e1), Some (m2, e2) =>
          if m2 =? 0 then NaN
          else
            let e := Z.min e1 e2 in
            mk (Z.rem (m1 * 2 ^ (e1 - e)) (m2 * 2 ^ (e2 - e))) e
      | _, _ => NaN
      end
  end.

(** [Math.floor(x)] *)
Definition floor (x : number) : number :=
  match x with
  | Frac m e => Int (m / 2 ^ (- e))
  | _ => x
  end.

(** [Math.abs(x)] *)
Definition abs (x : number) : number :=
  match x with
  | Int z => Int (Z.abs z)
  | Frac m e => Frac (Z.abs m) e
  | Inf _ => Inf false
  | NaN => NaN
  end.

Definition cmp_fin (x y : number) : option comparison :=
  match dy x, dy y with
  | Some (m1, e1), Some (m2, e2) =>
      let e := Z.min e1 e2 in
      Some (m1 * 2 ^ (e1 - e) ?= m2 * 2 ^ (e2 - e))
  | _, _ => None
  end.

(** [x < y] *)
Definition lt (x y : number) : bool :=
  match x, y with
  | NaN, _ => false
  | _, NaN => false
  | Inf s, Inf t => s && negb t
  | Inf s, _ => s
  | _, Inf t => negb t
  | _, _ => match cmp_fin x y with Some Lt => true | _ => false end
  end.

(** [x > y] *)
Definition gt (x y : number) : bool := lt y x.

(** [x === y] *)
Definition seq (x y : number) : bool :=
  match x, y with
  | NaN, _ => false
  | _, NaN => false
  | Inf s, Inf t => Bool.eqb s t
  | Inf _, _ => false
  | _, Inf _ => false
  | _, _ => match cmp_fin x y with Some Eq => true | _ => false end
  end.

(** [10 ** x].  ECMAScript leaves the last bit of [**] to the host; the
    model takes the correctly rounded power, which for the exponents
    [0 .. 22] is the exact power of ten on every host.  Above [10^308] the
    result is [Infinity], below [10^-324] it is [0].  A power with an
    exponent that is not an integer is not modelled (no scale is ever such a
    number as long as the scale arguments of the methods are integers). *)
Definition pow10 (x : number) : number :=
  match x with
  | NaN => NaN
  | Inf false => Inf false
  | Inf true => Int 0
  | Int k =>
      if 0 <=? k then (if 308 <? k then Inf false else round (10 ^ k) 0)
      else if k <? -400 then Int 0
      else round_quot 1 (10 ^ (- k))
  | Frac _ _ => NaN
  end.

(** [Number.isSafeInteger(x)] *)
Definition isSafeInteger (x : number) : bool :=
  match x with
  | Int z => Z.abs z <=? MAX_SAFE_INTEGER
  | _ => false
  end.

End Num.

Import Num.

(* ================================================================== *)
(** ** Results of calls that may throw *)
(* ================================================================== *)

Inductive result (A : Type) : Type :=
| Ok (a : A)
| Throw (msg : string).

Arguments Ok {A} a.
Arguments Throw {A} msg.

Definition bind {A B : Type} (r : result A) (k : A -> result B) : result B :=
  match r with
  | Ok a => k a
  | Throw msg => Throw msg
  end.

Notation "x <- r ;; k" := (bind r (fun x => k))
  (at level 61, r at next level, right associativity).

Definition is_ok {A : Type} (r : result A) : bool :=
  match r with
  | Ok _ => true
  | Throw _ => false
  end.

(* ================================================================== *)
(** ** util.ts *)
(* ================================================================== *)

Module Util.

(** [str.slice(i)] *)
Fixpoint slice_from (i : nat) (str : string) : string :=
  match i, str with
  | O, _ => str
  | S j, String _ r => slice_from j r
  | S _, EmptyString => EmptyString
  end.

(** [str.slice(0, n)] *)
Fixpoint slice_to (n : nat) (str : string) : string :=
  match n, str with
  | O, _ => EmptyString
  | S j, String c r => String c (slice_to j r)
  | S _, EmptyString => EmptyString
  end.

(** [str[i] === char] for the character [c] at index [i]: [char] is a
    string, and the one-character string is compared with it. *)
Definition char_is (c : ascii) (char : string) : bool :=
  String.eqb (String c EmptyString) char.

(** the index at which the loop of [trimStart] stops *)
Fixpoint trimStart_index (str char : string) : nat :=
  match str with
  | EmptyString => O
  | String c r => if char_is c char then S (trimStart_index r char) else O
  end.

Definition trimStart (str char : string) : string :=
  let i := trimStart_index str char in
  if (0 <? i)%nat then slice_from i str else str.

(** how many characters the descending loop of [trimEnd] steps over: the
    characters at the end of [str] that are [char] *)
Fixpoint trimEnd_count (str char : string) : nat :=
  match str with
  | EmptyString => O
  | String c r =>
      let n := trimEnd_count r char in
      if (n =? String.length r)%nat && char_is c char then S n else n
  end.

Definition trimEnd (str char : string) : string :=
  let n := trimEnd_count str char in
  (* the loop ends at [i = l - n] with [l = str.length - 1]; [i < l] is
     [0 < n] and [i + 1 = str.length - n] *)
  if (0 <? n)%nat then slice_to (String.length str - n) str else str.

End Util.

Import Util.

(* ================================================================== *)
(** ** Strings and numbers *)
(* ================================================================== *)

Definition is_digit (c : ascii) : bool :=
  let n := N_of_ascii c in (48 <=? n)%N && (n <=? 57)%N.

Definition digit_value (c : ascii) : Z := Z.of_N (N_of_ascii c) - 48.

(** the integer a string of decimal digits denotes, read left to right *)
Fixpoint digits_value_from (acc : Z) (s : string) : option Z :=
  match s with
  | EmptyString => Some acc
  | String c r =>
      if is_digit c then digits_value_from (10 * acc + digit_value c) r
      else None
  end.

Definition digits_value (s : string) : option Z := digits_value_from 0 s.

(** Unary [+] on a string.  Only the digit groups of the two patterns reach
    it, so only strings of decimal digits are modelled: the number is the
    double nearest to the integer written.  (ECMAScript lets a host round a
    literal of more than 20 significant digits less precisely; such an
    integer is far beyond the safe range however it is rounded.) *)
Definition toNumber (s : string) : number :=
  match digits_value s with
  | Some z => round z 0
  | None => NaN
  end.

(** [a || b] on strings: the empty string is falsy *)
Definition or_else (a b : string) : string :=
  match a with
  | EmptyString => b
  | _ => a
  end.

(** [Number.prototype.toString] on the integers below [10^21], which print
    as plain decimal digits; [None] elsewhere (exponent notation and
    fractions are not modelled). *)
Definition numberToString (x : number) : option string :=
  match x with
  | Int z =>
      if Z.abs z <? 10 ^ 21 then Some (NilEmpty.string_of_int (Z.to_int z))
      else None
  | Inf false => Some "Infinity"
  | Inf true => Some "-Infinity"
  | NaN => Some "NaN"
  | Frac _ _ => None
  end.

Fixpoint repeat_char (c : ascii) (n : nat) : string :=
  match n with
  | O => EmptyString
  | S k => String c (repeat_char c k)
  end.

(** The longest string the engine builds.  The language leaves the limit to
    the engine; this is the one of V8 (Node, Chrome) on 64 bits.  Building a
    longer string fails with the RangeError 'Invalid string length'. *)
Definition MAX_STRING_LENGTH : Z := 2 ^ 29 - 24.

(** [s.padStart(n, '0')] for an integer [n]: [s] itself when it has [n]
    characters or more, else [s] behind as many zeros as bring it to the
    length [n] *)
Definition padStart0 (s : string) (n : Z) : result string :=
  if n <=? Z.of_nat (String.length s) then Ok s
  else if MAX_STRING_LENGTH <? n then Throw "Invalid string length"
  else Ok (repeat_char "0"%char (Z.to_nat n - String.length s) ++ s).

(** a template literal whose pieces are these strings: their concatenation *)
Definition template (parts : list string) : result string :=
  let str := fold_right append "" parts in
  if MAX_STRING_LENGTH <? Z.of_nat (String.length str)
  then Throw "Invalid string length"
  else Ok str.

(* ================================================================== *)
(** ** The two patterns *)
(* ================================================================== *)

(** the named groups of a match; [minor] is [None] when the optional
    group [(\.(...))?] did not take part *)
Record groups : Type := mkGroups {
  g_sign : string;
  g_major : string;
  g_minor : option string
}.

(** [([-+]?)] *)
Definition take_sign (s : string) : string * string :=
  match s with
  | String c r =>
      if (Ascii.eqb c "-" || Ascii.eqb c "+")%char then (String c EmptyString, r)
      else (EmptyString, s)
  | EmptyString => (EmptyString, EmptyString)
  end.

(** the longest prefix of digits, and what follows it *)
Fixpoint span_digits (s : string) : string * string :=
  match s with
  | String c r =>
      if is_digit c then
        let (d, t) := span_digits r in (String c d, t)
      else (EmptyString, s)
  | EmptyString => (EmptyString, EmptyString)
  end.

Definition is_empty (s : string) : bool :=
  match s with
  | EmptyString => true
  | _ => false
  end.

(** [str.match(STRICT_DECIMAL_REGEX)], the pattern
    [/^(?<sign>[-+]?)(?<major>[0-9]+)(\.(?<minor>[0-9]+))?$/]: an optional
    sign, one or more digits, and optionally a dot followed by one or more
    digits, up to the end of the string.  Both digit groups are greedy and
    what may follow them is not a digit, so the match is found without
    backtracking. *)
Definition match_strict (str : string) : option groups :=
  let (sg, r) := take_sign str in
  let (mj, r1) := span_digits r in
  if is_empty mj then None
  else
    match r1 with
    | EmptyString => Some (mkGroups sg mj None)
    | String c r2 =>
        if Ascii.eqb c "."%char then
          let (mn, r3) := span_digits r2 in
          if is_empty mn || negb (is_empty r3) then None
          else Some (mkGroups sg mj (Some mn))
        else None
    end.

(** [str.match(LAX_DECIMAL_REGEX)]: the same pattern with zero or more
    digits in both digit groups. *)
Definition match_lax (str : string) : option groups :=
  let (sg, r) := take_sign str in
  let (mj, r1) := span_digits r in
  match r1 with
  | EmptyString => Some (mkGroups sg mj None)
  | String c r2 =>
      if Ascii.eqb c "."%char then
        let (mn, r3) := span_digits r2 in
        if negb (is_empty r3) then None
        else Some (mkGroups sg mj (Some mn))
      else None
  end.

(* ================================================================== *)
(** ** scaled-integer.ts: the class *)
(* ================================================================== *)

(** An object of the class: its two private fields.  The mutating methods
    return the receiver; here they return the receiver's new state. *)
Record ScaledInteger : Type := mkScaledInteger {
  _value : number;
  _scale : number
}.

(** [new ScaledInteger(value, scale)] *)
Definition constructor (value scale : number) : result ScaledInteger :=
  if negb (isSafeInteger value) then Throw "unsafe integer value"
  else if negb (isSafeInteger scale) then Throw "unsafe integer value"
  else if lt scale (Int 0) then Throw "scale must be a positive integer"
  else Ok (mkScaledInteger value scale).

Definition deserialize (value scale : number) : result ScaledInteger :=
  constructor value scale.

Definition string_length (s : string) : number :=
  Int (Z.of_nat (String.length s)).

Definition parse (str : string) : result ScaledInteger :=
  match match_strict str with
  | None => Throw "invalid decimal string"
  | Some groups =>
      let sign := g_sign groups in
      let majorStr := or_else (trimStart (g_major groups) "0") "0" in
      let minorStr :=
        or_else (trimEnd (match g_minor groups with
                          | Some m => m
                          | None => ""
                          end) "0") "0" in
      let major := toNumber majorStr in
      let minor := toNumber minorStr in
      let scale := if seq minor (Int 0) then Int 0 else string_length minorStr in
      let value := add (mul major (pow10 scale)) minor in
      constructor (if String.eqb sign "-" then neg value else value) scale
  end.

Definition parseLax (str : string) : result ScaledInteger :=
  match match_lax str with
  | None => Throw "invalid decimal string"
  | Some groups =>
      let sign := g_sign groups in
      let majorStr := or_else (trimStart (g_major groups) "0") "0" in
      let minorStr :=
        or_else (trimEnd (match g_minor groups with
                          | Some m => m
                          | None => ""
                          end) "0") "0" in
      let major := toNumber majorStr in
      let minor := toNumber minorStr in
      let scale := string_length minorStr in
      let value := add (mul major (pow10 scale)) minor in
      constructor (if String.eqb sign "-" then neg value else value) scale
  end.

Definition unsafelyGetRelativeValue (this : ScaledInteger) (otherScale : number)
  : number :=
  mul (_value this) (pow10 (sub otherScale (_scale this))).

(** returns [[[lhs, rhs], scale]] *)
Definition normalizedValues (a b : ScaledInteger) : (number * number) * number :=
  let aValue := _value a in
  let aScale := _scale a in
  let bValue := _value b in
  let bScale := _scale b in
  if lt aScale bScale then
    ((unsafelyGetRelativeValue a bScale, bValue), bScale)
  else
    ((aValue, unsafelyGetRelativeValue b aScale), aScale).

(** The loop of [maximumScale], entered with [i = 1]: [items] are
    [values[i]], [values[i+1]], ... up to the end of [values]. *)
Fixpoint maximumScale_loop (items : list ScaledInteger) (i : Z)
    (max : ScaledInteger) (maxScale : number) : Z * ScaledInteger :=
  match items with
  | [] => (i, max)
  | item :: rest =>
      let itemScale := _scale item in
      if gt itemScale maxScale then maximumScale_loop rest (i + 1) item itemScale
      else maximumScale_loop rest (i + 1) max maxScale
  end.

(** [maximumScale(first, ...values)]: returns [[i, max]] *)
Definition maximumScale (first : ScaledInteger) (values : list ScaledInteger)
  : Z * ScaledInteger :=
  maximumScale_loop (skipn 1 values) 1 first (_scale first).

Definition clone (this : ScaledInteger) : result ScaledInteger :=
  constructor (_value this) (_scale this).

Definition increaseScale (this : ScaledInteger) (scaleIncrement : number)
  : ScaledInteger :=
  mkScaledInteger (mul (_value this) (pow10 scaleIncrement))
                  (add (_scale this) scaleIncrement).

(** what [transformScale] returns: the receiver (from [increaseScale]) or
    the truncated digits *)
Inductive transformed : Type :=
| This
| Truncated (truncated : number).

Definition transformScale (this : ScaledInteger) (newScale : number)
  : ScaledInteger * transformed :=
  let value := _value this in
  let scale := _scale this in
  if gt newScale scale then (increaseScale this (sub newScale scale), This)
  else
    let truncatedScale := sub scale newScale in
    let truncated := rem value (pow10 truncatedScale) in
    (mkScaledInteger (floor (div (sub value truncated) (pow10 truncatedScale)))
                     newScale,
     Truncated truncated).

Definition normalizeTo (this other : ScaledInteger) : ScaledInteger :=
  let otherScale := _scale other in
  if lt (_scale this) otherScale then fst (transformScale this otherScale)
  else this.

(** The loop of [normalize]: [items] are [values[i]], [values[i+1]], ... *)
Fixpoint normalize_loop (items : list ScaledInteger) (i maxIndex : Z)
    (max : ScaledInteger) : result (list ScaledInteger) :=
  match items with
  | [] => Ok []
  | item :: rest =>
      if i =? maxIndex then
        output <- normalize_loop rest (i + 1) maxIndex max ;;
        Ok (item :: output)
      else
        c <- clone item ;;
        let cloned := normalizeTo c max in
        output <- normalize_loop rest (i + 1) maxIndex max ;;
        Ok (cloned :: output)
  end.

Definition normalize (values : list ScaledInteger) : result (list ScaledInteger) :=
  match values with
  | [] => Ok []
  | first :: _ =>
      let (maxIndex, max) := maximumScale first (skipn 1 values) in
      normalize_loop values 0 maxIndex max
  end.

Definition equal (a b : ScaledInteger) : bool :=
  let aScale := _scale a in
  let bScale := _scale b in
  if gt aScale bScale then seq (_value a) (unsafelyGetRelativeValue b aScale)
  else seq (unsafelyGetRelativeValue a bScale) (_value b).

Definition getRelativeValue (this other : ScaledInteger) : result number :=
  let otherScale := _scale other in
  if lt (_scale this) otherScale then Throw "other scale must be greater"
  else Ok (mul (_value this) (pow10 (sub otherScale (_scale this)))).

Definition toUnits (this : ScaledInteger) : number * number :=
  let minor := rem (_value this) (pow10 (_scale this)) in
  let major := div (sub (_value this) minor) (pow10 (_scale this)) in
  (major, abs minor).

(** [None]: outside what [numberToString] models, or a scale that is not an
    integer; [Some (Throw _)]: the RangeError of a string too long *)
Definition toString (this : ScaledInteger) : option (result string) :=
  let (major, minor) := toUnits this in
  if seq minor (Int 0) then
    match numberToString major with
    | Some ma => Some (Ok ma)
    | None => None
    end
  else
    let zerosign :=
      if seq major (Int 0) && lt (_value this) (Int 0) then "-" else "" in
    match numberToString major, numberToString minor, _scale this with
    | Some ma, Some mi, Int s =>
        Some (padded <- padStart0 mi s ;;
              template [zerosign; ma; "."; padded])
    | _, _, _ => None
    end.

(** The loop of [trimScale], from [i]; [fuel] bounds the iterations left.
    [None]: the fuel ran out. *)
Fixpoint trimScale_loop (fuel : nat) (value scale : number) (i : Z) : option Z :=
  if lt (Int i) scale then
    match fuel with
    | O => None
    | S fuel' =>
        let x := rem value (pow10 (Int (i + 1))) in
        if negb (seq x (Int 0)) then Some i
        else trimScale_loop fuel' value scale (i + 1)
    end
  else Some i.

(** How many iterations the loop of [trimScale] can make at most: [i] stays
    below the scale.  With the scale [Infinity] the loop stops only on a
    non-zero remainder, which comes at the latest when the power of ten is
    infinite, after 309 steps; it never stops on the value 0. *)
Definition trimScale_fuel (scale : number) : nat :=
  match scale with
  | Int s => Z.to_nat s
  | Frac m e => Z.to_nat (m / 2 ^ (- e) + 1)
  | Inf false => 400%nat
  | _ => O
  end.

(** [None]: the loop does not end *)
Definition trimScale (this : ScaledInteger) : option ScaledInteger :=
  let value := _value this in
  let scale := _scale this in
  match trimScale_loop (trimScale_fuel scale) value scale 0 with
  | Some i =>
      Some (mkScaledInteger (div value (pow10 (Int i))) (sub scale (Int i)))
  | None => None
  end.

Definition add (this other : ScaledInteger) : result ScaledInteger :=
  let '((lhs, rhs), scale) := normalizedValues this other in
  let value := Num.add lhs rhs in
  if negb (isSafeInteger value) then Throw "addition overflow"
  else Ok (mkScaledInteger value scale).

Definition subtract (this other : ScaledInteger) : result ScaledInteger :=
  let '((lhs, rhs), scale) := normalizedValues this other in
  let value := Num.add lhs rhs in
  if negb (isSafeInteger value) then Throw "subtraction overflow"
  else Ok (mkScaledInteger value scale).

Definition multiply (this other : ScaledInteger) : result ScaledInteger :=
  let '((lhs, rhs), scale) := normalizedValues this other in
  let value := Num.add lhs rhs in
  if negb (isSafeInteger value) then Throw "multiplication overflow"
  else Ok (mkScaledInteger value scale).

(** *** The comparisons, the queries and the serialized form *)

(** returns [-1], [0] or [1] *)
Definition compare (a b : ScaledInteger) : Z :=
  let aScale := _scale a in
  let bScale := _scale b in
  if gt aScale bScale then
    let aValue := _value a in
    let bValue := unsafelyGetRelativeValue b aScale in
    if lt aValue bValue then -1 else if seq aValue bValue then 0 else 1
  else
    let aValue := unsafelyGetRelativeValue a bScale in
    let bValue := _value b in
    if lt aValue bValue then -1 else if seq aValue bValue then 0 else 1.

Definition lessThan (a b : ScaledInteger) : bool := compare a b =? -1.

Definition lessThanOrEqual (a b : ScaledInteger) : bool :=
  let c := compare a b in (c =? 0) || (c =? -1).

Definition greaterThanOrEqual (a b : ScaledInteger) : bool :=
  let c := compare a b in (c =? 0) || (c =? 1).

Definition greaterThan (a b : ScaledInteger) : bool := compare a b =? 1.

Definition isZero (this : ScaledInteger) : bool := seq (_value this) (Int 0).

Definition isPositive (this : ScaledInteger) : bool := gt (_value this) (Int 0).

Definition isNegative (this : ScaledInteger) : bool := lt (_value this) (Int 0).

Definition hasSubUnits (this : ScaledInteger) : bool :=
  let minor := rem (_value this) (pow10 (_scale this)) in
  negb (seq minor (Int 0)).

Definition toLossyNumber (this : ScaledInteger) : number :=
  div (_value this) (pow10 (_scale this)).

(** the object [{ value, scale }] of [toJSON] and [deserialize] *)
Module Json.
Record t : Type := mk { value : number; scale : number }.
End Json.

Definition toJSON (this : ScaledInteger) : Json.t :=
  Json.mk (_value this) (_scale this).

(* ================================================================== *)
(** ** Notions the statements use *)
(* ================================================================== *)

(** an integer in the safe range *)
Definition safe (z : Z) : Prop := Z.abs z <= MAX_SAFE_INTEGER.

(** the object with magnitude [v] and scale [s] *)
Definition instance (v s : Z) : ScaledInteger :=
  mkScaledInteger (Int v) (Int s).

(** the invariant of the class, as the constructor checks it *)
Definition invariant (x : ScaledInteger) : bool :=
  isSafeInteger (_value x) && isSafeInteger (_scale x)
  && negb (lt (_scale x) (Int 0)).

(** the decimal value [v / 10^s] of the magnitude [v] at scale [s] *)
Definition decimal (v s : Z) : Q := inject_Z v / inject_Z (10 ^ s).

Fixpoint all_digits (s : string) : bool :=
  match s with
  | EmptyString => true
  | String c r => is_digit c && all_digits r
  end.

(** one or more decimal digits: [[0-9]+] *)
Definition digits1 (s : string) : Prop := s <> "" /\ all_digits s = true.

(** [[-+]?] *)
Definition is_sign (s : string) : Prop := s = "" \/ s = "-" \/ s = "+".

(** The language of [STRICT_DECIMAL_REGEX] with its groups, read off the
    pattern: sign, digits, and optionally a dot and digits. *)
Inductive strict_grammar : string -> groups -> Prop :=
| strict_integer sign major :
    is_sign sign -> digits1 major ->
    strict_grammar (sign ++ major) (mkGroups sign major None)
| strict_decimal sign major minor :
    is_sign sign -> digits1 major -> digits1 minor ->
    strict_grammar (sign ++ major ++ "." ++ minor)
                   (mkGroups sign major (Some minor)).

(** what follows a greedy group of digits: not a digit *)
Definition starts_without_digit (s : string) : Prop :=
  match s with
  | String c _ => is_digit c = false
  | EmptyString => True
  end.

(** numbers that are not negative, those that are positive, and those that
    are positive and beyond the safe range *)
Definition nonneg (x : number) : Prop :=
  x = Inf false \/ exists w, x = Int w /\ 0 <= w.

Definition posnum (x : number) : Prop :=
  x = Inf false \/ exists w, x = Int w /\ 0 < w.

Definition big (x : number) : Prop :=
  x = Inf false \/ exists w, x = Int w /\ 2 ^ 53 <= w.

(** [majorStr] and [minorStr] of the two parsers *)
Definition majorStr_of (g : groups) : string :=
  or_else (trimStart (g_major g) "0") "0".

Definition minorStr_of (g : groups) : string :=
  or_else (trimEnd (match g_minor g with Some m => m | None => "" end) "0") "0".

(** [range lo n]: the integers [lo], [lo + 1], ..., [lo + n - 1] *)
Definition range (lo : Z) (n : nat) : list Z :=
  map (fun i => lo + Z.of_nat i) (List.seq 0 n).

(** what the powers of ten [10 ** k] are for [0 <= k <= 308]: finite and
    positive, the exact power up to [10^22], and at least [2^54] beyond *)
Definition pow10_ok (k : Z) : bool :=
  match pow10 (Int k) with
  | Int p => (0 <? p) && (if k <=? 22 then p =? 10 ^ k else 2 ^ 54 <=? p)
  | _ => false
  end.

(** the exact sum of two magnitudes brought to the larger scale *)
Definition exact_sum (va sa vb sb : Z) : Z :=
  va * 10 ^ (Z.max sa sb - sa) + vb * 10 ^ (Z.max sa sb - sb).

(** The operand of smaller scale is 0 and the scales are more than 308
    apart: the power of ten is [Infinity], and [0 * Infinity] is [NaN]. *)
Definition nan_corner (va sa vb sb : Z) : bool :=
  if sa <? sb then (va =? 0) && (308 <? sb - sa)
  else (vb =? 0) && (308 <? sa - sb).

(** the sum of [add], [subtract] and [multiply] is a safe integer *)
Definition sum_in_range (va sa vb sb : Z) : bool :=
  (Z.abs (exact_sum va sa vb sb) <=? MAX_SAFE_INTEGER)
  && negb (nan_corner va sa vb sb).

(** "add matches exact decimal arithmetic for all scale combinations"
    where nothing overflows: when the exact sum at the larger scale is a
    safe integer, [a.add(b)] is the instance of that sum at that scale. *)
Definition add_exact (va sa vb sb : Z) : Prop :=
  safe (exact_sum va sa vb sb) ->
  add (instance va sa) (instance vb sb)
  = Ok (instance (exact_sum va sa vb sb) (Z.max sa sb)).

(** [ScaledInteger.parse(x).clone().add(ScaledInteger.parse(y)).trimScale()
    .toString()], the expression of the test 'addition'; [None] when a call
    throws or leaves the modelled fragment. *)
Definition add_trim_toString (x y : string) : option string :=
  match parse x, parse y with
  | Ok a, Ok b =>
      match (c <- clone a ;; add c b) with
      | Ok r =>
          match trimScale r with
          | Some t =>
              match toString t with
              | Some (Ok str) => Some str
              | _ => None
              end
          | None => None
          end
      | Throw _ => None
      end
  | _, _ => None
  end.

(** What is said of [transformScale(n)] on the instance [(v, s)]: it
    returns the truncated remainder [r], leaves [(v - r) / 10^(s - n)] at
    the scale [n], and [increaseScale(s - n)] then gives [(v, s)] back
    exactly when [r] is 0. *)
Definition transform_roundtrip (v s n : Z) : Prop :=
  let r := Z.rem v (10 ^ (s - n)) in
  let x' := instance ((v - r) / 10 ^ (s - n)) n in
  transformScale (instance v s) (Int n) = (x', Truncated (Int r))
  /\ (increaseScale x' (Int (s - n)) = instance v s <-> r = 0).

(** the scale of the strict parser, from the value [N] of [minorStr] *)
Definition strict_scale (g : groups) (N : Z) : Z :=
  if N =? 0 then 0 else Z.of_nat (String.length (minorStr_of g)).

(** [sign == '-' ? -m : m] *)
Definition signed (g : groups) (m : Z) : Z :=
  if String.eqb (g_sign g) "-" then - m else m.

(** What the constructor demands of the magnitude [M * 10 ** L + N] the
    parsers compute from the integer digits [M] and the fractional digits
    [N] at scale [L]: it is a safe integer, and the product is not that of 0
    with an infinite power of ten, which is [NaN]. *)
Definition representable (M N L : Z) : Prop :=
  safe (M * 10 ^ L + N) /\ (M = 0 -> L <= 308).

(** "strict parse accepts exactly the strings matching the grammar" *)
Definition strict_accepts_exactly (str : string) : Prop :=
  (exists x, parse str = Ok x) <-> (exists g, strict_grammar str g).

(** *** The numbers against the Standard Library's IEEE-754 operations

    [SpecFloat] is the Standard Library's executable specification of
    binary floating point.  The two conversions and the samples below serve
    to check by evaluation that [mul], [add], [sub], [div], [lt] and [seq]
    are its operations at 53 bits of precision and exponents up to 1024. *)
Definition to_spec (x : number) : SpecFloat.spec_float :=
  match x with
  | Int z => SpecFloat.binary_normalize 53 1024 z 0 false
  | Frac m e => SpecFloat.binary_normalize 53 1024 m e false
  | Inf s => SpecFloat.S754_infinity s
  | NaN => SpecFloat.S754_nan
  end.

Definition of_spec (f : SpecFloat.spec_float) : number :=
  match f with
  | SpecFloat.S754_zero _ => Int 0
  | SpecFloat.S754_infinity s => Inf s
  | SpecFloat.S754_nan => NaN
  | SpecFloat.S754_finite s m e => mk (if s then Zneg m else Zpos m) e
  end.

Definition number_eqb (a b : number) : bool :=
  match a, b with
  | Int x, Int y => x =? y
  | Frac m e, Frac m' e' => (m =? m') && (e =? e')
  | Inf s, Inf t => Bool.eqb s t
  | NaN, NaN => true
  | _, _ => false
  end.

Definition samples : list number :=
  [Int 0; Int 1; Int (-7); Int 123456; Int (2 ^ 53 - 1); Int (2 ^ 53 + 2);
   Int (10 ^ 16); round (10 ^ 23) 0; round (2 ^ 54 + 6) 0;
   Frac 1 (-1); Frac (-5) (-3); round_quot 1 100; round_quot (-1) 3;
   Inf false; Inf true; NaN].

Definition agrees (f : number -> number -> number)
    (g : SpecFloat.spec_float -> SpecFloat.spec_float -> SpecFloat.spec_float)
  : bool :=
  forallb (fun x =>
    forallb (fun y =>
      number_eqb (f x y) (of_spec (g (to_spec x) (to_spec y)))) samples)
    samples.

Definition agrees_cmp (f : number -> number -> bool)
    (g : SpecFloat.spec_float -> SpecFloat.spec_float -> bool) : bool :=
  forallb (fun x =>
    forallb (fun y => Bool.eqb (f x y) (g (to_spec x) (to_spec y))) samples)
    samples.

(** one of the two digit groups of [LAX_DECIMAL_REGEX]: zero or more
    digits.  The language of the pattern with its groups: *)
Inductive lax_grammar : string -> groups -> Prop :=
| lax_integer sign major :
    is_sign sign -> all_digits major = true ->
    lax_grammar (sign ++ major) (mkGroups sign major None)
| lax_decimal sign major minor :
    is_sign sign -> all_digits major = true -> all_digits minor = true ->
    lax_grammar (sign ++ major ++ "." ++ minor)
                (mkGroups sign major (Some minor)).

(** the result of [compare] for an order of two numbers *)
Definition order_code (c : comparison) : Z :=
  match c with
  | Lt => -1
  | Eq => 0
  | Gt => 1
  end.

(** the two magnitudes brought to the larger scale *)
Definition widened_l (va sa sb : Z) : Z := va * 10 ^ (Z.max sa sb - sa).
Definition widened_r (vb sa sb : Z) : Z := vb * 10 ^ (Z.max sa sb - sb).

(** numbers far from zero, on the side of [v] *)
Definition far_like (v : Z) (r : number) : Prop :=
  r = Inf (v <? 0)
  \/ exists w, r = Int w /\ 2 ^ 54 <= Z.abs w
               /\ (0 < v -> 0 < w) /\ (v < 0 -> w < 0).

(** a string that does not begin, does not end, with the character [c] *)
Definition not_starting_with (c : ascii) (s : string) : Prop :=
  forall r, s <> String c r.

Definition not_ending_with (c : ascii) (s : string) : Prop :=
  forall r, s <> r ++ String c "".

(** what may follow the sign group: not a sign *)
Definition starts_without_sign (s : string) : Prop :=
  match s with
  | String c _ => (Ascii.eqb c "-" || Ascii.eqb c "+")%char = false
  | EmptyString => True
  end.

(** a string that begins with the minus sign *)
Definition starts_with_minus (s : string) : Prop :=
  exists r, s = String "-" r.

(** an instance from which [trimScale] has nothing to take: the scale is 0
    or the last digit of the magnitude is not 0 *)
Definition trimmed (v s : Z) : Prop := s = 0 \/ v mod 10 <> 0.

(* ================================================================== *)
(** ** Facts on numbers: where double arithmetic is integer arithmetic *)
(* ================================================================== *)

Section NumberFacts.

(** On the samples, pair by pair, the arithmetic of [Num] is that of
    [SpecFloat]. *)
Lemma arithmetic_agrees_with_SpecFloat :
  forallb (fun x => number_eqb x (of_spec (to_spec x))) samples
  && agrees mul (SpecFloat.SFmul 53 1024)
  && agrees Num.add (SpecFloat.SFadd 53 1024)
  && agrees sub (SpecFloat.SFsub 53 1024)
  && agrees div (SpecFloat.SFdiv 53 1024)
  && agrees_cmp lt (SpecFloat.SFltb)
  && agrees_cmp seq (SpecFloat.SFeqb) = true.
Proof. vm_compute. reflexivity. Qed.

Lemma MAX_SAFE_INTEGER_eq : MAX_SAFE_INTEGER = 9007199254740991.
Proof. reflexivity. Qed.

Lemma pow2_53 : 2 ^ 53 = 9007199254740992.
Proof. reflexivity. Qed.

Lemma bits_bound (z n : Z) :
  z <> 0 -> 0 <= n -> Z.abs z < 2 ^ n -> bits z <= n.
Proof.
  intros Hz Hn Hlt. unfold bits.
  assert (Z.log2 (Z.abs z) < n) by (apply Z.log2_lt_pow2; lia).
  lia.
Qed.

Lemma bits_lower (z : Z) : z <> 0 -> 2 ^ (bits z - 1) <= Z.abs z.
Proof.
  intros Hz. unfold bits.
  replace (Z.log2 (Z.abs z) + 1 - 1) with (Z.log2 (Z.abs z)) by lia.
  apply Z.log2_spec. lia.
Qed.

Lemma bits_large (z n : Z) :
  0 <= n -> 2 ^ n <= Z.abs z -> n < bits z.
Proof.
  intros Hn Hle. unfold bits.
  assert (n <= Z.log2 (Z.abs z)) by (apply Z.log2_le_pow2; lia).
  lia.
Qed.

(** Integers below [2^53] are doubles: nothing is rounded. *)
Lemma round_small (z : Z) : Z.abs z < 2 ^ 53 -> round z 0 = Int z.
Proof.
  intros Hz. unfold round.
  destruct (Z.eqb_spec z 0) as [-> | Hnz]; [reflexivity |].
  assert (Hb : bits z <= 53) by (apply bits_bound; lia).
  unfold prec, emin.
  replace (Z.max (bits z - 53) (-1074 - 0) <=? 0) with true
    by (symmetry; apply Z.leb_le; lia).
  unfold fits, emax.
  destruct (Z.eqb_spec z 0); [contradiction |].
  replace (1024 <? bits z + 0) with false by (symmetry; apply Z.ltb_ge; lia).
  unfold mk.
  destruct (Z.eqb_spec z 0); [contradiction |].
  simpl. f_equal. lia.
Qed.

Lemma round_safe (z : Z) : safe z -> round z 0 = Int z.
Proof.
  unfold safe. rewrite MAX_SAFE_INTEGER_eq. intros H.
  apply round_small. rewrite pow2_53. lia.
Qed.

(** From [2^n] on, rounding stays at [2^n] or above, on the same side of
    zero. *)
Lemma round_ge_sign (n z : Z) :
  53 <= n -> 2 ^ n <= Z.abs z ->
  round z 0 = Inf (z <? 0) \/
  (exists w, round z 0 = Int w /\ 2 ^ n <= Z.abs w /\ (0 < z -> 0 < w)).
Proof.
  intros Hn Hz.
  assert (Hpn : 0 < 2 ^ n) by (apply Z.pow_pos_nonneg; lia).
  assert (Hnz : z <> 0) by lia.
  assert (Hb : n < bits z) by (apply bits_large; lia).
  unfold round.
  destruct (Z.eqb_spec z 0); [contradiction |].
  unfold prec, emin.
  set (sh := Z.max (bits z - 53) (-1074 - 0)).
  assert (Hsh : sh = bits z - 53) by (unfold sh; lia).
  replace (sh <=? 0) with false by (symmetry; apply Z.leb_gt; lia).
  set (q := Z.abs z / 2 ^ sh).
  match goal with
  | |- context [if ?c then q + 1 else q] => set (q' := if c then q + 1 else q)
  end.
  assert (Hq : 2 ^ 52 <= q).
  { unfold q. apply Z.div_le_lower_bound; [apply Z.pow_pos_nonneg; lia |].
    rewrite <- Z.pow_add_r by lia.
    replace (sh + 52) with (bits z - 1) by lia. apply bits_lower, Hnz. }
  assert (Hq' : 2 ^ 52 <= q').
  { unfold q'. match goal with |- context [if ?c then _ else _] => destruct c end; lia. }
  assert (H52 : 0 < 2 ^ 52) by (apply Z.pow_pos_nonneg; lia).
  assert (Hs : (Z.sgn z = 1 /\ 0 < z) \/ (Z.sgn z = -1 /\ z < 0)).
  { destruct z; simpl; [contradiction | left | right]; split; lia. }
  assert (Hm : Z.sgn z * q' <> 0) by (destruct Hs as [[-> _] | [-> _]]; lia).
  assert (Hlt : (Z.sgn z * q' <? 0) = (z <? 0)).
  { destruct Hs as [[-> Hz'] | [-> Hz']].
    - rewrite Z.mul_1_l. destruct (Z.ltb_spec q' 0), (Z.ltb_spec z 0); lia || reflexivity.
    - destruct (Z.ltb_spec (-1 * q') 0), (Z.ltb_spec z 0); lia || reflexivity. }
  unfold fits.
  destruct (Z.eqb_spec (Z.sgn z * q') 0) as [E | _]; [contradiction |].
  destruct (emax <? bits (Z.sgn z * q') + (0 + sh)); [left; rewrite Hlt; reflexivity |].
  right. unfold mk.
  destruct (Z.eqb_spec (Z.sgn z * q') 0) as [E | _]; [contradiction |].
  replace (0 <=? 0 + sh) with true by (symmetry; apply Z.leb_le; lia).
  eexists; split; [reflexivity |].
  assert (Hp : 0 < 2 ^ (0 + sh)) by (apply Z.pow_pos_nonneg; lia).
  assert (Hw : 2 ^ n <= q' * 2 ^ (0 + sh)).
  { apply Z.le_trans with (2 ^ 52 * 2 ^ (0 + sh)).
    - rewrite <- Z.pow_add_r by lia. apply Z.pow_le_mono_r; lia.
    - apply Z.mul_le_mono_nonneg_r; lia. }
  destruct Hs as [[-> Hz'] | [-> Hz']].
  - rewrite Z.mul_1_l, Z.abs_eq by nia. split; [exact Hw | nia].
  - replace (-1 * q' * 2 ^ (0 + sh)) with (- (q' * 2 ^ (0 + sh))) by lia.
    rewrite Z.abs_opp, Z.abs_eq by nia. split; [exact Hw | lia].
Qed.

Lemma round_ge (n z : Z) :
  53 <= n -> 2 ^ n <= Z.abs z ->
  (exists s, round z 0 = Inf s) \/
  (exists w, round z 0 = Int w /\ 2 ^ n <= Z.abs w).
Proof.
  intros Hn Hz. destruct (round_ge_sign n z Hn Hz) as [E | [w [E [Hw _]]]];
    [left | right]; eauto.
Qed.

Lemma round_large (z : Z) :
  2 ^ 53 <= Z.abs z ->
  (exists s, round z 0 = Inf s) \/
  (exists w, round z 0 = Int w /\ 2 ^ 53 <= Z.abs w).
Proof. apply round_ge. lia. Qed.

Lemma isSafeInteger_Int (z : Z) : isSafeInteger (Int z) = true <-> safe z.
Proof. unfold isSafeInteger, safe. apply Z.leb_le. Qed.

(** A rounded integer is safe only when the integer is, and then nothing
    was rounded. *)
Lemma round_safe_inv (z : Z) :
  isSafeInteger (round z 0) = true -> safe z /\ round z 0 = Int z.
Proof.
  intros H.
  destruct (Z_lt_le_dec (Z.abs z) (2 ^ 53)) as [Hlt | Hge].
  - rewrite (round_small z Hlt) in *. split; [| reflexivity].
    apply isSafeInteger_Int. exact H.
  - exfalso. destruct (round_large z Hge) as [[s E] | [w [E Hw]]];
      rewrite E in H; simpl in H; [discriminate |].
    apply Z.leb_le in H. rewrite MAX_SAFE_INTEGER_eq in H.
    rewrite pow2_53 in Hw. lia.
Qed.

Lemma mul_Int (a b : Z) : mul (Int a) (Int b) = round (a * b) 0.
Proof. reflexivity. Qed.

Lemma add_Int (a b : Z) : Num.add (Int a) (Int b) = round (a + b) 0.
Proof.
  unfold Num.add. simpl. f_equal. lia.
Qed.

Lemma sub_Int (a b : Z) : sub (Int a) (Int b) = round (a - b) 0.
Proof. unfold sub. simpl neg. rewrite add_Int. f_equal. Qed.

Lemma lt_Int (a b : Z) : lt (Int a) (Int b) = (a <? b).
Proof.
  unfold lt, cmp_fin. simpl.
  replace (a * 1) with a by lia. replace (b * 1) with b by lia.
  unfold Z.ltb. destruct (a ?= b); reflexivity.
Qed.

Lemma gt_Int (a b : Z) : gt (Int a) (Int b) = (b <? a).
Proof. apply lt_Int. Qed.

Lemma seq_Int (a b : Z) : seq (Int a) (Int b) = (a =? b).
Proof.
  unfold seq, cmp_fin. simpl.
  replace (a * 1) with a by lia. replace (b * 1) with b by lia.
  destruct (Z.compare_spec a b), (Z.eqb_spec a b); try reflexivity; lia.
Qed.

Lemma rem_Int (a b : Z) : b <> 0 -> rem (Int a) (Int b) = Int (Z.rem a b).
Proof.
  intros Hb. unfold rem. simpl.
  destruct (Z.eqb_spec b 0); [contradiction |].
  replace (a * 1) with a by lia. replace (b * 1) with b by lia.
  unfold mk. destruct (Z.eqb_spec (Z.rem a b) 0) as [-> | _]; [reflexivity |].
  simpl. f_equal. lia.
Qed.

Lemma div_Int_exact (a b : Z) :
  0 < b -> a mod b = 0 -> div (Int a) (Int b) = round (a / b) 0.
Proof.
  intros Hb Hm. unfold div. simpl.
  destruct (Z.eqb_spec b 0); [lia |].
  replace (a * 1) with a by lia. replace (b * 1) with b by lia.
  rewrite Z.sgn_pos, Z.abs_eq, Z.mul_1_l by lia.
  unfold round_quot. rewrite Hm. reflexivity.
Qed.

(** An even integer below [2^54] is a double as well. *)
Lemma round_even (z : Z) :
  Z.abs z < 2 ^ 54 -> Z.even z = true -> round z 0 = Int z.
Proof.
  intros Hz Hev.
  destruct (Z_lt_le_dec (Z.abs z) (2 ^ 53)) as [Hlt | Hge];
    [apply round_small, Hlt |].
  assert (Hnz : z <> 0) by (rewrite pow2_53 in Hge; lia).
  assert (Hb : bits z = 54).
  { pose proof (bits_large z 53 ltac:(lia) Hge).
    pose proof (bits_bound z 54 Hnz ltac:(lia) Hz). lia. }
  apply Z.even_spec in Hev. destruct Hev as [h Hh].
  assert (Habs : Z.abs z = 2 * Z.abs h) by (subst z; rewrite Z.abs_mul; reflexivity).
  unfold round.
  destruct (Z.eqb_spec z 0); [contradiction |].
  unfold prec, emin. rewrite Hb.
  replace (Z.max (54 - 53) (-1074 - 0)) with 1 by reflexivity.
  replace (1 <=? 0) with false by reflexivity.
  change (2 ^ 1) with 2. change (2 ^ (1 - 1)) with 1.
  rewrite Habs.
  replace (2 * Z.abs h mod 2) with 0
    by (symmetry; rewrite Z.mul_comm; apply Z_mod_mult).
  replace (2 * Z.abs h / 2) with (Z.abs h)
    by (symmetry; rewrite Z.mul_comm; apply Z_div_mult; lia).
  replace ((1 <? 0) || (0 =? 1) && Z.odd (Z.abs h))%bool with false
    by reflexivity.
  assert (Hsg : Z.sgn z * Z.abs h = h).
  { subst z. destruct h; simpl; lia. }
  rewrite Hsg.
  assert (Hhnz : h <> 0) by lia.
  assert (Hhb : bits h <= 53).
  { apply bits_bound; lia. }
  unfold fits, emax.
  destruct (Z.eqb_spec h 0); [contradiction |].
  replace (1024 <? bits h + (0 + 1)) with false
    by (symmetry; apply Z.ltb_ge; lia).
  unfold mk. destruct (Z.eqb_spec h 0); [contradiction |].
  simpl. f_equal. lia.
Qed.

(** The powers of ten up to [10^308], by evaluation. *)
Lemma pow10_table : forallb pow10_ok (range 0 309) = true.
Proof. vm_compute. reflexivity. Qed.

Lemma pow10_ok_range (k : Z) : 0 <= k <= 308 -> pow10_ok k = true.
Proof.
  intros Hk.
  pose proof pow10_table as T.
  rewrite forallb_forall in T. apply T.
  unfold range. apply in_map_iff. exists (Z.to_nat k). split; [lia |].
  apply in_seq. lia.
Qed.

Lemma pow10_exact (k : Z) : 0 <= k <= 22 -> pow10 (Int k) = Int (10 ^ k).
Proof.
  intros Hk. pose proof (pow10_ok_range k ltac:(lia)) as H.
  unfold pow10_ok in H. destruct (pow10 (Int k)); try discriminate.
  replace (k <=? 22) with true in H by (symmetry; apply Z.leb_le; lia).
  apply andb_prop in H. destruct H as [_ H]. apply Z.eqb_eq in H.
  congruence.
Qed.

Lemma pow10_finite (k : Z) :
  23 <= k <= 308 -> exists p, pow10 (Int k) = Int p /\ 2 ^ 54 <= p.
Proof.
  intros Hk. pose proof (pow10_ok_range k ltac:(lia)) as H.
  unfold pow10_ok in H. destruct (pow10 (Int k)) as [p | | |]; try discriminate.
  replace (k <=? 22) with false in H by (symmetry; apply Z.leb_gt; lia).
  apply andb_prop in H. destruct H as [_ H]. apply Z.leb_le in H.
  eauto.
Qed.

Lemma pow10_infinite (k : Z) : 308 < k -> pow10 (Int k) = Inf false.
Proof.
  intros Hk. unfold pow10.
  replace (0 <=? k) with true by (symmetry; apply Z.leb_le; lia).
  replace (308 <? k) with true by (symmetry; apply Z.ltb_lt; lia).
  reflexivity.
Qed.

Lemma pow10_gt_safe (k : Z) : 16 <= k -> 2 ^ 54 <= 10 ^ k \/ k = 16.
Proof.
  intros Hk. destruct (Z.eq_dec k 16) as [-> | Hne]; [right; reflexivity | left].
  apply Z.le_trans with (10 ^ 17); [vm_compute; discriminate |].
  apply Z.pow_le_mono_r; lia.
Qed.

Lemma add_comm (x y : number) : Num.add x y = Num.add y x.
Proof.
  destruct x as [a | m e | s |], y as [b | m' e' | t |]; simpl;
    try reflexivity;
    try (f_equal; lia);
    try (match goal with
         | |- round _ (Z.min ?p ?q) = _ => rewrite (Z.min_comm p q)
         end; f_equal; lia).
  destruct s, t; reflexivity.
Qed.

Lemma even_mul_pow10 (v k : Z) : 1 <= k -> Z.even (v * 10 ^ k) = true.
Proof.
  intros Hk. replace k with (1 + (k - 1)) by lia.
  rewrite Z.pow_add_r by lia. change (10 ^ 1) with 10.
  rewrite !Z.even_mul. simpl. rewrite orb_true_r. reflexivity.
Qed.

Lemma pow10_pos (k : Z) : 0 <= k -> 0 < 10 ^ k.
Proof. intros. apply Z.pow_pos_nonneg; lia. Qed.

Lemma abs_mul_ge (v p b : Z) : v <> 0 -> b <= p -> 0 <= b -> b <= Z.abs (v * p).
Proof.
  intros Hv Hp Hb. rewrite Z.abs_mul. rewrite (Z.abs_eq p) by lia.
  assert (1 <= Z.abs v) by lia. nia.
Qed.

(** [v * 10 ** k]: the three things it can be. *)
Lemma widen_spec (v k : Z) :
  safe v -> 0 <= k ->
  let r := mul (Int v) (pow10 (Int k)) in
  (Z.abs (v * 10 ^ k) < 2 ^ 54 /\ k <= 308 /\ r = Int (v * 10 ^ k))
  \/ (2 ^ 54 <= Z.abs (v * 10 ^ k) /\
      ((exists s, r = Inf s) \/ (exists w, r = Int w /\ 2 ^ 54 <= Z.abs w)))
  \/ (v = 0 /\ 308 < k /\ r = NaN).
Proof.
  intros Hv Hk r. unfold safe in Hv. rewrite MAX_SAFE_INTEGER_eq in Hv.
  destruct (Z.eq_dec v 0) as [-> | Hnz].
  - destruct (Z_le_gt_dec k 308) as [Hle | Hgt].
    + left. rewrite Z.mul_0_l. split; [vm_compute; reflexivity |]. split; [lia |].
      unfold r. destruct (Z_le_gt_dec k 22).
      * rewrite pow10_exact by lia. rewrite mul_Int, Z.mul_0_l. reflexivity.
      * destruct (pow10_finite k ltac:(lia)) as [p [-> _]].
        rewrite mul_Int, Z.mul_0_l. reflexivity.
    + right; right. unfold r. rewrite pow10_infinite by lia.
      split; [reflexivity |]. split; [lia | reflexivity].
  - assert (H54 : 2 ^ 54 = 18014398509481984) by reflexivity.
    destruct (Z_le_gt_dec k 22) as [H22 | H22].
    + unfold r. rewrite pow10_exact by lia. rewrite mul_Int.
      destruct (Z_lt_le_dec (Z.abs (v * 10 ^ k)) (2 ^ 54)) as [Hlt | Hge].
      * left. split; [exact Hlt |]. split; [lia |].
        destruct (Z.eq_dec k 0) as [-> | Hk0].
        -- apply round_small. rewrite Z.pow_0_r, Z.mul_1_r, pow2_53. lia.
        -- apply round_even; [exact Hlt | apply even_mul_pow10; lia].
      * right; left. split; [exact Hge |]. apply round_ge; [lia | exact Hge].
    + assert (Hbig : 2 ^ 54 <= 10 ^ k).
      { apply Z.le_trans with (10 ^ 23); [vm_compute; discriminate |].
        apply Z.pow_le_mono_r; lia. }
      right; left. split; [apply abs_mul_ge; lia |].
      unfold r. destruct (Z_le_gt_dec k 308) as [Hle | Hgt].
      * destruct (pow10_finite k ltac:(lia)) as [p [-> Hp]].
        rewrite mul_Int. apply round_ge; [lia |]. apply abs_mul_ge; lia.
      * rewrite pow10_infinite by lia. left. simpl.
        destruct (Z.eqb_spec v 0); [contradiction |]. eauto.
Qed.

(** The sum of a widened magnitude and a magnitude: exact when it is safe,
    apart from the NaN of [0 * Infinity]; not a safe integer otherwise. *)
Lemma sum_widened (v k w : Z) :
  safe v -> safe w -> 0 <= k ->
  let value := Num.add (mul (Int v) (pow10 (Int k))) (Int w) in
  if (Z.abs (v * 10 ^ k + w) <=? MAX_SAFE_INTEGER)
     && negb ((v =? 0) && (308 <? k))
  then value = Int (v * 10 ^ k + w)
  else isSafeInteger value = false.
Proof.
  intros Hv Hw Hk value.
  assert (H54 : 2 ^ 54 = 18014398509481984) by reflexivity.
  pose proof Hw as Hw'. unfold safe in Hw'. rewrite MAX_SAFE_INTEGER_eq in Hw'.
  destruct (widen_spec v k Hv Hk) as [[Hlt [Hk' E]] | [[Hge E] | [Hz [Hk' E]]]];
    unfold value; clear value.
  - rewrite E, add_Int.
    replace ((v =? 0) && (308 <? k)) with false
      by (symmetry; apply andb_false_iff; right; apply Z.ltb_ge; lia).
    rewrite andb_true_r.
    destruct (Z.leb_spec (Z.abs (v * 10 ^ k + w)) MAX_SAFE_INTEGER) as [Hs | Hs].
    + apply round_safe. exact Hs.
    + destruct (isSafeInteger (round (v * 10 ^ k + w) 0)) eqn:Hsafe;
        [| reflexivity].
      apply round_safe_inv in Hsafe. destruct Hsafe as [Hsafe _].
      unfold safe in Hsafe. lia.
  - replace (Z.abs (v * 10 ^ k + w) <=? MAX_SAFE_INTEGER) with false
      by (symmetry; apply Z.leb_gt; rewrite MAX_SAFE_INTEGER_eq; lia).
    rewrite andb_false_l.
    destruct E as [[s E] | [u [E Hu]]]; rewrite E; [reflexivity |].
    rewrite add_Int.
    destruct (round_large (u + w)) as [[s E'] | [x [E' Hx]]].
    + rewrite pow2_53. lia.
    + rewrite E'. reflexivity.
    + rewrite E'. simpl. apply Z.leb_gt. rewrite MAX_SAFE_INTEGER_eq.
      rewrite pow2_53 in Hx. lia.
  - subst v. rewrite E.
    replace ((0 =? 0) && (308 <? k)) with true
      by (symmetry; apply andb_true_iff; split; [reflexivity | apply Z.ltb_lt; lia]).
    rewrite andb_false_r. reflexivity.
Qed.

End NumberFacts.

(* ================================================================== *)
(** ** Facts on the class: normalization and the three sums *)
(* ================================================================== *)

Section ClassFacts.

Variables va sa vb sb : Z.
Hypothesis Hva : safe va.
Hypothesis Hsa : 0 <= sa <= MAX_SAFE_INTEGER.
Hypothesis Hvb : safe vb.
Hypothesis Hsb : 0 <= sb <= MAX_SAFE_INTEGER.

Lemma sub_scale : sub (Int sb) (Int sa) = Int (sb - sa).
Proof. rewrite sub_Int. apply round_safe. unfold safe. lia. Qed.

Lemma sub_scale' : sub (Int sa) (Int sb) = Int (sa - sb).
Proof. rewrite sub_Int. apply round_safe. unfold safe. lia. Qed.

(** What [normalizedValues] hands to the three sums. *)
Lemma normalized_sum :
  exists lhs rhs,
    normalizedValues (instance va sa) (instance vb sb)
    = ((lhs, rhs), Int (Z.max sa sb))
    /\ if sum_in_range va sa vb sb
       then Num.add lhs rhs = Int (exact_sum va sa vb sb)
       else isSafeInteger (Num.add lhs rhs) = false.
Proof.
  unfold normalizedValues, unsafelyGetRelativeValue, instance. cbn [_value _scale].
  unfold sum_in_range, nan_corner, exact_sum.
  rewrite lt_Int. destruct (Z.ltb_spec sa sb) as [Hlt | Hge].
  - rewrite sub_scale. do 2 eexists. split.
    + rewrite Z.max_r by lia. reflexivity.
    + rewrite Z.max_r by lia.
      replace (sb - sb) with 0 by lia. rewrite Z.pow_0_r, Z.mul_1_r.
      apply sum_widened; assumption || lia.
  - rewrite sub_scale'. do 2 eexists. split.
    + rewrite Z.max_l by lia. reflexivity.
    + rewrite Z.max_l by lia.
      replace (sa - sa) with 0 by lia. rewrite Z.pow_0_r, Z.mul_1_r.
      rewrite add_comm, (Z.add_comm va).
      apply sum_widened; assumption || lia.
Qed.

Lemma sum_in_range_safe :
  sum_in_range va sa vb sb = true -> safe (exact_sum va sa vb sb).
Proof.
  unfold sum_in_range. intros H. apply andb_prop in H. destruct H as [H _].
  apply Z.leb_le in H. exact H.
Qed.

Ltac three_sums f :=
  unfold f; destruct normalized_sum as [lhs [rhs [-> H]]];
  destruct (sum_in_range va sa vb sb) eqn:R;
  [ rewrite H;
    replace (isSafeInteger (Int (exact_sum va sa vb sb))) with true
      by (symmetry; apply isSafeInteger_Int, sum_in_range_safe, R);
    reflexivity
  | rewrite H; reflexivity ].

Lemma add_spec :
  add (instance va sa) (instance vb sb)
  = if sum_in_range va sa vb sb
    then Ok (instance (exact_sum va sa vb sb) (Z.max sa sb))
    else Throw "addition overflow".
Proof. three_sums add. Qed.

Lemma subtract_spec :
  subtract (instance va sa) (instance vb sb)
  = if sum_in_range va sa vb sb
    then Ok (instance (exact_sum va sa vb sb) (Z.max sa sb))
    else Throw "subtraction overflow".
Proof. three_sums subtract. Qed.

Lemma multiply_spec :
  multiply (instance va sa) (instance vb sb)
  = if sum_in_range va sa vb sb
    then Ok (instance (exact_sum va sa vb sb) (Z.max sa sb))
    else Throw "multiplication overflow".
Proof. three_sums multiply. Qed.

(** The sum at the larger scale is the sum of the two decimal values. *)
Lemma exact_sum_decimal :
  decimal (exact_sum va sa vb sb) (Z.max sa sb)
  == decimal va sa + decimal vb sb.
Proof.
  unfold decimal, exact_sum.
  set (S := Z.max sa sb).
  assert (HA : 10 ^ S = 10 ^ (S - sa) * 10 ^ sa).
  { rewrite <- Z.pow_add_r by lia. f_equal. lia. }
  assert (HB : 10 ^ S = 10 ^ (S - sb) * 10 ^ sb).
  { rewrite <- Z.pow_add_r by lia. f_equal. lia. }
  assert (Pa : 0 < 10 ^ sa) by (apply pow10_pos; lia).
  assert (Pb : 0 < 10 ^ sb) by (apply pow10_pos; lia).
  assert (Pda : 0 < 10 ^ (S - sa)) by (apply pow10_pos; lia).
  assert (Pdb : 0 < 10 ^ (S - sb)) by (apply pow10_pos; lia).
  assert (PS : 0 < 10 ^ S) by (apply pow10_pos; lia).
  unfold Qeq, Qdiv, Qplus, Qmult, Qinv, inject_Z. simpl Qnum. simpl Qden.
  destruct (10 ^ S) as [| pS | pS] eqn:ES; try lia.
  destruct (10 ^ sa) as [| pa | pa] eqn:Ea; try lia.
  destruct (10 ^ sb) as [| pb | pb] eqn:Eb; try lia.
  simpl Qnum. simpl Qden.
  rewrite Pos2Z.inj_mul, !Z.mul_1_r.
  rewrite (Z.mul_add_distr_r (va * Z.pos pb)).
  rewrite HA at 1. rewrite HB. ring.
Qed.

End ClassFacts.

(* ================================================================== *)
(** ** add, subtract, multiply *)
(* ================================================================== *)

Ltac solve_safe :=
  unfold safe in *; rewrite ?MAX_SAFE_INTEGER_eq in *; simpl; lia.

(** Two valid instances whose scales are more than 308 apart cannot be
    added: the power of ten that widens the operand of smaller scale is
    [Infinity], so the sum is not a safe integer, also when that operand is
    0 ([0 * Infinity] is [NaN]). *)
Lemma sum_out_of_range (va sa vb sb : Z) :
  safe va -> safe vb -> 0 <= sa -> 0 <= sb -> 308 < Z.abs (sa - sb) ->
  sum_in_range va sa vb sb = false.
Proof.
  intros Hva Hvb Hsa Hsb Hgap.
  unfold safe in Hva, Hvb. rewrite MAX_SAFE_INTEGER_eq in Hva, Hvb.
  assert (Hbig : forall k, 308 < k -> 2 ^ 54 <= 10 ^ k).
  { intros k Hk. apply Z.le_trans with (10 ^ 23); [vm_compute; discriminate |].
    apply Z.pow_le_mono_r; lia. }
  assert (Hfar : forall v w k, 308 < k -> v <> 0 ->
                               Z.abs w <= 9007199254740991 ->
                               (Z.abs (v * 10 ^ k + w) <=? MAX_SAFE_INTEGER) = false).
  { intros v w k Hk Hv Hw. apply Z.leb_gt. rewrite MAX_SAFE_INTEGER_eq.
    pose proof (Hbig k Hk) as Hp. change (2 ^ 54) with 18014398509481984 in Hp.
    assert (10 ^ k <= Z.abs (v * 10 ^ k))
      by (rewrite Z.abs_mul, (Z.abs_eq (10 ^ k)) by lia; nia).
    lia. }
  unfold sum_in_range, nan_corner, exact_sum.
  destruct (Z.ltb_spec sa sb) as [Hlt | Hge].
  - rewrite Z.max_r by lia. rewrite Z.sub_diag, Z.pow_0_r, Z.mul_1_r.
    replace (308 <? sb - sa) with true by (symmetry; apply Z.ltb_lt; lia).
    rewrite andb_true_r.
    destruct (Z.eqb_spec va 0) as [E | E]; [apply andb_false_r |].
    rewrite (Hfar va vb (sb - sa)) by (lia || assumption). reflexivity.
  - rewrite Z.max_l by lia. rewrite Z.sub_diag, Z.pow_0_r, Z.mul_1_r.
    replace (308 <? sa - sb) with true by (symmetry; apply Z.ltb_lt; lia).
    rewrite andb_true_r.
    destruct (Z.eqb_spec vb 0) as [E | E]; [apply andb_false_r |].
    rewrite (Z.add_comm va).
    rewrite (Hfar vb va (sa - sb)) by (lia || assumption). reflexivity.
Qed.

(** C5, as stated, fails on the instances [(0, 0)] and [(5, 309)]: the
    exact sum at scale 309 is 5, a safe integer, and [add] fails with
    'addition overflow', because it widens the 0 by [0 * 10 ** 309], which
    is [0 * Infinity = NaN]. *)
Lemma add_refuses_safe_sum : ~ add_exact 0 0 5 309.
Proof.
  unfold add_exact. intros H.
  assert (Hs : safe (exact_sum 0 0 5 309)) by (vm_compute; discriminate).
  specialize (H Hs). vm_compute in H. discriminate H.
Qed.

(** C5, amended.  For two instances whose scales are at most 308 apart,
    [a.add(b)] is exact decimal arithmetic where nothing overflows: when the
    exact sum at the scale [max(a.scale, b.scale)] is a safe integer, the
    result is that sum at that scale, and its decimal value is the sum of
    the two decimal values as exact rationals.  It fails with 'addition
    overflow' when the exact sum is not a safe integer, and always when the
    scales are more than 308 apart.  The example of the specification
    evaluates to ["1.21123162"]. *)
Theorem add_matches_decimal_arithmetic (va sa vb sb : Z) :
  safe va -> 0 <= sa <= MAX_SAFE_INTEGER ->
  safe vb -> 0 <= sb <= MAX_SAFE_INTEGER ->
  let r := add (instance va sa) (instance vb sb) in
  let e := exact_sum va sa vb sb in
  let s := Z.max sa sb in
  decimal e s == decimal va sa + decimal vb sb
  /\ (safe e -> Z.abs (sa - sb) <= 308 -> r = Ok (instance e s))
  /\ (~ safe e -> r = Throw "addition overflow")
  /\ (308 < Z.abs (sa - sb) -> r = Throw "addition overflow")
  /\ add_trim_toString "1.74291456" "-0.53168294" = Some "1.21123162".
Proof.
  intros Hva Hsa Hvb Hsb r e s.
  split; [apply exact_sum_decimal; assumption |].
  assert (Hr : r = if sum_in_range va sa vb sb then Ok (instance e s)
                   else Throw "addition overflow")
    by (apply add_spec; assumption).
  split; [| split; [| split]].
  - intros He Hgap. rewrite Hr.
    replace (sum_in_range va sa vb sb) with true; [reflexivity |].
    symmetry. unfold sum_in_range. apply andb_true_iff. split.
    + apply Z.leb_le. exact He.
    + unfold nan_corner. destruct (sa <? sb).
      * replace (308 <? sb - sa) with false by (symmetry; apply Z.ltb_ge; lia).
        rewrite andb_false_r. reflexivity.
      * replace (308 <? sa - sb) with false by (symmetry; apply Z.ltb_ge; lia).
        rewrite andb_false_r. reflexivity.
  - intros He. rewrite Hr.
    destruct (sum_in_range va sa vb sb) eqn:R; [| reflexivity].
    exfalso. apply He. apply sum_in_range_safe, R.
  - intros Hgap. rewrite Hr.
    rewrite (sum_out_of_range va sa vb sb) by (assumption || lia). reflexivity.
  - vm_compute. reflexivity.
Qed.

Lemma add_matches_decimal_arithmetic_witness :
  safe 15 /\ 0 <= 1 <= MAX_SAFE_INTEGER /\ safe 25 /\ 0 <= 2 <= MAX_SAFE_INTEGER
  /\ add (instance 15 1) (instance 25 2) = Ok (instance 175 2).
Proof.
  assert (H1 : safe 15) by solve_safe.
  assert (H2 : 0 <= 1 <= MAX_SAFE_INTEGER) by solve_safe.
  assert (H3 : safe 25) by solve_safe.
  assert (H4 : 0 <= 2 <= MAX_SAFE_INTEGER) by solve_safe.
  repeat (split; [assumption |]).
  apply (add_matches_decimal_arithmetic 15 1 25 2 H1 H2 H3 H4);
    [solve_safe | simpl; lia].
Defined.

(** C1.  [a.subtract(b)] does not negate the right-hand value: the body is
    that of [add], so on every pair of objects it gives what [add] gives (up
    to the text of the overflow error), and [3 - 1] comes out as [4]. *)
Theorem subtract_does_not_negate :
  subtract (instance 3 0) (instance 1 0) = Ok (instance 4 0)
  /\ (forall a b : ScaledInteger,
        subtract a b = match add a b with
                       | Ok r => Ok r
                       | Throw _ => Throw "subtraction overflow"
                       end).
Proof.
  split; [reflexivity |].
  intros a b. unfold subtract, add.
  destruct (normalizedValues a b) as [[lhs rhs] scale].
  destruct (isSafeInteger (Num.add lhs rhs)); reflexivity.
Qed.

(** C6.  [a.multiply(b)] is [a.add(b)]: the same normalization, the sum of
    the normalized magnitudes, the same results; only the text of the
    overflow error differs.  On two valid instances it is the sum of the
    two magnitudes brought to the larger scale, or the overflow error.  So
    [2 * 3] comes out as [5], and [1.5 * 0.25] as [1.75]. *)
Theorem multiply_is_add :
  (forall a b : ScaledInteger,
     multiply a b = match add a b with
                    | Ok r => Ok r
                    | Throw _ => Throw "multiplication overflow"
                    end)
  /\ (forall a b : ScaledInteger,
        multiply a b =
        let '((lhs, rhs), scale) := normalizedValues a b in
        if isSafeInteger (Num.add lhs rhs)
        then Ok (mkScaledInteger (Num.add lhs rhs) scale)
        else Throw "multiplication overflow")
  /\ (forall va sa vb sb : Z,
        safe va -> 0 <= sa <= MAX_SAFE_INTEGER ->
        safe vb -> 0 <= sb <= MAX_SAFE_INTEGER ->
        multiply (instance va sa) (instance vb sb)
        = if sum_in_range va sa vb sb
          then Ok (instance (exact_sum va sa vb sb) (Z.max sa sb))
          else Throw "multiplication overflow")
  /\ multiply (instance 2 0) (instance 3 0) = Ok (instance 5 0)
  /\ multiply (instance 15 1) (instance 25 2) = Ok (instance 175 2).
Proof.
  split; [| split; [| split; [| split]]].
  - intros a b. unfold multiply, add.
    destruct (normalizedValues a b) as [[lhs rhs] scale].
    destruct (isSafeInteger (Num.add lhs rhs)); reflexivity.
  - intros a b. unfold multiply.
    destruct (normalizedValues a b) as [[lhs rhs] scale].
    destruct (isSafeInteger (Num.add lhs rhs)); reflexivity.
  - intros va sa vb sb Hva Hsa Hvb Hsb. apply multiply_spec; assumption.
  - reflexivity.
  - reflexivity.
Qed.

Lemma multiply_is_add_witness :
  safe 15 /\ 0 <= 1 <= MAX_SAFE_INTEGER /\ safe 25 /\ 0 <= 2 <= MAX_SAFE_INTEGER
  /\ multiply (instance 15 1) (instance 25 2)
     = if sum_in_range 15 1 25 2
       then Ok (instance (exact_sum 15 1 25 2) (Z.max 1 2))
       else Throw "multiplication overflow".
Proof.
  assert (H1 : safe 15) by solve_safe.
  assert (H2 : 0 <= 1 <= MAX_SAFE_INTEGER) by solve_safe.
  assert (H3 : safe 25) by solve_safe.
  assert (H4 : 0 <= 2 <= MAX_SAFE_INTEGER) by solve_safe.
  repeat (split; [assumption |]).
  exact (proj1 (proj2 (proj2 multiply_is_add)) 15 1 25 2 H1 H2 H3 H4).
Defined.


(* ================================================================== *)
(** ** getRelativeValue *)
(* ================================================================== *)

(** What the guard of [getRelativeValue] lets through. *)
Lemma getRelativeValue_spec (v s w t : Z) :
  0 <= s <= MAX_SAFE_INTEGER -> 0 <= t <= MAX_SAFE_INTEGER ->
  getRelativeValue (instance v s) (instance w t)
  = if s <? t then Throw "other scale must be greater"
    else Ok (mul (Int v) (pow10 (Int (t - s)))).
Proof.
  intros Hs Ht. unfold getRelativeValue, instance. cbn [_value _scale].
  rewrite lt_Int. destruct (s <? t); [reflexivity |].
  rewrite sub_Int, round_safe by (unfold safe; lia). reflexivity.
Qed.

(** C2.  The guard of [getRelativeValue] is the other way round: the call
    throws exactly when the target scale is the larger one (5 at scale 0
    asked at scale 2 throws instead of giving 500), and narrows when the
    target scale is the smaller one (5 at scale 2 asked at scale 0 gives
    the double 0.05).  At equal scales it returns the magnitude. *)
Theorem getRelativeValue_guard_inverted :
  getRelativeValue (instance 5 0) (instance 0 2)
  = Throw "other scale must be greater"
  /\ getRelativeValue (instance 5 2) (instance 0 0)
     = Ok (Frac 3602879701896397 (-56))
  /\ getRelativeValue (instance 5 2) (instance 0 2) = Ok (Int 5).
Proof. repeat split; vm_compute; reflexivity. Qed.

(* ================================================================== *)
(** ** increaseScale and the invariant *)
(* ================================================================== *)

(** [increaseScale] where nothing overflows *)
Lemma increaseScale_spec (v s k : Z) :
  safe v -> 0 <= s -> 0 <= k <= 308 -> s + k <= MAX_SAFE_INTEGER ->
  safe (v * 10 ^ k) ->
  increaseScale (instance v s) (Int k) = instance (v * 10 ^ k) (s + k).
Proof.
  intros Hv Hs Hk Hsk Hp. unfold increaseScale, instance. cbn [_value _scale].
  rewrite add_Int, (round_safe (s + k)) by (unfold safe; lia).
  f_equal.
  destruct (widen_spec v k Hv ltac:(lia)) as [[_ [_ E]] | [[Hge _] | [_ [Hk' _]]]].
  - exact E.
  - unfold safe in Hp. rewrite MAX_SAFE_INTEGER_eq in Hp.
    change (2 ^ 54) with 18014398509481984 in Hge. lia.
  - lia.
Qed.

(** C3.  [increaseScale] has no overflow check: on the magnitude [2^52] and
    [k = 1] it does not fail, and stores [10 * 2^52], which is not a safe
    integer. *)
Theorem increaseScale_unchecked :
  increaseScale (instance 4503599627370496 0) (Int 1)
  = instance 45035996273704960 1
  /\ isSafeInteger (Int 45035996273704960) = false.
Proof. split; vm_compute; reflexivity. Qed.

Lemma constructor_invariant (value scale : number) (x : ScaledInteger) :
  constructor value scale = Ok x -> invariant x = true.
Proof.
  unfold constructor, invariant.
  destruct (isSafeInteger value) eqn:Hv; [| discriminate].
  destruct (isSafeInteger scale) eqn:Hs; [| discriminate].
  destruct (lt scale (Int 0)) eqn:Hl; [discriminate |].
  simpl. intros H. injection H as <-. cbn [_value _scale].
  rewrite Hv, Hs, Hl. reflexivity.
Qed.

Lemma constructor_ok (x : ScaledInteger) :
  invariant x = true -> constructor (_value x) (_scale x) = Ok x.
Proof.
  unfold constructor, invariant. intros H.
  apply andb_prop in H. destruct H as [H Hl].
  apply andb_prop in H. destruct H as [Hv Hs].
  rewrite Hv, Hs. apply negb_true_iff in Hl. rewrite Hl.
  destruct x; reflexivity.
Qed.

(** the instances that satisfy the invariant *)
Lemma invariant_instance (x : ScaledInteger) :
  invariant x = true <->
  exists v s, x = instance v s /\ safe v /\ 0 <= s <= MAX_SAFE_INTEGER.
Proof.
  unfold invariant. split.
  - intros H. apply andb_prop in H. destruct H as [H Hl].
    apply andb_prop in H. destruct H as [Hv Hs].
    destruct x as [[v | | |] [s | | |]]; cbn [_value _scale] in *;
      try discriminate.
    exists v, s. split; [reflexivity |].
    apply isSafeInteger_Int in Hv. apply isSafeInteger_Int in Hs.
    apply negb_true_iff in Hl. rewrite lt_Int in Hl. apply Z.ltb_ge in Hl.
    unfold safe in *. split; [exact Hv | lia].
  - intros [v [s [-> [Hv Hs]]]]. unfold instance. cbn [_value _scale].
    rewrite lt_Int.
    replace (isSafeInteger (Int v)) with true
      by (symmetry; apply isSafeInteger_Int, Hv).
    replace (isSafeInteger (Int s)) with true
      by (symmetry; apply isSafeInteger_Int; unfold safe; lia).
    replace (s <? 0) with false by (symmetry; apply Z.ltb_ge; lia).
    reflexivity.
Qed.

(** The checked operations keep the invariant. *)
Lemma parse_invariant (str : string) (x : ScaledInteger) :
  parse str = Ok x -> invariant x = true.
Proof.
  unfold parse. destruct (match_strict str); [| discriminate].
  apply constructor_invariant.
Qed.

Lemma parseLax_invariant (str : string) (x : ScaledInteger) :
  parseLax str = Ok x -> invariant x = true.
Proof.
  unfold parseLax. destruct (match_lax str); [| discriminate].
  apply constructor_invariant.
Qed.

Lemma add_invariant (a b r : ScaledInteger) :
  invariant a = true -> invariant b = true -> add a b = Ok r ->
  invariant r = true.
Proof.
  intros Ha Hb.
  apply invariant_instance in Ha. destruct Ha as [va [sa [-> [Hva Hsa]]]].
  apply invariant_instance in Hb. destruct Hb as [vb [sb [-> [Hvb Hsb]]]].
  rewrite add_spec by assumption.
  destruct (sum_in_range va sa vb sb) eqn:R; [| discriminate].
  intros H. injection H as <-. apply invariant_instance.
  do 2 eexists. split; [reflexivity |].
  split; [apply sum_in_range_safe, R | lia].
Qed.

Lemma subtract_invariant (a b r : ScaledInteger) :
  invariant a = true -> invariant b = true -> subtract a b = Ok r ->
  invariant r = true.
Proof.
  intros Ha Hb.
  apply invariant_instance in Ha. destruct Ha as [va [sa [-> [Hva Hsa]]]].
  apply invariant_instance in Hb. destruct Hb as [vb [sb [-> [Hvb Hsb]]]].
  rewrite subtract_spec by assumption.
  destruct (sum_in_range va sa vb sb) eqn:R; [| discriminate].
  intros H. injection H as <-. apply invariant_instance.
  do 2 eexists. split; [reflexivity |].
  split; [apply sum_in_range_safe, R | lia].
Qed.

Lemma multiply_invariant (a b r : ScaledInteger) :
  invariant a = true -> invariant b = true -> multiply a b = Ok r ->
  invariant r = true.
Proof.
  intros Ha Hb.
  apply invariant_instance in Ha. destruct Ha as [va [sa [-> [Hva Hsa]]]].
  apply invariant_instance in Hb. destruct Hb as [vb [sb [-> [Hvb Hsb]]]].
  rewrite multiply_spec by assumption.
  destruct (sum_in_range va sa vb sb) eqn:R; [| discriminate].
  intros H. injection H as <-. apply invariant_instance.
  do 2 eexists. split; [reflexivity |].
  split; [apply sum_in_range_safe, R | lia].
Qed.

(** C4.  The constructor refuses what breaks the invariant, but the
    unchecked scale operations do not keep it: from the instance [(2^52, 0)]
    [increaseScale(1)] and [normalizeTo] a scale-1 instance leave a magnitude
    that is not a safe integer, and [transformScale(-1)] leaves the scale
    [-1]. *)
Theorem invariant_not_preserved :
  constructor (Int 9007199254740992) (Int 0) = Throw "unsafe integer value"
  /\ constructor (Int 0) (Int (-1)) = Throw "scale must be a positive integer"
  /\ invariant (instance 4503599627370496 0) = true
  /\ invariant (increaseScale (instance 4503599627370496 0) (Int 1)) = false
  /\ invariant (normalizeTo (instance 4503599627370496 0) (instance 0 1)) = false
  /\ fst (transformScale (instance 5 0) (Int (-1))) = instance 0 (-1).
Proof. repeat split; vm_compute; reflexivity. Qed.

(* ================================================================== *)
(** ** normalize *)
(* ================================================================== *)

(** C10.  [normalize] does not bring every element to the maximum scale:
    [maximumScale] starts its loop at index 1 of the rest (so the second
    element is never looked at) and returns the loop counter in place of
    the index of the maximum.  Of two elements with scales 0 and 2 none is
    changed; of three with scales 4, 2 and 0 the last keeps the scale 0. *)
Theorem normalize_misses_maximum :
  normalize [instance 1 0; instance 1 2] = Ok [instance 1 0; instance 1 2]
  /\ normalize [instance 1 4; instance 1 2; instance 1 0]
     = Ok [instance 1 4; instance 100 4; instance 1 0]
  /\ maximumScale (instance 1 0) [instance 1 2] = (1, instance 1 0).
Proof. repeat split; vm_compute; reflexivity. Qed.

(* ================================================================== *)
(** ** transformScale *)
(* ================================================================== *)

Lemma rem_trunc (v b : Z) :
  0 < b ->
  Z.abs (v - Z.rem v b) <= Z.abs v /\ (v - Z.rem v b) mod b = 0.
Proof.
  intros Hb. split.
  - destruct (Z_le_gt_dec 0 v) as [Hv | Hv].
    + pose proof (Z.rem_bound_pos v b Hv Hb).
      pose proof (Z.rem_le v b Hv Hb). lia.
    + assert (E : Z.rem v b = - Z.rem (- v) b).
      { rewrite Z.rem_opp_l by lia. lia. }
      pose proof (Z.rem_bound_pos (- v) b ltac:(lia) Hb).
      pose proof (Z.rem_le (- v) b ltac:(lia) Hb). lia.
  - pose proof (Z.quot_rem' v b) as E.
    replace (v - Z.rem v b) with (Z.quot v b * b) by lia.
    apply Z_mod_mult.
Qed.

Lemma rem_small_abs (v b : Z) : Z.abs v < b -> Z.rem v b = v.
Proof.
  intros H. destruct (Z_le_gt_dec 0 v) as [Hv | Hv].
  - apply Z.rem_small. lia.
  - replace v with (- (- v)) at 1 by lia.
    rewrite Z.rem_opp_l by lia. rewrite Z.rem_small by lia. lia.
Qed.

Lemma div_abs_le (a b : Z) : 0 < b -> a mod b = 0 -> Z.abs (a / b) <= Z.abs a.
Proof.
  intros Hb Hm. apply Z.div_exact in Hm; [| lia].
  set (q := a / b) in *. rewrite Hm. rewrite Z.abs_mul.
  rewrite (Z.abs_eq b) by lia. pose proof (Z.abs_nonneg q). nia.
Qed.

(** [transformScale] toward a smaller scale, and back, with a finite power
    of ten. *)
Lemma transform_roundtrip_holds (v s n : Z) :
  safe v -> 0 <= n <= s -> s <= MAX_SAFE_INTEGER -> s - n <= 308 ->
  transform_roundtrip v s n.
Proof.
  intros Hv Hn Hs Hk. unfold transform_roundtrip.
  set (k := s - n). assert (Hk0 : 0 <= k) by (unfold k; lia).
  pose proof Hv as Hv'. unfold safe in Hv'. rewrite MAX_SAFE_INTEGER_eq in Hv'.
  rewrite MAX_SAFE_INTEGER_eq in Hs.
  unfold transformScale, increaseScale, instance. cbn [_value _scale].
  rewrite gt_Int. replace (s <? n) with false by (symmetry; apply Z.ltb_ge; lia).
  rewrite sub_Int, (round_safe (s - n)) by solve_safe. fold k.
  rewrite add_Int, (round_safe (n + k)) by solve_safe.
  replace (n + k) with s by (unfold k; lia).
  destruct (Z_le_gt_dec k 22) as [H22 | H22].
  - (* the exact power of ten *)
    rewrite pow10_exact by lia.
    pose proof (pow10_pos k Hk0) as Hp.
    destruct (rem_trunc v (10 ^ k) Hp) as [Hle Hmod].
    set (r := Z.rem v (10 ^ k)) in *.
    rewrite rem_Int by lia. fold r.
    rewrite sub_Int, (round_safe (v - r)) by solve_safe.
    rewrite div_Int_exact by assumption.
    pose proof (div_abs_le _ _ Hp Hmod) as Hq.
    rewrite (round_safe ((v - r) / 10 ^ k)) by solve_safe.
    cbn [floor]. split; [reflexivity |].
    rewrite mul_Int.
    replace ((v - r) / 10 ^ k * 10 ^ k) with (v - r)
      by (apply Z.div_exact in Hmod; lia).
    rewrite (round_safe (v - r)) by solve_safe.
    split.
    + intros E. injection E as E. lia.
    + intros ->. do 2 f_equal. lia.
  - (* a power of ten beyond every magnitude *)
    destruct (pow10_finite k ltac:(lia)) as [p [-> Hp]].
    change (2 ^ 54) with 18014398509481984 in Hp.
    assert (Hbig : 2 ^ 54 <= 10 ^ k).
    { apply Z.le_trans with (10 ^ 23); [vm_compute; discriminate |].
      apply Z.pow_le_mono_r; lia. }
    change (2 ^ 54) with 18014398509481984 in Hbig.
    rewrite rem_Int by lia.
    rewrite (rem_small_abs v p) by lia.
    rewrite (rem_small_abs v (10 ^ k)) by lia.
    rewrite sub_Int. replace (v - v) with 0 by lia.
    rewrite (round_safe 0) by solve_safe.
    rewrite div_Int_exact by (try apply Zmod_0_l; lia).
    rewrite Zdiv_0_l. rewrite (round_safe 0) by solve_safe.
    cbn [floor]. split; [reflexivity |].
    rewrite mul_Int, Z.mul_0_l, (round_safe 0) by solve_safe.
    split.
    + intros E. injection E as E. lia.
    + intros ->. reflexivity.
Qed.

(** The first half holds whatever the distance of the scales: the remainder
    returned and the magnitude and scale left. *)
Lemma transformScale_truncates (v s n : Z) :
  safe v -> 0 <= n <= s -> s <= MAX_SAFE_INTEGER ->
  let r := Z.rem v (10 ^ (s - n)) in
  transformScale (instance v s) (Int n)
  = (instance ((v - r) / 10 ^ (s - n)) n, Truncated (Int r)).
Proof.
  intros Hv Hn Hs.
  destruct (Z_le_gt_dec (s - n) 308) as [Hk | Hk].
  - apply (transform_roundtrip_holds v s n Hv Hn Hs Hk).
  - cbv zeta.
    pose proof Hv as Hv'. unfold safe in Hv'. rewrite MAX_SAFE_INTEGER_eq in Hv'.
    rewrite MAX_SAFE_INTEGER_eq in Hs.
    assert (Hbig : 2 ^ 54 <= 10 ^ (s - n)).
    { apply Z.le_trans with (10 ^ 23); [vm_compute; discriminate |].
      apply Z.pow_le_mono_r; lia. }
    change (2 ^ 54) with 18014398509481984 in Hbig.
    unfold transformScale, instance. cbn [_value _scale].
    rewrite gt_Int. replace (s <? n) with false by (symmetry; apply Z.ltb_ge; lia).
    rewrite sub_Int, (round_safe (s - n)) by solve_safe.
    rewrite pow10_infinite by lia.
    rewrite (rem_small_abs v (10 ^ (s - n))) by lia.
    cbn [rem]. rewrite sub_Int. replace (v - v) with 0 by lia.
    rewrite (round_safe 0) by solve_safe. cbn [div floor].
    rewrite Zdiv_0_l. reflexivity.
Qed.

(** With a power of ten that is [Infinity] the narrowed magnitude is 0 and
    widening it again gives [NaN]: nothing is restored, and the remainder is
    the whole magnitude. *)
Lemma transform_roundtrip_far (v s n : Z) :
  safe v -> 0 <= n <= s -> s <= MAX_SAFE_INTEGER -> 308 < s - n ->
  (transform_roundtrip v s n <-> v <> 0).
Proof.
  intros Hv Hn Hs Hk.
  pose proof (transformScale_truncates v s n Hv Hn Hs) as T. cbv zeta in T.
  pose proof Hv as Hv'. unfold safe in Hv'. rewrite MAX_SAFE_INTEGER_eq in Hv'.
  assert (Hbig : 2 ^ 54 <= 10 ^ (s - n)).
  { apply Z.le_trans with (10 ^ 23); [vm_compute; discriminate |].
    apply Z.pow_le_mono_r; lia. }
  change (2 ^ 54) with 18014398509481984 in Hbig.
  unfold transform_roundtrip.
  rewrite (rem_small_abs v (10 ^ (s - n))) in * by lia.
  rewrite Z.sub_diag, Zdiv_0_l in *.
  assert (Hnan : increaseScale (instance 0 n) (Int (s - n)) <> instance v s).
  { unfold increaseScale, instance. cbn [_value _scale].
    rewrite pow10_infinite by lia. cbn [mul]. intros H. discriminate H. }
  split.
  - intros [_ [_ H]] E. apply Hnan, H, E.
  - intros Hnz. split; [exact T |]. split.
    + intros H. contradiction.
    + intros E. contradiction.
Qed.

(** C8, as stated, fails on the instance [(0, 309)] narrowed to scale 0: the
    remainder is 0, and [increaseScale(309)] gives the magnitude [NaN]
    ([0 * Infinity]), not 0. *)
Lemma transform_roundtrip_counterexample : ~ transform_roundtrip 0 309 0.
Proof.
  unfold transform_roundtrip. intros [_ [_ H]].
  specialize (H eq_refl). vm_compute in H. discriminate H.
Qed.

(** C8, amended.  For an instance [(v, s)] and [0 <= n <= s]:
    [transformScale(n)] returns the truncated remainder
    [r = v rem 10^(s - n)] (sign of [v], toward zero), leaves the magnitude
    [(v - r) / 10^(s - n)] at scale [n]; and a following
    [increaseScale(s - n)] gives [(v, s)] back if and only if [r = 0],
    unless the magnitude is 0 and [s - n] is more than 308: then the
    remainder is 0 and the original is not restored. *)
Theorem transformScale_lossy_iff_remainder (v s n : Z) :
  safe v -> 0 <= n <= s -> s <= MAX_SAFE_INTEGER ->
  (let r := Z.rem v (10 ^ (s - n)) in
   transformScale (instance v s) (Int n)
   = (instance ((v - r) / 10 ^ (s - n)) n, Truncated (Int r)))
  /\ ((v = 0 -> s - n <= 308) -> transform_roundtrip v s n)
  /\ (v = 0 -> 308 < s - n -> ~ transform_roundtrip v s n).
Proof.
  intros Hv Hn Hs. split; [| split].
  - apply transformScale_truncates; assumption.
  - intros Hk. destruct (Z_le_gt_dec (s - n) 308) as [Hle | Hgt].
    + apply transform_roundtrip_holds; assumption.
    + apply transform_roundtrip_far; try assumption; [lia |].
      intros E. specialize (Hk E). lia.
  - intros E Hgt H.
    apply (transform_roundtrip_far v s n Hv Hn Hs Hgt) in H. contradiction.
Qed.

Lemma transformScale_lossy_iff_remainder_witness :
  safe 123456 /\ 0 <= 1 <= 3 /\ 3 <= MAX_SAFE_INTEGER
  /\ (123456 = 0 -> 3 - 1 <= 308)
  /\ transformScale (instance 123456 3) (Int 1)
     = (instance 1234 1, Truncated (Int 56))
  /\ transform_roundtrip 123456 3 1.
Proof.
  assert (H1 : safe 123456) by solve_safe.
  assert (H2 : 0 <= 1 <= 3) by lia.
  assert (H3 : 3 <= MAX_SAFE_INTEGER) by solve_safe.
  assert (H4 : 123456 = 0 -> 3 - 1 <= 308) by lia.
  repeat (split; [assumption |]).
  split.
  - exact (proj1 (transformScale_lossy_iff_remainder 123456 3 1 H1 H2 H3)).
  - exact (proj1 (proj2 (transformScale_lossy_iff_remainder 123456 3 1 H1 H2 H3))
             H4).
Defined.

(* ================================================================== *)
(** ** The strict pattern and its grammar *)
(* ================================================================== *)

Section Grammar.

Lemma span_digits_spec (s d t : string) :
  span_digits s = (d, t) ->
  s = d ++ t /\ all_digits d = true /\ starts_without_digit t.
Proof.
  revert d t. induction s as [| c r IH]; intros d t H; simpl in H.
  - injection H as <- <-. repeat split.
  - destruct (is_digit c) eqn:Hc.
    + destruct (span_digits r) as [d' t'] eqn:E.
      injection H as <- <-.
      destruct (IH d' t' eq_refl) as [-> [Hd Ht]].
      simpl. rewrite Hc, Hd. repeat split. exact Ht.
    + injection H as <- <-. repeat split. simpl. exact Hc.
Qed.

Lemma span_digits_app (d t : string) :
  all_digits d = true -> starts_without_digit t ->
  span_digits (d ++ t) = (d, t).
Proof.
  intros Hd Ht. induction d as [| c r IH]; simpl in *.
  - destruct t as [| c t]; [reflexivity |]. simpl in Ht. simpl. rewrite Ht.
    reflexivity.
  - apply andb_prop in Hd. destruct Hd as [Hc Hr].
    rewrite Hc, (IH Hr). reflexivity.
Qed.

Lemma digit_not_sign (c : ascii) :
  is_digit c = true -> (Ascii.eqb c "-" || Ascii.eqb c "+")%char = false.
Proof.
  intros Hc.
  destruct (Ascii.eqb_spec c "-"%char) as [-> | _]; [discriminate Hc |].
  destruct (Ascii.eqb_spec c "+"%char) as [-> | _]; [discriminate Hc |].
  reflexivity.
Qed.

Lemma take_sign_spec (s sg r : string) :
  take_sign s = (sg, r) -> s = sg ++ r /\ is_sign sg.
Proof.
  unfold take_sign, is_sign. destruct s as [| c s]; intros H.
  - injection H as <- <-. auto.
  - destruct (Ascii.eqb_spec c "-"%char) as [-> | _].
    { injection H as <- <-. auto. }
    destruct (Ascii.eqb_spec c "+"%char) as [-> | _].
    { injection H as <- <-. auto. }
    simpl in H. injection H as <- <-. auto.
Qed.

Lemma take_sign_app (sg d t : string) :
  is_sign sg -> digits1 d -> take_sign (sg ++ d ++ t) = (sg, d ++ t).
Proof.
  intros Hs [Hne Hd].
  destruct d as [| c d]; [contradiction |].
  simpl in Hd. apply andb_prop in Hd. destruct Hd as [Hc _].
  destruct Hs as [-> | [-> | ->]]; try reflexivity.
  simpl. rewrite (digit_not_sign c Hc). reflexivity.
Qed.

Lemma is_empty_spec (s : string) : is_empty s = true <-> s = "".
Proof. destruct s; simpl; split; congruence. Qed.

(** The matcher finds the groups of the pattern, and only them. *)
Lemma match_strict_spec (str : string) (g : groups) :
  match_strict str = Some g <-> strict_grammar str g.
Proof.
  split.
  - unfold match_strict.
    destruct (take_sign str) as [sg r] eqn:Es.
    destruct (span_digits r) as [mj r1] eqn:Em.
    destruct (take_sign_spec _ _ _ Es) as [-> Hsg].
    destruct (span_digits_spec _ _ _ Em) as [-> [Hmj _]].
    destruct (is_empty mj) eqn:Hne; [discriminate |].
    assert (Hmj1 : digits1 mj).
    { split; [| exact Hmj]. intros ->. discriminate Hne. }
    destruct r1 as [| c r2].
    + intros H. injection H as <-.
      replace (mj ++ "") with mj
        by (clear; induction mj; simpl; congruence).
      constructor; assumption.
    + destruct (Ascii.eqb_spec c "."%char) as [-> | _]; [| discriminate].
      destruct (span_digits r2) as [mn r3] eqn:En.
      destruct (span_digits_spec _ _ _ En) as [-> [Hmn _]].
      destruct (is_empty mn) eqn:Hmne; [discriminate |].
      destruct (is_empty r3) eqn:Hr3; [| discriminate].
      apply is_empty_spec in Hr3. subst r3. simpl.
      intros H. injection H as <-.
      replace (mn ++ "") with mn
        by (clear; induction mn; simpl; congruence).
      apply (strict_decimal sg mj mn); try assumption.
      split; [| exact Hmn]. intros ->. discriminate Hmne.
  - intros H. destruct H as [sg mj Hsg Hmj | sg mj mn Hsg Hmj Hmn];
      unfold match_strict.
    + replace (sg ++ mj) with (sg ++ mj ++ "")
        by (f_equal; clear; induction mj; simpl; congruence).
      rewrite (take_sign_app sg mj "" Hsg Hmj).
      rewrite (span_digits_app mj "" (proj2 Hmj) I).
      destruct mj; [destruct Hmj; contradiction | reflexivity].
    + rewrite (take_sign_app sg mj ("." ++ mn) Hsg Hmj).
      rewrite (span_digits_app mj ("." ++ mn) (proj2 Hmj)) by reflexivity.
      destruct mj as [| c0 mj0]; [destruct Hmj; contradiction |].
      cbn [is_empty append]. cbn [Ascii.eqb Bool.eqb].
      replace mn with (mn ++ "") at 1
        by (clear; induction mn; simpl; congruence).
      rewrite (span_digits_app mn "" (proj2 Hmn) I).
      destruct mn; [destruct Hmn; contradiction | reflexivity].
Qed.

End Grammar.

(* ================================================================== *)
(** ** Numbers that are not negative: the arithmetic of the parsers *)
(* ================================================================== *)

Section ParserArithmetic.

Lemma round_big (z : Z) : 2 ^ 53 <= z -> big (round z 0).
Proof.
  intros Hz. rewrite pow2_53 in Hz.
  destruct (round_ge_sign 53 z ltac:(lia) ltac:(rewrite pow2_53; lia))
    as [E | [w [E [Hw Hpos]]]].
  - left. rewrite E. replace (z <? 0) with false; [reflexivity |].
    symmetry. apply Z.ltb_ge. lia.
  - right. exists w. split; [exact E |]. specialize (Hpos ltac:(lia)). lia.
Qed.

Lemma round_cases (z : Z) :
  0 <= z -> (safe z /\ round z 0 = Int z) \/ (2 ^ 53 <= z /\ big (round z 0)).
Proof.
  intros Hz. destruct (Z_lt_le_dec z (2 ^ 53)) as [Hlt | Hge].
  - left. rewrite pow2_53 in Hlt.
    assert (safe z) by solve_safe. split; [assumption | apply round_safe; assumption].
  - right. split; [exact Hge | apply round_big, Hge].
Qed.

Lemma big_nonneg (x : number) : big x -> nonneg x.
Proof.
  intros [-> | [w [-> Hw]]]; [left; reflexivity |].
  right. exists w. rewrite pow2_53 in Hw. split; [reflexivity | lia].
Qed.

Lemma big_unsafe (x : number) : big x -> isSafeInteger x = false.
Proof.
  intros [-> | [w [-> Hw]]]; [reflexivity |].
  simpl. apply Z.leb_gt. rewrite MAX_SAFE_INTEGER_eq. rewrite pow2_53 in Hw. lia.
Qed.

Lemma add_big_l (x y : number) : big x -> nonneg y -> big (Num.add x y).
Proof.
  intros [-> | [u [-> Hu]]] [-> | [w [-> Hw]]]; try (left; reflexivity).
  rewrite add_Int. apply round_big. lia.
Qed.

Lemma add_big_r (x y : number) : nonneg x -> big y -> big (Num.add x y).
Proof. intros Hx Hy. rewrite add_comm. apply add_big_l; assumption. Qed.

Lemma mul_big (x p : number) : big x -> posnum p -> big (mul x p).
Proof.
  intros [-> | [u [-> Hu]]] [-> | [w [-> Hw]]]; rewrite ?pow2_53 in *.
  - left; reflexivity.
  - left. simpl. destruct (Z.eqb_spec w 0); [lia |].
    replace (w <? 0) with false by (symmetry; apply Z.ltb_ge; lia). reflexivity.
  - left. simpl. destruct (Z.eqb_spec u 0); [lia |].
    replace (u <? 0) with false by (symmetry; apply Z.ltb_ge; lia). reflexivity.
  - rewrite mul_Int. apply round_big. rewrite pow2_53. nia.
Qed.

Lemma mul_nonneg (x p : number) :
  nonneg x -> posnum p -> nonneg (mul x p) \/ mul x p = NaN.
Proof.
  intros [-> | [u [-> Hu]]] [-> | [w [-> Hw]]].
  - left; left; reflexivity.
  - left; left. simpl. destruct (Z.eqb_spec w 0); [lia |].
    replace (w <? 0) with false by (symmetry; apply Z.ltb_ge; lia). reflexivity.
  - simpl. destruct (Z.eqb_spec u 0); [right; reflexivity |].
    left; left.
    replace (u <? 0) with false by (symmetry; apply Z.ltb_ge; lia). reflexivity.
  - left. rewrite mul_Int. destruct (round_cases (u * w) ltac:(nia)) as [[_ E] | [_ B]].
    + right. exists (u * w). split; [exact E | nia].
    + apply big_nonneg, B.
Qed.

Lemma pow10_posnum (k : Z) : 0 <= k -> posnum (pow10 (Int k)).
Proof.
  intros Hk. destruct (Z_le_gt_dec k 22).
  - rewrite pow10_exact by lia. right. eexists. split; [reflexivity |].
    apply pow10_pos, Hk.
  - destruct (Z_le_gt_dec k 308).
    + destruct (pow10_finite k ltac:(lia)) as [p [-> Hp]].
      right. exists p. split; [reflexivity |].
      change (2 ^ 54) with 18014398509481984 in Hp. lia.
    + left. apply pow10_infinite. lia.
Qed.

(** [major * 10 ** scale + minor] in the parsers: when the result is a safe
    integer, every step was exact. *)
Lemma parsed_value_exact (M N L : Z) :
  0 <= M -> 0 <= N -> 0 <= L ->
  let value := Num.add (mul (round M 0) (pow10 (Int L))) (round N 0) in
  isSafeInteger value = true ->
  value = Int (M * 10 ^ L + N) /\ safe (M * 10 ^ L + N)
  /\ (M = 0 -> L <= 308).
Proof.
  intros HM HN HL value Hsafe.
  pose proof (pow10_posnum L HL) as Hp.
  destruct (round_cases M HM) as [[HMs EM] | [_ BM]].
  2:{ exfalso. unfold value in Hsafe.
      assert (B : big (Num.add (mul (round M 0) (pow10 (Int L))) (round N 0))).
      { apply add_big_l; [apply mul_big; assumption |].
        destruct (round_cases N HN) as [[_ E] | [_ B]];
          [right; eauto | apply big_nonneg, B]. }
      rewrite (big_unsafe _ B) in Hsafe. discriminate. }
  destruct (round_cases N HN) as [[HNs EN] | [_ BN]].
  2:{ exfalso. unfold value in Hsafe. rewrite EM in Hsafe.
      destruct (mul_nonneg (Int M) (pow10 (Int L))) as [Hnn | Hnan];
        [right; eauto | exact Hp | |].
      - rewrite (big_unsafe _ (add_big_r _ _ Hnn BN)) in Hsafe. discriminate.
      - rewrite Hnan in Hsafe. discriminate. }
  unfold value in *. rewrite EM, EN in *.
  pose proof (sum_widened M L N HMs HNs HL) as H. cbv zeta in H.
  destruct ((Z.abs (M * 10 ^ L + N) <=? MAX_SAFE_INTEGER)
            && negb ((M =? 0) && (308 <? L))) eqn:C.
  - split; [exact H |]. apply andb_prop in C. destruct C as [C C'].
    apply Z.leb_le in C. split; [exact C |].
    intros ->. simpl in C'. apply negb_true_iff, Z.ltb_ge in C'. exact C'.
  - rewrite H in Hsafe. discriminate.
Qed.

Lemma isSafeInteger_neg (x : number) : isSafeInteger (neg x) = isSafeInteger x.
Proof. destruct x; simpl; try reflexivity. rewrite Z.abs_opp. reflexivity. Qed.

Lemma seq_round_zero (N : Z) : 0 <= N -> seq (round N 0) (Int 0) = (N =? 0).
Proof.
  intros HN. destruct (round_cases N HN) as [[_ E] | [Hge B]].
  - rewrite E. apply seq_Int.
  - rewrite pow2_53 in Hge.
    replace (N =? 0) with false by (symmetry; apply Z.eqb_neq; lia).
    destruct B as [-> | [w [-> Hw]]]; [reflexivity |].
    rewrite seq_Int. apply Z.eqb_neq. rewrite pow2_53 in Hw. lia.
Qed.

End ParserArithmetic.

(* ================================================================== *)
(** ** Digit strings *)
(* ================================================================== *)

Section DigitStrings.

Lemma digit_value_nonneg (c : ascii) : is_digit c = true -> 0 <= digit_value c.
Proof.
  unfold is_digit, digit_value. intros H. apply andb_prop in H.
  destruct H as [H _]. apply N.leb_le in H. lia.
Qed.

Lemma digits_value_from_some (s : string) :
  all_digits s = true ->
  forall acc, 0 <= acc -> exists z, digits_value_from acc s = Some z /\ 0 <= z.
Proof.
  induction s as [| c r IH]; intros Hd acc Hacc;
    cbn [digits_value_from all_digits] in *.
  - eauto.
  - apply andb_prop in Hd. destruct Hd as [Hc Hr]. rewrite Hc.
    apply IH; [exact Hr |]. pose proof (digit_value_nonneg c Hc). lia.
Qed.

Lemma digits_value_some (s : string) :
  all_digits s = true -> exists z, digits_value s = Some z /\ 0 <= z.
Proof. intros H. apply digits_value_from_some; [exact H | lia]. Qed.

Lemma all_digits_slice_from (i : nat) (s : string) :
  all_digits s = true -> all_digits (slice_from i s) = true.
Proof.
  revert s. induction i as [| j IH]; intros s H; [exact H |].
  destruct s as [| c r]; [reflexivity |]. simpl in *.
  apply andb_prop in H. apply IH, H.
Qed.

Lemma all_digits_slice_to (n : nat) (s : string) :
  all_digits s = true -> all_digits (slice_to n s) = true.
Proof.
  revert s. induction n as [| j IH]; intros s H; [reflexivity |].
  destruct s as [| c r]; [reflexivity |]. simpl in *.
  apply andb_prop in H. destruct H as [Hc Hr]. rewrite Hc. apply IH, Hr.
Qed.

Lemma all_digits_trimStart (s : string) :
  all_digits s = true -> all_digits (trimStart s "0") = true.
Proof.
  intros H. unfold trimStart. destruct (0 <? _)%nat; [| exact H].
  apply all_digits_slice_from, H.
Qed.

Lemma all_digits_trimEnd (s : string) :
  all_digits s = true -> all_digits (trimEnd s "0") = true.
Proof.
  intros H. unfold trimEnd. destruct (0 <? _)%nat; [| exact H].
  apply all_digits_slice_to, H.
Qed.

Lemma all_digits_or_else (s : string) :
  all_digits s = true -> all_digits (or_else s "0") = true.
Proof. destruct s; intros H; [reflexivity | exact H]. Qed.

Lemma strict_grammar_digits (str : string) (g : groups) :
  strict_grammar str g ->
  all_digits (majorStr_of g) = true /\ all_digits (minorStr_of g) = true.
Proof.
  intros H. unfold majorStr_of, minorStr_of.
  destruct H as [sg mj Hsg [_ Hmj] | sg mj mn Hsg [_ Hmj] [_ Hmn]];
    cbn [g_major g_minor]; split;
    try (apply all_digits_or_else, all_digits_trimStart; assumption);
    try (apply all_digits_or_else, all_digits_trimEnd; assumption).
  reflexivity.
Qed.

End DigitStrings.

(* ================================================================== *)
(** ** parse *)
(* ================================================================== *)

Section Parse.

Lemma constructor_inv (value scale : number) (x : ScaledInteger) :
  constructor value scale = Ok x ->
  x = mkScaledInteger value scale /\ isSafeInteger value = true
  /\ isSafeInteger scale = true.
Proof.
  unfold constructor.
  destruct (isSafeInteger value); [| discriminate].
  destruct (isSafeInteger scale); [| discriminate].
  destruct (lt scale (Int 0)); [discriminate |].
  simpl. intros H. injection H as <-. auto.
Qed.

Lemma constructor_cases (value : number) (L : Z) :
  0 <= L ->
  (exists x, constructor value (Int L) = Ok x)
  \/ constructor value (Int L) = Throw "unsafe integer value".
Proof.
  intros HL. unfold constructor.
  destruct (isSafeInteger value); [| right; reflexivity].
  destruct (isSafeInteger (Int L)); [| right; reflexivity].
  rewrite lt_Int. replace (L <? 0) with false by (symmetry; apply Z.ltb_ge; lia).
  left. eexists. reflexivity.
Qed.

(** What both parsers build from the digits, once the constructor has
    accepted it. *)
Lemma parsed_construct (sign majorStr minorStr : string) (M N L : Z)
    (x : ScaledInteger) :
  digits_value majorStr = Some M -> digits_value minorStr = Some N ->
  0 <= M -> 0 <= N -> 0 <= L ->
  constructor
    (let value := Num.add (mul (toNumber majorStr) (pow10 (Int L)))
                          (toNumber minorStr) in
     if String.eqb sign "-" then neg value else value) (Int L) = Ok x ->
  x = instance (if String.eqb sign "-" then - (M * 10 ^ L + N)
                else M * 10 ^ L + N) L
  /\ safe (M * 10 ^ L + N) /\ (M = 0 -> L <= 308) /\ L <= MAX_SAFE_INTEGER.
Proof.
  intros EM EN HM HN HL H. unfold toNumber in H. rewrite EM, EN in H.
  apply constructor_inv in H. destruct H as [-> [Hs HsL]].
  cbv zeta in Hs.
  assert (Hs' : isSafeInteger
                  (Num.add (mul (round M 0) (pow10 (Int L))) (round N 0)) = true).
  { destruct (String.eqb sign "-"); [rewrite isSafeInteger_neg in Hs |]; exact Hs. }
  destruct (parsed_value_exact M N L HM HN HL Hs') as [E [Hsafe Hc]].
  cbv zeta. rewrite E. unfold instance.
  apply isSafeInteger_Int in HsL. unfold safe in HsL.
  split; [destruct (String.eqb sign "-"); reflexivity |].
  split; [exact Hsafe |]. split; [exact Hc | lia].
Qed.

(** The converse: a representable magnitude passes the constructor. *)
Lemma safe_power_scale (M N L : Z) :
  0 <= M -> 0 <= N -> 0 <= L -> representable M N L ->
  safe M /\ safe N /\ L <= 308.
Proof.
  intros HM HN HL [Hs Hc]. unfold safe in *. rewrite MAX_SAFE_INTEGER_eq in *.
  pose proof (pow10_pos L HL) as Hp.
  assert (H1 : 1 <= 10 ^ L) by lia.
  assert (HML : M <= M * 10 ^ L) by nia.
  repeat split; try lia.
  destruct (Z.eq_dec M 0) as [E | E]; [exact (Hc E) |].
  destruct (Z_le_gt_dec L 308) as [Hle | Hgt]; [exact Hle | exfalso].
  assert (Hbig : 2 ^ 54 <= 10 ^ L).
  { apply Z.le_trans with (10 ^ 23); [vm_compute; discriminate |].
    apply Z.pow_le_mono_r; lia. }
  change (2 ^ 54) with 18014398509481984 in Hbig. nia.
Qed.

Lemma parsed_accepted (sign majorStr minorStr : string) (M N L : Z) :
  digits_value majorStr = Some M -> digits_value minorStr = Some N ->
  0 <= M -> 0 <= N -> 0 <= L -> representable M N L ->
  constructor
    (let value := Num.add (mul (toNumber majorStr) (pow10 (Int L)))
                          (toNumber minorStr) in
     if String.eqb sign "-" then neg value else value) (Int L)
  = Ok (instance (if String.eqb sign "-" then - (M * 10 ^ L + N)
                  else M * 10 ^ L + N) L).
Proof.
  intros EM EN HM HN HL HR.
  destruct (safe_power_scale M N L HM HN HL HR) as [HMs [HNs HL308]].
  destruct HR as [Hs Hc].
  unfold toNumber. rewrite EM, EN.
  rewrite (round_safe M HMs), (round_safe N HNs).
  pose proof (sum_widened M L N HMs HNs HL) as H. cbv zeta in H.
  replace ((Z.abs (M * 10 ^ L + N) <=? MAX_SAFE_INTEGER)
           && negb ((M =? 0) && (308 <? L))) with true in H.
  2:{ symmetry. apply andb_true_iff. split; [apply Z.leb_le, Hs |].
      replace (308 <? L) with false by (symmetry; apply Z.ltb_ge; lia).
      rewrite andb_false_r. reflexivity. }
  cbv zeta. rewrite H.
  unfold constructor, instance.
  assert (HsL : isSafeInteger (Int L) = true)
    by (apply isSafeInteger_Int; solve_safe).
  assert (Hlt : lt (Int L) (Int 0) = false)
    by (rewrite lt_Int; apply Z.ltb_ge; lia).
  destruct (String.eqb sign "-"); cbn [neg].
  - replace (isSafeInteger (Int (- (M * 10 ^ L + N)))) with true
      by (symmetry; apply isSafeInteger_Int; unfold safe in *;
          rewrite Z.abs_opp; exact Hs).
    rewrite HsL, Hlt. reflexivity.
  - replace (isSafeInteger (Int (M * 10 ^ L + N))) with true
      by (symmetry; apply isSafeInteger_Int; exact Hs).
    rewrite HsL, Hlt. reflexivity.
Qed.

Lemma parse_matched (str : string) (g : groups) :
  match_strict str = Some g ->
  exists M N,
    digits_value (majorStr_of g) = Some M /\ 0 <= M
    /\ digits_value (minorStr_of g) = Some N /\ 0 <= N
    /\ parse str
       = constructor
           (let value :=
              Num.add (mul (toNumber (majorStr_of g))
                           (pow10 (Int (strict_scale g N))))
                      (toNumber (minorStr_of g)) in
            if String.eqb (g_sign g) "-" then neg value else value)
           (Int (strict_scale g N)).
Proof.
  intros Hm. pose proof (proj1 (match_strict_spec str g) Hm) as Hg.
  destruct (strict_grammar_digits str g Hg) as [Dm Dn].
  destruct (digits_value_some _ Dm) as [M [EM HM]].
  destruct (digits_value_some _ Dn) as [N [EN HN]].
  exists M, N. repeat (split; [assumption |]).
  unfold parse. rewrite Hm. fold (majorStr_of g). fold (minorStr_of g).
  assert (Hseq : seq (toNumber (minorStr_of g)) (Int 0) = (N =? 0)).
  { unfold toNumber. rewrite EN. apply seq_round_zero, HN. }
  cbv zeta. rewrite Hseq.
  unfold strict_scale, string_length. destruct (N =? 0); reflexivity.
Qed.

Lemma strict_scale_nonneg (g : groups) (N : Z) : 0 <= strict_scale g N.
Proof. unfold strict_scale. destruct (N =? 0); lia. Qed.

End Parse.

(** C7, as stated, fails on ["9007199254740992"]: the string matches the
    grammar and [parse] refuses it ('unsafe integer value'). *)
Lemma parse_refuses_matching_string :
  ~ strict_accepts_exactly "9007199254740992".
Proof.
  unfold strict_accepts_exactly. intros [_ H].
  destruct H as [x Hx].
  - exists (mkGroups "" "9007199254740992" None).
    apply match_strict_spec. reflexivity.
  - vm_compute in Hx. discriminate Hx.
Qed.

(** C7, amended.  [parse] fails with 'invalid decimal string' exactly on the
    strings that do not match the anchored grammar.  A string that matches,
    with integer digits of value [major] and fractional digits, trimmed of
    their trailing zeros, of value [minor], is accepted exactly when
    [major * 10^scale + minor] is a safe integer (and, for [major = 0], the
    scale is at most 308); otherwise it is refused with 'unsafe integer
    value'.  On acceptance the scale is 0 if the trimmed fractional part is
    zero, else the length of the fractional digits after trimming the
    trailing zeros, and the magnitude is [major * 10^scale + minor], negated
    if the sign is ['-'].  So ["0.10"] parses to scale 1, magnitude 1; and
    309 fractional digits of value 1 behind the integer part 0 are
    refused. *)
Theorem parse_strict_grammar (str : string) :
  (parse str = Throw "invalid decimal string"
   <-> ~ exists g, strict_grammar str g)
  /\ (forall g, strict_grammar str g ->
      exists M N,
        digits_value (majorStr_of g) = Some M
        /\ digits_value (minorStr_of g) = Some N
        /\ (representable M N (strict_scale g N) ->
            parse str
            = Ok (instance (signed g (M * 10 ^ strict_scale g N + N))
                           (strict_scale g N)))
        /\ (~ representable M N (strict_scale g N) ->
            parse str = Throw "unsafe integer value"))
  /\ (forall x, parse str = Ok x ->
      exists g M N,
        strict_grammar str g
        /\ digits_value (majorStr_of g) = Some M
        /\ digits_value (minorStr_of g) = Some N
        /\ x = instance (signed g (M * 10 ^ strict_scale g N + N))
                        (strict_scale g N))
  /\ parse "0.10" = Ok (instance 1 1)
  /\ parse ("0." ++ repeat_char "0" 308 ++ "1") = Throw "unsafe integer value".
Proof.
  split; [| split; [| split; [| split]]].
  - split.
    + intros H [g Hg]. apply match_strict_spec in Hg.
      destruct (parse_matched str g Hg) as [M [N [_ [_ [_ [_ E]]]]]].
      rewrite E in H.
      destruct (constructor_cases
                  (let value :=
                     Num.add (mul (toNumber (majorStr_of g))
                                  (pow10 (Int (strict_scale g N))))
                             (toNumber (minorStr_of g)) in
                   if String.eqb (g_sign g) "-" then neg value else value)
                  (strict_scale g N) (strict_scale_nonneg g N))
        as [[x Hx] | Hx]; rewrite Hx in H; discriminate H.
    + intros H. unfold parse. destruct (match_strict str) as [g |] eqn:E;
        [| reflexivity].
      exfalso. apply H. exists g. apply match_strict_spec, E.
  - intros g Hg. apply match_strict_spec in Hg.
    destruct (parse_matched str g Hg) as [M [N [EM [HM [EN [HN E]]]]]].
    exists M, N. split; [exact EM |]. split; [exact EN |].
    pose proof (strict_scale_nonneg g N) as HL.
    split.
    + intros HR. rewrite E.
      apply (parsed_accepted _ _ _ M N _ EM EN HM HN HL HR).
    + intros HR. rewrite E.
      destruct (constructor_cases
                  (let value :=
                     Num.add (mul (toNumber (majorStr_of g))
                                  (pow10 (Int (strict_scale g N))))
                             (toNumber (minorStr_of g)) in
                   if String.eqb (g_sign g) "-" then neg value else value)
                  (strict_scale g N) HL) as [[x Hx] | Hx]; [| exact Hx].
      exfalso. apply HR.
      destruct (parsed_construct _ _ _ M N _ x EM EN HM HN HL Hx)
        as [_ [Hs [Hc _]]].
      split; assumption.
  - intros x Hx. unfold parse in Hx.
    destruct (match_strict str) as [g |] eqn:Hm; [| discriminate].
    fold (parse str) in Hx.
    assert (Hx' : parse str = Ok x) by (unfold parse; rewrite Hm; exact Hx).
    clear Hx.
    destruct (parse_matched str g Hm) as [M [N [EM [HM [EN [HN E]]]]]].
    rewrite E in Hx'.
    destruct (parsed_construct _ _ _ M N _ x EM EN HM HN
                (strict_scale_nonneg g N) Hx') as [-> _].
    exists g, M, N. split; [apply match_strict_spec, Hm |].
    repeat (split; [assumption |]). reflexivity.
  - vm_compute. reflexivity.
  - vm_compute. reflexivity.
Qed.

Lemma parse_strict_grammar_witness :
  strict_grammar "-12.340" (mkGroups "-" "12" (Some "340"))
  /\ representable 12 34 2
  /\ parse "-12.340" = Ok (instance (-1234) 2).
Proof.
  assert (Hg : strict_grammar "-12.340" (mkGroups "-" "12" (Some "340"))).
  { apply (strict_decimal "-" "12" "340").
    - right. left. reflexivity.
    - split; [discriminate | reflexivity].
    - split; [discriminate | reflexivity]. }
  assert (HR : representable 12 34 2).
  { split; [solve_safe | intros H; discriminate H]. }
  split; [exact Hg |]. split; [exact HR |].
  destruct (proj1 (proj2 (parse_strict_grammar "-12.340")) _ Hg)
    as [M [N [EM [EN [Hacc _]]]]].
  vm_compute in EM. injection EM as <-.
  vm_compute in EN. injection EN as <-.
  exact (Hacc HR).
Defined.

(* ================================================================== *)
(** ** parseLax against parse *)
(* ================================================================== *)

Section Lax.

Lemma match_lax_of_strict (str : string) (g : groups) :
  match_strict str = Some g -> match_lax str = Some g.
Proof.
  unfold match_strict, match_lax.
  destruct (take_sign str) as [sg r].
  destruct (span_digits r) as [mj r1].
  destruct (is_empty mj); [discriminate |].
  destruct r1 as [| c r2]; [auto |].
  destruct (Ascii.eqb c "."); [| auto].
  destruct (span_digits r2) as [mn r3].
  destruct (is_empty mn); [discriminate |].
  destruct (is_empty r3); simpl; [auto | discriminate].
Qed.

Lemma equal_same (v s : Z) :
  safe v -> 0 <= s <= MAX_SAFE_INTEGER ->
  equal (instance v s) (instance v s) = true.
Proof.
  intros Hv Hs. unfold equal, unsafelyGetRelativeValue, instance.
  cbn [_value _scale]. rewrite gt_Int, Z.ltb_irrefl.
  rewrite sub_Int, Z.sub_diag, (round_safe 0) by solve_safe.
  rewrite (pow10_exact 0) by lia. rewrite mul_Int, Z.pow_0_r, Z.mul_1_r.
  rewrite round_safe by exact Hv. rewrite seq_Int. apply Z.eqb_refl.
Qed.

Lemma equal_widened (v L : Z) :
  safe v -> 0 <= L <= MAX_SAFE_INTEGER -> safe (v * 10 ^ L) ->
  (v = 0 -> L <= 308) ->
  equal (instance v 0) (instance (v * 10 ^ L) L) = true.
Proof.
  intros Hv HL Hs Hc. unfold equal, unsafelyGetRelativeValue, instance.
  cbn [_value _scale]. rewrite gt_Int.
  replace (L <? 0) with false by (symmetry; apply Z.ltb_ge; lia).
  rewrite sub_Int, Z.sub_0_r, (round_safe L) by solve_safe.
  destruct (widen_spec v L Hv ltac:(lia)) as [[_ [_ E]] | [[Hge _] | [Hz [Hk _]]]].
  - rewrite E, seq_Int. apply Z.eqb_refl.
  - unfold safe in Hs. rewrite MAX_SAFE_INTEGER_eq in Hs.
    change (2 ^ 54) with 18014398509481984 in Hge. lia.
  - specialize (Hc Hz). lia.
Qed.

(** Where [parse] accepts a string, [parseLax] gives an equal value at a
    scale at least as large, unless its constructor refuses the magnitude:
    for a string without fractional digits other than zeros, [parseLax]
    holds ten times the magnitude at scale 1. *)
Lemma parseLax_of_parse (str : string) (x : ScaledInteger) :
  parse str = Ok x ->
  parseLax str = Throw "unsafe integer value"
  \/ exists y sx sy,
       parseLax str = Ok y /\ _scale x = Int sx /\ _scale y = Int sy
       /\ sx <= sy /\ equal x y = true.
Proof.
  intros Hx.
  assert (Hm : exists g, match_strict str = Some g).
  { unfold parse in Hx. destruct (match_strict str) as [g |]; [eauto | discriminate]. }
  destruct Hm as [g Hm].
  destruct (parse_matched str g Hm) as [M [N [EM [HM [EN [HN E]]]]]].
  rewrite E in Hx.
  destruct (parsed_construct _ _ _ M N _ x EM EN HM HN
              (strict_scale_nonneg g N) Hx) as [-> [Hs [Hc Hl]]].
  set (L := Z.of_nat (String.length (minorStr_of g))).
  assert (HL : 0 <= L) by (unfold L; lia).
  assert (El : parseLax str
               = constructor
                   (let value :=
                      Num.add (mul (toNumber (majorStr_of g)) (pow10 (Int L)))
                              (toNumber (minorStr_of g)) in
                    if String.eqb (g_sign g) "-" then neg value else value)
                   (Int L)).
  { unfold parseLax. rewrite (match_lax_of_strict str g Hm). reflexivity. }
  destruct (constructor_cases
              (let value :=
                 Num.add (mul (toNumber (majorStr_of g)) (pow10 (Int L)))
                         (toNumber (minorStr_of g)) in
               if String.eqb (g_sign g) "-" then neg value else value) L HL)
    as [[y Hy] | Hy]; [| left; rewrite El; exact Hy].
  right. rewrite <- El in Hy.
  pose proof Hy as Hy'. rewrite El in Hy'.
  destruct (parsed_construct _ _ _ M N _ y EM EN HM HN HL Hy')
    as [-> [Hs' [Hc' Hl']]].
  exists (instance (if String.eqb (g_sign g) "-" then - (M * 10 ^ L + N)
                    else M * 10 ^ L + N) L), (strict_scale g N), L.
  split; [exact Hy |]. split; [reflexivity |]. split; [reflexivity |].
  unfold strict_scale in *. fold L in Hs, Hc, Hl |- *.
  destruct (Z.eqb_spec N 0) as [-> | HN0].
  - split; [lia |]. rewrite Z.pow_0_r, Z.mul_1_r, !Z.add_0_r in *.
    destruct (String.eqb (g_sign g) "-").
    + replace (- (M * 10 ^ L)) with (- M * 10 ^ L) by lia.
      apply equal_widened; unfold safe in *;
        rewrite ?Z.abs_opp, ?Z.mul_opp_l, ?Z.abs_opp; try assumption; lia.
    + apply equal_widened; try assumption; lia.
  - split; [lia |]. apply equal_same; [| lia].
    destruct (String.eqb (g_sign g) "-"); unfold safe in *;
      rewrite ?Z.abs_opp; assumption.
Qed.

End Lax.

(** C9.  [parseLax] is not a superset of [parse]: ["1000000000000000"]
    ([10^15]) is accepted by [parse] at scale 0, and refused by [parseLax],
    which takes the scale 1 for a string without fractional digits and so
    builds the magnitude [10^16], beyond the safe range. *)
Theorem parseLax_refuses_what_parse_accepts :
  parse "1000000000000000" = Ok (instance 1000000000000000 0)
  /\ parseLax "1000000000000000" = Throw "unsafe integer value"
  /\ parseLax "1" = Ok (instance 10 1).
Proof. repeat split; vm_compute; reflexivity. Qed.

(* ================================================================== *)
(** ** trimScale *)
(* ================================================================== *)

Section TrimScale.

(** A power of ten that divides a safe magnitude other than 0 is at most
    [10^15]. *)
Lemma pow10_divides_safe (v i : Z) :
  safe v -> v <> 0 -> 0 <= i -> v mod 10 ^ i = 0 -> i <= 15.
Proof.
  intros Hv Hnz Hi Hm.
  destruct (Z_le_gt_dec i 15) as [H | H]; [exact H | exfalso].
  pose proof (pow10_pos i Hi) as Hp.
  assert (Hbig : 10 ^ 16 <= 10 ^ i) by (apply Z.pow_le_mono_r; lia).
  change (10 ^ 16) with 10000000000000000 in Hbig.
  apply Z.div_exact in Hm; [| lia].
  unfold safe in Hv. rewrite MAX_SAFE_INTEGER_eq in Hv.
  assert (Hq : v / 10 ^ i <> 0) by (intros E; rewrite E in Hm; lia).
  assert (Habs : Z.abs v = 10 ^ i * Z.abs (v / 10 ^ i)).
  { rewrite Hm at 1. rewrite Z.abs_mul, (Z.abs_eq (10 ^ i)) by lia. reflexivity. }
  assert (1 <= Z.abs (v / 10 ^ i)) by lia. nia.
Qed.

(** The loop of [trimScale] on a valid instance ends, at a power of ten that
    divides the magnitude. *)
Lemma trimScale_loop_spec (v s : Z) :
  safe v -> 0 <= s ->
  forall (fuel : nat) (i : Z),
    0 <= i <= s -> (Z.to_nat (s - i) <= fuel)%nat -> v mod 10 ^ i = 0 ->
    exists j, trimScale_loop fuel (Int v) (Int s) i = Some j
              /\ i <= j <= s /\ v mod 10 ^ j = 0.
Proof.
  intros Hv Hs. induction fuel as [| fuel IH]; intros i Hi Hf Hm.
  - assert (i = s) by lia. subst i. cbn [trimScale_loop].
    rewrite lt_Int, Z.ltb_irrefl.
    exists s. repeat split; lia || assumption.
  - cbn [trimScale_loop]. rewrite lt_Int.
    destruct (Z.ltb_spec i s) as [Hlt | Hge];
      [| exists i; repeat split; lia || assumption].
    assert (Hstep : (seq (rem (Int v) (pow10 (Int (i + 1)))) (Int 0) = true
                     /\ v mod 10 ^ (i + 1) = 0)
                    \/ seq (rem (Int v) (pow10 (Int (i + 1)))) (Int 0) = false).
    { destruct (Z.eq_dec v 0) as [-> | Hnz].
      - left. split; [| apply Zmod_0_l].
        destruct (pow10_posnum (i + 1) ltac:(lia)) as [-> | [p [-> Hp]]];
          [reflexivity |].
        rewrite rem_Int by lia. rewrite Z.rem_0_l by lia. reflexivity.
      - pose proof (pow10_divides_safe v i Hv Hnz ltac:(lia) Hm) as H15.
        rewrite pow10_exact by lia.
        pose proof (pow10_pos (i + 1) ltac:(lia)) as Hp.
        rewrite rem_Int, seq_Int by lia.
        destruct (Z.eqb_spec (Z.rem v (10 ^ (i + 1))) 0) as [E | E];
          [left | right; reflexivity].
        split; [reflexivity |].
        apply Z.rem_divide in E; [| lia].
        apply Z.mod_divide; [lia | exact E]. }
    destruct Hstep as [[-> Hm'] | ->]; cbn [negb].
    + destruct (IH (i + 1) ltac:(lia) ltac:(lia) Hm') as [j [E [Hj Hmj]]].
      exists j. split; [exact E |]. split; [lia | exact Hmj].
    + exists i. repeat split; lia || assumption.
Qed.

(** [trimScale] on a valid instance: it ends, divides the magnitude by a
    power of ten that divides it, lowers the scale by as much, and keeps the
    invariant. *)
Lemma trimScale_spec (v s : Z) :
  safe v -> 0 <= s <= MAX_SAFE_INTEGER ->
  exists j, 0 <= j <= s /\ v mod 10 ^ j = 0
            /\ trimScale (instance v s) = Some (instance (v / 10 ^ j) (s - j))
            /\ invariant (instance (v / 10 ^ j) (s - j)) = true.
Proof.
  intros Hv Hs.
  destruct (trimScale_loop_spec v s Hv ltac:(lia) (Z.to_nat s) 0
              ltac:(lia) ltac:(lia) ltac:(apply Zmod_1_r))
    as [j [E [Hj Hm]]].
  exists j. split; [exact Hj |]. split; [exact Hm |].
  pose proof (pow10_pos j ltac:(lia)) as Hp.
  pose proof (div_abs_le v (10 ^ j) Hp Hm) as Hq.
  assert (Hsq : safe (v / 10 ^ j)) by (unfold safe in *; lia).
  split.
  - unfold trimScale, instance. cbn [_value _scale trimScale_fuel]. rewrite E.
    rewrite sub_Int, (round_safe (s - j)) by solve_safe.
    do 2 f_equal.
    destruct (Z.eq_dec v 0) as [-> | Hnz].
    + rewrite Zdiv_0_l.
      destruct (pow10_posnum j ltac:(lia)) as [-> | [p [-> Hpp]]];
        [reflexivity |].
      rewrite div_Int_exact by (try apply Zmod_0_l; lia).
      rewrite Zdiv_0_l. reflexivity.
    + pose proof (pow10_divides_safe v j Hv Hnz ltac:(lia) Hm) as H15.
      rewrite pow10_exact by lia.
      rewrite div_Int_exact by assumption.
      apply round_safe, Hsq.
  - apply invariant_instance. do 2 eexists. split; [reflexivity |].
    split; [exact Hsq | lia].
Qed.

End TrimScale.

(* ================================================================== *)
(** ** Signs: rounding is odd, and keeps the side of zero *)
(* ================================================================== *)

Section Signs.

Lemma bits_opp (m : Z) : bits (- m) = bits m.
Proof. unfold bits. rewrite Z.abs_opp. reflexivity. Qed.

Lemma ltb_opp (m : Z) : m <> 0 -> (- m <? 0) = negb (m <? 0).
Proof.
  intros H. destruct (Z.ltb_spec (- m) 0), (Z.ltb_spec m 0); simpl; lia || reflexivity.
Qed.

Lemma fits_opp (m e : Z) : 0 <= e -> fits (- m) e = neg (fits m e).
Proof.
  intros He. unfold fits. rewrite bits_opp.
  destruct (Z.eqb_spec m 0) as [-> | Hm]; [reflexivity |].
  destruct (Z.eqb_spec (- m) 0); [lia |].
  destruct (emax <? bits m + e).
  - simpl. rewrite ltb_opp by exact Hm. reflexivity.
  - unfold mk.
    destruct (Z.eqb_spec m 0); [contradiction |].
    destruct (Z.eqb_spec (- m) 0); [lia |].
    replace (0 <=? e) with true by (symmetry; apply Z.leb_le; exact He).
    simpl. f_equal. lia.
Qed.

Lemma round_opp (z : Z) : round (- z) 0 = neg (round z 0).
Proof.
  unfold round. rewrite bits_opp, Z.abs_opp.
  destruct (Z.eqb_spec z 0) as [-> | Hz]; [reflexivity |].
  destruct (Z.eqb_spec (- z) 0); [lia |].
  set (sh := Z.max (bits z - prec) (emin - 0)).
  destruct (Z.leb_spec sh 0) as [Hsh | Hsh].
  - apply fits_opp. lia.
  - rewrite Z.sgn_opp, Z.mul_opp_l. apply fits_opp. lia.
Qed.

(** From [2^n] on, rounding stays at [2^n] or above, on the side of [z]. *)
Lemma round_far (n z : Z) :
  53 <= n -> 2 ^ n <= Z.abs z ->
  round z 0 = Inf (z <? 0) \/
  (exists w, round z 0 = Int w /\ 2 ^ n <= Z.abs w
             /\ (0 < z -> 0 < w) /\ (z < 0 -> w < 0)).
Proof.
  intros Hn Hz.
  assert (Hpn : 0 < 2 ^ n) by (apply Z.pow_pos_nonneg; lia).
  destruct (Z_lt_le_dec z 0) as [Hneg | Hpos].
  - assert (Hz' : 2 ^ n <= Z.abs (- z)) by (rewrite Z.abs_opp; exact Hz).
    assert (E0 : round z 0 = neg (round (- z) 0))
      by (rewrite <- round_opp; f_equal; lia).
    rewrite E0.
    destruct (round_ge_sign n (- z) Hn Hz') as [E | [w [E [Hw Hp]]]].
    + left. rewrite E. simpl.
      replace (- z <? 0) with false by (symmetry; apply Z.ltb_ge; lia).
      replace (z <? 0) with true by (symmetry; apply Z.ltb_lt; lia).
      reflexivity.
    + right. exists (- w). rewrite E. split; [reflexivity |].
      rewrite Z.abs_opp. split; [exact Hw |].
      specialize (Hp ltac:(lia)). split; lia.
  - destruct (round_ge_sign n z Hn Hz) as [E | [w [E [Hw Hp]]]].
    + left. exact E.
    + right. exists w. split; [exact E |]. split; [exact Hw |]. split; [exact Hp | lia].
Qed.

(** [v * 10 ** k] with its sign. *)
Lemma widen_sign (v k : Z) :
  safe v -> 0 <= k -> (v = 0 -> k <= 308) ->
  let r := mul (Int v) (pow10 (Int k)) in
  (Z.abs (v * 10 ^ k) < 2 ^ 54 /\ r = Int (v * 10 ^ k))
  \/ (2 ^ 54 <= Z.abs (v * 10 ^ k) /\ far_like v r).
Proof.
  intros Hv Hk Hc r.
  pose proof Hv as Hv'. unfold safe in Hv'. rewrite MAX_SAFE_INTEGER_eq in Hv'.
  destruct (widen_spec v k Hv Hk) as [[Hlt [_ E]] | [[Hge _] | [Hz [Hk' _]]]].
  - left. split; assumption.
  - right. split; [exact Hge |].
    assert (Hnz : v <> 0).
    { intros ->. rewrite Z.mul_0_l in Hge. simpl in Hge.
      change (2 ^ 54) with 18014398509481984 in Hge. lia. }
    assert (Hsign : forall p, 0 < p ->
              ((v * p <? 0) = (v <? 0))
              /\ ((0 < v * p -> 0 < v) /\ (v * p < 0 -> v < 0))).
    { intros p Hp. split; [| split; nia].
      destruct (Z.ltb_spec (v * p) 0), (Z.ltb_spec v 0); try reflexivity; nia. }
    unfold far_like, r.
    destruct (Z_le_gt_dec k 22) as [H22 | H22].
    + rewrite pow10_exact by lia. rewrite mul_Int.
      destruct (Hsign (10 ^ k) (pow10_pos k Hk)) as [Hs [Hs1 Hs2]].
      destruct (round_far 54 (v * 10 ^ k) ltac:(lia) Hge)
        as [E | [w [E [Hw [Hp Hn]]]]].
      * left. rewrite E, Hs. reflexivity.
      * right. exists w. split; [exact E |]. split; [exact Hw |].
        pose proof (pow10_pos k Hk). split; intros; [apply Hp | apply Hn]; nia.
    + destruct (Z_le_gt_dec k 308) as [Hle | Hgt].
      * destruct (pow10_finite k ltac:(lia)) as [p [-> Hp]].
        rewrite mul_Int.
        assert (Hp0 : 0 < p) by (change (2 ^ 54) with 18014398509481984 in Hp; lia).
        destruct (Hsign p Hp0) as [Hs _].
        destruct (round_far 54 (v * p) ltac:(lia) ltac:(apply abs_mul_ge; lia))
          as [E | [w [E [Hw [Hpp Hn]]]]].
        -- left. rewrite E, Hs. reflexivity.
        -- right. exists w. split; [exact E |]. split; [exact Hw |].
           split; intros; [apply Hpp | apply Hn]; nia.
      * rewrite pow10_infinite by lia. left. simpl.
        destruct (Z.eqb_spec v 0); [contradiction |].
        rewrite xorb_false_r. reflexivity.
  - specialize (Hc Hz). lia.
Qed.

(** A widened magnitude against a magnitude: the three comparisons are
    those of the integers. *)
Lemma widened_compare (v k w : Z) :
  safe v -> safe w -> 0 <= k -> (v = 0 -> k <= 308) ->
  let r := mul (Int v) (pow10 (Int k)) in
  lt r (Int w) = (v * 10 ^ k <? w)
  /\ lt (Int w) r = (w <? v * 10 ^ k)
  /\ seq r (Int w) = (v * 10 ^ k =? w)
  /\ seq (Int w) r = (w =? v * 10 ^ k).
Proof.
  intros Hv Hw Hk Hc r.
  pose proof Hw as Hw'. unfold safe in Hw'. rewrite MAX_SAFE_INTEGER_eq in Hw'.
  destruct (widen_sign v k Hv Hk Hc) as [[_ E] | [Hge F]]; fold r in E || fold r in F.
  - rewrite E, !lt_Int, !seq_Int. repeat split.
  - change (2 ^ 54) with 18014398509481984 in Hge.
    assert (Hnz : v <> 0) by (intros ->; rewrite Z.mul_0_l in Hge; simpl in Hge; lia).
    pose proof (pow10_pos k Hk) as Hp.
    assert (Hcases : (0 < v /\ w < v * 10 ^ k) \/ (v < 0 /\ v * 10 ^ k < w)).
    { destruct (Z_lt_le_dec v 0); [right | left]; (split; [lia |]);
        [assert (v * 10 ^ k < 0) by nia | assert (0 < v * 10 ^ k) by nia]; lia. }
    destruct F as [-> | [u [-> [Hu [Hpos Hneg]]]]].
    + destruct Hcases as [[H1 H2] | [H1 H2]].
      * replace (v <? 0) with false by (symmetry; apply Z.ltb_ge; lia).
        simpl. repeat split; symmetry;
          apply Z.ltb_ge || apply Z.ltb_lt || apply Z.eqb_neq; lia.
      * replace (v <? 0) with true by (symmetry; apply Z.ltb_lt; lia).
        simpl. repeat split; symmetry;
          apply Z.ltb_ge || apply Z.ltb_lt || apply Z.eqb_neq; lia.
    + change (2 ^ 54) with 18014398509481984 in Hu.
      rewrite !lt_Int, !seq_Int.
      destruct Hcases as [[H1 H2] | [H1 H2]].
      * specialize (Hpos H1).
        repeat split;
          [ transitivity false | transitivity true
          | transitivity false | transitivity false ];
          try (apply Z.ltb_ge; lia); try (apply Z.ltb_lt; lia);
          try (apply Z.eqb_neq; lia);
          symmetry;
          try (apply Z.ltb_ge; lia); try (apply Z.ltb_lt; lia);
          try (apply Z.eqb_neq; lia).
      * specialize (Hneg H1).
        repeat split;
          [ transitivity true | transitivity false
          | transitivity false | transitivity false ];
          try (apply Z.ltb_ge; lia); try (apply Z.ltb_lt; lia);
          try (apply Z.eqb_neq; lia);
          symmetry;
          try (apply Z.ltb_ge; lia); try (apply Z.ltb_lt; lia);
          try (apply Z.eqb_neq; lia).
Qed.

End Signs.

(* ================================================================== *)
(** ** equal and compare *)
(* ================================================================== *)

Section Comparisons.

Lemma seq_not_lt (x y : number) : seq x y = true -> lt x y = false.
Proof.
  destruct x as [a | m e | s |], y as [b | m' e' | t |]; simpl;
    try discriminate; try reflexivity;
    try (destruct (_ ?= _); discriminate || reflexivity).
  destruct s, t; simpl; discriminate || reflexivity.
Qed.

Lemma order_code_tests (x y : Z) :
  (if x <? y then -1 else if x =? y then 0 else 1) = order_code (x ?= y).
Proof.
  destruct (Z.compare_spec x y), (Z.ltb_spec x y), (Z.eqb_spec x y);
    try reflexivity; lia.
Qed.

Lemma order_code_flip (x y : Z) :
  (if y <? x then -1 else if y =? x then 0 else 1) = order_code (y ?= x).
Proof. apply order_code_tests. Qed.

Lemma decimal_compare (va sa vb sb : Z) :
  0 <= sa -> 0 <= sb ->
  (decimal va sa ?= decimal vb sb)%Q = (va * 10 ^ sb ?= vb * 10 ^ sa).
Proof.
  intros Hsa Hsb.
  pose proof (pow10_pos sa Hsa) as Pa. pose proof (pow10_pos sb Hsb) as Pb.
  unfold decimal, Qcompare, Qdiv, Qmult, Qinv, inject_Z. simpl Qnum. simpl Qden.
  destruct (10 ^ sa) as [| pa | pa]; try lia.
  destruct (10 ^ sb) as [| pb | pb]; try lia.
  simpl Qnum. simpl Qden.
  rewrite !Z.mul_1_r. reflexivity.
Qed.

Lemma widened_compare_decimal (va sa vb sb : Z) :
  0 <= sa -> 0 <= sb ->
  (widened_l va sa sb ?= widened_r vb sa sb)
  = (decimal va sa ?= decimal vb sb)%Q.
Proof.
  intros Hsa Hsb. rewrite decimal_compare by assumption.
  unfold widened_l, widened_r.
  set (S := Z.max sa sb).
  pose proof (pow10_pos (sa + sb - S) ltac:(unfold S; lia)) as Hp.
  rewrite (Zmult_compare_compat_r _ _ (10 ^ (sa + sb - S))) by lia.
  rewrite <- !Z.mul_assoc, <- !Z.pow_add_r by (unfold S; lia).
  replace (S - sa + (sa + sb - S)) with sb by lia.
  replace (S - sb + (sa + sb - S)) with sa by lia.
  reflexivity.
Qed.

Variables va sa vb sb : Z.
Hypothesis Hva : safe va.
Hypothesis Hsa : 0 <= sa <= MAX_SAFE_INTEGER.
Hypothesis Hvb : safe vb.
Hypothesis Hsb : 0 <= sb <= MAX_SAFE_INTEGER.
Hypothesis Hcorner : nan_corner va sa vb sb = false.

(** [equal] and [compare] see the two magnitudes at the larger scale. *)
Lemma equal_compare_widened :
  equal (instance va sa) (instance vb sb)
  = (widened_l va sa sb =? widened_r vb sa sb)
  /\ compare (instance va sa) (instance vb sb)
     = order_code (widened_l va sa sb ?= widened_r vb sa sb).
Proof.
  unfold equal, compare, unsafelyGetRelativeValue, instance, widened_l, widened_r.
  cbn [_value _scale]. rewrite gt_Int.
  unfold nan_corner in Hcorner.
  destruct (Z.ltb_spec sb sa) as [Hlt | Hge].
  - replace (sa <? sb) with false in Hcorner by (symmetry; apply Z.ltb_ge; lia).
    rewrite (sub_scale' sa sb Hsa Hsb).
    rewrite Z.max_l by lia. replace (sa - sa) with 0 by lia.
    rewrite Z.pow_0_r, Z.mul_1_r.
    assert (Hc : vb = 0 -> sa - sb <= 308).
    { intros ->. simpl in Hcorner. apply Z.ltb_ge in Hcorner. exact Hcorner. }
    destruct (widened_compare vb (sa - sb) va Hvb Hva ltac:(lia) Hc)
      as [_ [E2 [_ E4]]].
    rewrite E2, E4. split; [reflexivity | apply order_code_tests].
  - rewrite (sub_scale sa sb Hsa Hsb).
    rewrite Z.max_r by lia. replace (sb - sb) with 0 by lia.
    rewrite Z.pow_0_r, Z.mul_1_r.
    assert (Hc : va = 0 -> sb - sa <= 308).
    { intros ->. destruct (Z.ltb_spec sa sb).
      - simpl in Hcorner. apply Z.ltb_ge in Hcorner. exact Hcorner.
      - lia. }
    destruct (widened_compare va (sb - sa) vb Hva Hvb ltac:(lia) Hc)
      as [E1 [_ [E3 _]]].
    rewrite E1, E3. split; [reflexivity | apply order_code_tests].
Qed.

Lemma compare_decimal :
  compare (instance va sa) (instance vb sb)
  = order_code (decimal va sa ?= decimal vb sb)%Q.
Proof.
  rewrite <- widened_compare_decimal by lia. apply equal_compare_widened.
Qed.

Lemma equal_decimal :
  equal (instance va sa) (instance vb sb) = true
  <-> decimal va sa == decimal vb sb.
Proof.
  rewrite (proj1 equal_compare_widened), Z.eqb_eq, Qeq_alt.
  rewrite <- widened_compare_decimal by lia. symmetry. apply Z.compare_eq_iff.
Qed.

End Comparisons.

(* ================================================================== *)
(** ** Further properties: comparisons *)
(* ================================================================== *)

(** [compare] orders two instances as their decimal values are ordered:
    [-1], [0] or [1] as [a] is below, at or above [b] (unless the scales
    are more than 308 apart and the operand of smaller scale is 0). *)
Theorem compare_orders_decimal_values (va sa vb sb : Z) :
  safe va -> 0 <= sa <= MAX_SAFE_INTEGER ->
  safe vb -> 0 <= sb <= MAX_SAFE_INTEGER ->
  nan_corner va sa vb sb = false ->
  compare (instance va sa) (instance vb sb)
  = order_code (decimal va sa ?= decimal vb sb)%Q.
Proof. intros. apply compare_decimal; assumption. Qed.

Lemma compare_orders_decimal_values_witness :
  safe 101 /\ 0 <= 2 <= MAX_SAFE_INTEGER
  /\ safe 1000 /\ 0 <= 0 <= MAX_SAFE_INTEGER
  /\ nan_corner 101 2 1000 0 = false
  /\ compare (instance 101 2) (instance 1000 0)
     = order_code (decimal 101 2 ?= decimal 1000 0)%Q.
Proof.
  assert (H1 : safe 101) by solve_safe.
  assert (H2 : 0 <= 2 <= MAX_SAFE_INTEGER) by solve_safe.
  assert (H3 : safe 1000) by solve_safe.
  assert (H4 : 0 <= 0 <= MAX_SAFE_INTEGER) by solve_safe.
  assert (H5 : nan_corner 101 2 1000 0 = false) by reflexivity.
  repeat (split; [assumption |]).
  exact (compare_orders_decimal_values 101 2 1000 0 H1 H2 H3 H4 H5).
Defined.

(** [equal] holds exactly when the two decimal values are the same
    rational, whatever the two scales (with the same exception). *)
Theorem equal_iff_same_decimal_value (va sa vb sb : Z) :
  safe va -> 0 <= sa <= MAX_SAFE_INTEGER ->
  safe vb -> 0 <= sb <= MAX_SAFE_INTEGER ->
  nan_corner va sa vb sb = false ->
  (equal (instance va sa) (instance vb sb) = true
   <-> decimal va sa == decimal vb sb).
Proof. intros. apply equal_decimal; assumption. Qed.

Lemma equal_iff_same_decimal_value_witness :
  safe 110 /\ 0 <= 2 <= MAX_SAFE_INTEGER
  /\ safe 11 /\ 0 <= 1 <= MAX_SAFE_INTEGER
  /\ nan_corner 110 2 11 1 = false
  /\ (equal (instance 110 2) (instance 11 1) = true
      <-> decimal 110 2 == decimal 11 1).
Proof.
  assert (H1 : safe 110) by solve_safe.
  assert (H2 : 0 <= 2 <= MAX_SAFE_INTEGER) by solve_safe.
  assert (H3 : safe 11) by solve_safe.
  assert (H4 : 0 <= 1 <= MAX_SAFE_INTEGER) by solve_safe.
  assert (H5 : nan_corner 110 2 11 1 = false) by reflexivity.
  repeat (split; [assumption |]).
  exact (equal_iff_same_decimal_value 110 2 11 1 H1 H2 H3 H4 H5).
Defined.

(** On every pair of objects the six comparisons agree with one another:
    [equal] is [compare === 0], [lessThanOrEqual] is the negation of
    [greaterThan] and [greaterThanOrEqual] that of [lessThan], and
    [compare] returns [-1], [0] or [1]. *)
Theorem comparisons_agree (a b : ScaledInteger) :
  equal a b = (compare a b =? 0)
  /\ lessThanOrEqual a b = negb (greaterThan a b)
  /\ greaterThanOrEqual a b = negb (lessThan a b)
  /\ lessThanOrEqual a b = lessThan a b || equal a b
  /\ (compare a b = -1 \/ compare a b = 0 \/ compare a b = 1).
Proof.
  unfold lessThanOrEqual, greaterThanOrEqual, greaterThan, lessThan.
  assert (E : equal a b = (compare a b =? 0)).
  { unfold equal, compare. destruct (gt (_scale a) (_scale b)); cbv zeta.
    - destruct (seq (_value a) _) eqn:S.
      + rewrite (seq_not_lt _ _ S). reflexivity.
      + destruct (lt (_value a) _); reflexivity.
    - destruct (seq _ (_value b)) eqn:S.
      + rewrite (seq_not_lt _ _ S). reflexivity.
      + destruct (lt _ (_value b)); reflexivity. }
  assert (T : compare a b = -1 \/ compare a b = 0 \/ compare a b = 1).
  { unfold compare. destruct (gt (_scale a) (_scale b)); cbv zeta;
      destruct (lt _ _); auto; destruct (seq _ _); auto. }
  rewrite E. cbv zeta.
  destruct T as [-> | [-> | ->]]; repeat split; auto.
Qed.

(** Two zeros whose scales are more than 308 apart are not [equal], in
    either order, and [compare] puts the one of smaller scale above: the
    power of ten is [Infinity] and [0 * Infinity] is [NaN]. *)
Theorem zeros_far_apart_are_unequal (s t : Z) :
  0 <= s -> t <= MAX_SAFE_INTEGER -> 308 < t - s ->
  equal (instance 0 s) (instance 0 t) = false
  /\ equal (instance 0 t) (instance 0 s) = false
  /\ compare (instance 0 s) (instance 0 t) = 1.
Proof.
  intros Hs Ht Hgap.
  unfold equal, compare, unsafelyGetRelativeValue, instance.
  cbn [_value _scale]. rewrite !gt_Int.
  replace (t <? s) with false by (symmetry; apply Z.ltb_ge; lia).
  replace (s <? t) with true by (symmetry; apply Z.ltb_lt; lia).
  rewrite sub_Int, (round_safe (t - s)) by solve_safe.
  rewrite pow10_infinite by lia.
  repeat split.
Qed.

Lemma zeros_far_apart_are_unequal_witness :
  0 <= 0 /\ 309 <= MAX_SAFE_INTEGER /\ 308 < 309 - 0
  /\ equal (instance 0 0) (instance 0 309) = false
  /\ equal (instance 0 309) (instance 0 0) = false
  /\ compare (instance 0 0) (instance 0 309) = 1.
Proof.
  assert (H1 : 0 <= 0) by lia.
  assert (H2 : 309 <= MAX_SAFE_INTEGER) by solve_safe.
  assert (H3 : 308 < 309 - 0) by lia.
  repeat (split; [assumption |]).
  exact (zeros_far_apart_are_unequal 0 309 H1 H2 H3).
Defined.

(* ================================================================== *)
(** ** Further properties: the serialized form and clone *)
(* ================================================================== *)

(** [deserialize(x.toJSON())] and [x.clone()] give [x] back when [x]
    satisfies the invariant, and throw when it does not (an object left
    with an unsafe magnitude by [increaseScale] cannot be cloned); what
    [deserialize] returns satisfies the invariant and serializes to the
    record it came from. *)
Theorem deserialize_toJSON_roundtrip (x : ScaledInteger) :
  (if invariant x
   then deserialize (Json.value (toJSON x)) (Json.scale (toJSON x)) = Ok x
        /\ clone x = Ok x
   else is_ok (deserialize (Json.value (toJSON x)) (Json.scale (toJSON x)))
        = false
        /\ is_ok (clone x) = false)
  /\ (forall value scale : number,
        match deserialize value scale with
        | Ok y => toJSON y = Json.mk value scale /\ invariant y = true
        | Throw _ => True
        end).
Proof.
  split.
  - unfold deserialize, clone, toJSON. cbn [Json.value Json.scale].
    destruct (invariant x) eqn:I.
    + rewrite (constructor_ok x I). split; reflexivity.
    + destruct (constructor (_value x) (_scale x)) as [y |] eqn:E;
        [| split; reflexivity].
      pose proof (constructor_invariant _ _ _ E) as Hy.
      apply constructor_inv in E. destruct E as [-> _].
      destruct x. cbn in *. congruence.
  - intros value scale. unfold deserialize.
    destruct (constructor value scale) as [y |] eqn:E; [| exact I].
    split; [| apply (constructor_invariant _ _ _ E)].
    apply constructor_inv in E. destruct E as [-> _]. reflexivity.
Qed.

(* ================================================================== *)
(** ** Further properties: util.ts *)
(* ================================================================== *)

Section Trim.

Lemma char_is_single (a c : ascii) : char_is a (String c "") = Ascii.eqb a c.
Proof.
  unfold char_is. simpl. destruct (Ascii.eqb a c); reflexivity.
Qed.

Lemma char_is_other (a : ascii) (char : string) :
  String.length char <> 1%nat -> char_is a char = false.
Proof.
  unfold char_is. destruct char as [| b [| b' r]]; simpl; intros H.
  - reflexivity.
  - contradiction.
  - destruct (Ascii.eqb a b); reflexivity.
Qed.

Lemma length_repeat_char (c : ascii) (n : nat) :
  String.length (repeat_char c n) = n.
Proof. induction n; simpl; congruence. Qed.

Lemma length_app (a b : string) :
  String.length (a ++ b) = (String.length a + String.length b)%nat.
Proof. induction a; simpl; congruence. Qed.

Lemma app_empty_r (a : string) : a ++ "" = a.
Proof. induction a; simpl; congruence. Qed.

Lemma slice_to_app (pre rest : string) :
  slice_to (String.length pre) (pre ++ rest) = pre.
Proof. induction pre; simpl; [destruct rest; reflexivity | congruence]. Qed.

Lemma slice_from_0 (str : string) : slice_from 0 str = str.
Proof. destruct str; reflexivity. Qed.

Lemma trimStart_index_spec (c : ascii) (str : string) :
  let n := trimStart_index str (String c "") in
  str = repeat_char c n ++ slice_from n str
  /\ not_starting_with c (slice_from n str).
Proof.
  induction str as [| a r IH]; cbn [trimStart_index].
  - split; [reflexivity | intros r H; discriminate H].
  - rewrite char_is_single. destruct (Ascii.eqb_spec a c) as [-> | Hne].
    + destruct IH as [IH1 IH2]. cbn [repeat_char slice_from append].
      split; [f_equal; exact IH1 | exact IH2].
    + split; [reflexivity |]. intros r' H. injection H as H _. contradiction.
Qed.

(** all the characters of [repeat_char c n] at the end of a string come
    after a prefix that does not end with [c] *)
Lemma trimEnd_count_spec (c : ascii) (str : string) :
  exists pre,
    str = pre ++ repeat_char c (trimEnd_count str (String c ""))
    /\ not_ending_with c pre.
Proof.
  induction str as [| a r IH]; cbn [trimEnd_count].
  - exists "". split; [reflexivity |].
    intros r H. destruct r; discriminate H.
  - destruct IH as [pre [E Hpre]]. rewrite char_is_single.
    set (n := trimEnd_count r (String c "")) in *.
    destruct (Nat.eqb_spec n (String.length r)) as [Hn | Hn].
    + (* the rest is all [c] *)
      assert (Hp : pre = "").
      { assert (L : String.length r = (String.length pre + n)%nat)
          by (rewrite E at 1; rewrite length_app, length_repeat_char; reflexivity).
        destruct pre; [reflexivity | simpl in L; lia]. }
      subst pre. simpl in E.
      destruct (Ascii.eqb_spec a c) as [-> | Hne]; cbn [andb].
      * exists "". split; [simpl; f_equal; exact E |].
        intros r' H. destruct r'; discriminate H.
      * exists (String a ""). split; [simpl; f_equal; exact E |].
        intros r' H. destruct r' as [| a' r'']; simpl in H.
        -- injection H as H. contradiction.
        -- injection H as _ H. destruct r''; discriminate H.
    + cbn [andb]. exists (String a pre). split; [simpl; f_equal; exact E |].
      intros r' H. destruct r' as [| a' r'']; simpl in H.
      * injection H as _ H. subst pre. simpl in E. apply Hn.
        apply (f_equal String.length) in E.
        rewrite length_repeat_char in E. symmetry. exact E.
      * injection H as _ H. apply (Hpre r''). exact H.
Qed.

End Trim.

(** [trimStart(str, c)] for a character [c] removes the leading run of [c]
    and nothing else: [str] is that run followed by the result, and the
    result does not begin with [c]. *)
Theorem trimStart_strips_leading_run (str : string) (c : ascii) :
  exists n,
    str = repeat_char c n ++ trimStart str (String c "")
    /\ not_starting_with c (trimStart str (String c "")).
Proof.
  exists (trimStart_index str (String c "")).
  destruct (trimStart_index_spec c str) as [E H].
  unfold trimStart. destruct (trimStart_index str (String c "")) as [| n].
  - simpl. rewrite slice_from_0 in E, H. split; assumption.
  - split; assumption.
Qed.

Lemma trimEnd_result (str : string) (c : ascii) :
  exists n,
    str = trimEnd str (String c "") ++ repeat_char c n
    /\ not_ending_with c (trimEnd str (String c "")).
Proof.
  exists (trimEnd_count str (String c "")).
  destruct (trimEnd_count_spec c str) as [pre [E H]].
  unfold trimEnd. set (n := trimEnd_count str (String c "")) in *.
  destruct n as [| n].
  - simpl in *. rewrite app_empty_r in *. subst pre. split; [reflexivity | exact H].
  - replace (0 <? S n)%nat with true by reflexivity.
    assert (L : (String.length str - S n)%nat = String.length pre).
    { rewrite E at 1. rewrite length_app, length_repeat_char. lia. }
    rewrite L.
    assert (Hs : slice_to (String.length pre) str = pre)
      by (rewrite E; apply slice_to_app).
    rewrite Hs. split; [exact E | exact H].
Qed.

(** [trimEnd(str, c)] for a character [c] removes the trailing run of [c]
    and nothing else: [str] is the result followed by that run, and the
    result does not end with [c]. *)
Theorem trimEnd_strips_trailing_run (str : string) (c : ascii) :
  exists n,
    str = trimEnd str (String c "") ++ repeat_char c n
    /\ not_ending_with c (trimEnd str (String c "")).
Proof. apply trimEnd_result. Qed.

(** With a [char] argument that is not one character long, [trimStart] and
    [trimEnd] return the string as it is. *)
Theorem trim_ignores_longer_char (str char : string) :
  String.length char <> 1%nat ->
  trimStart str char = str /\ trimEnd str char = str.
Proof.
  intros H. split.
  - unfold trimStart. destruct str as [| a r]; [reflexivity |].
    cbn [trimStart_index]. rewrite (char_is_other a char H). reflexivity.
  - unfold trimEnd.
    assert (E : trimEnd_count str char = 0%nat).
    { induction str as [| a r IH]; [reflexivity |].
      cbn [trimEnd_count]. rewrite IH, (char_is_other a char H), andb_false_r.
      reflexivity. }
    rewrite E. reflexivity.
Qed.

Lemma trim_ignores_longer_char_witness :
  String.length "00" <> 1%nat
  /\ trimStart "0012300" "00" = "0012300" /\ trimEnd "0012300" "00" = "0012300".
Proof.
  assert (H : String.length "00" <> 1%nat) by (simpl; lia).
  split; [exact H |].
  exact (trim_ignores_longer_char "0012300" "00" H).
Defined.

(* ================================================================== *)
(** ** Further properties: units *)
(* ================================================================== *)

Section Units.

Lemma quot_of_trunc (v b : Z) : 0 < b -> (v - Z.rem v b) / b = Z.quot v b.
Proof.
  intros Hb. pose proof (Z.quot_rem' v b) as E.
  replace (v - Z.rem v b) with (Z.quot v b * b) by lia.
  apply Z_div_mult. lia.
Qed.

Lemma quot_small_abs (v b : Z) : Z.abs v < b -> Z.quot v b = 0.
Proof.
  intros H. destruct (Z_le_gt_dec 0 v) as [Hv | Hv].
  - apply Z.quot_small. lia.
  - replace v with (- (- v)) by lia.
    rewrite Z.quot_opp_l by lia. rewrite Z.quot_small by lia. reflexivity.
Qed.

(** [_value % 10 ** _scale] and [(_value - minor) / 10 ** _scale] on a
    valid instance, whatever the scale. *)
Lemma units_numbers (v s : Z) :
  safe v -> 0 <= s ->
  rem (Int v) (pow10 (Int s)) = Int (Z.rem v (10 ^ s))
  /\ div (sub (Int v) (Int (Z.rem v (10 ^ s)))) (pow10 (Int s))
     = Int (Z.quot v (10 ^ s)).
Proof.
  intros Hv Hs.
  pose proof Hv as Hv'. unfold safe in Hv'. rewrite MAX_SAFE_INTEGER_eq in Hv'.
  pose proof (pow10_pos s Hs) as Hp.
  destruct (Z_le_gt_dec s 22) as [H22 | H22].
  - rewrite pow10_exact by lia.
    destruct (rem_trunc v (10 ^ s) Hp) as [Hle Hmod].
    rewrite rem_Int by lia. split; [reflexivity |].
    rewrite sub_Int, (round_safe (v - Z.rem v (10 ^ s))) by solve_safe.
    rewrite div_Int_exact by assumption.
    pose proof (div_abs_le _ _ Hp Hmod) as Hq.
    rewrite round_safe by solve_safe.
    f_equal. apply quot_of_trunc, Hp.
  - assert (Hbig : 2 ^ 54 <= 10 ^ s).
    { apply Z.le_trans with (10 ^ 23); [vm_compute; discriminate |].
      apply Z.pow_le_mono_r; lia. }
    change (2 ^ 54) with 18014398509481984 in Hbig.
    rewrite (rem_small_abs v (10 ^ s)) by lia.
    rewrite (quot_small_abs v (10 ^ s)) by lia.
    rewrite sub_Int, Z.sub_diag, (round_safe 0) by solve_safe.
    destruct (Z_le_gt_dec s 308) as [Hle | Hgt].
    + destruct (pow10_finite s ltac:(lia)) as [p [-> Hpp]].
      change (2 ^ 54) with 18014398509481984 in Hpp.
      rewrite rem_Int by lia. rewrite (rem_small_abs v p) by lia.
      split; [reflexivity |].
      rewrite div_Int_exact by (try apply Zmod_0_l; lia).
      rewrite Zdiv_0_l. apply round_safe. solve_safe.
    + rewrite pow10_infinite by lia. split; reflexivity.
Qed.

Lemma rem_zero_iff_mod (v b : Z) : 0 < b -> (Z.rem v b = 0 <-> v mod b = 0).
Proof.
  intros Hb. rewrite Z.rem_divide, Z.mod_divide by lia. reflexivity.
Qed.

End Units.

(** [toUnits] of a valid instance is the integer part of the decimal value,
    cut toward zero, and the digits after the point as a magnitude without
    sign: [magnitude = major * 10^scale + sign * minor]. *)
Theorem toUnits_integer_and_fraction (v s : Z) :
  safe v -> 0 <= s <= MAX_SAFE_INTEGER ->
  toUnits (instance v s)
  = (Int (Z.quot v (10 ^ s)), Int (Z.abs (Z.rem v (10 ^ s))))
  /\ v = Z.quot v (10 ^ s) * 10 ^ s + Z.sgn v * Z.abs (Z.rem v (10 ^ s))
  /\ Z.abs (Z.rem v (10 ^ s)) < 10 ^ s.
Proof.
  intros Hv Hs.
  destruct (units_numbers v s Hv ltac:(lia)) as [E1 E2].
  pose proof (pow10_pos s ltac:(lia)) as Hp.
  split; [| split].
  - unfold toUnits, instance. cbn [_value _scale]. rewrite E1, E2. reflexivity.
  - pose proof (Z.quot_rem' v (10 ^ s)) as E.
    assert (Hsg : Z.sgn v * Z.abs (Z.rem v (10 ^ s)) = Z.rem v (10 ^ s)).
    { destruct (Z_le_gt_dec 0 v) as [H | H].
      - pose proof (Z.rem_bound_pos v (10 ^ s) H Hp).
        destruct (Z.eq_dec v 0) as [-> | Hnz].
        + rewrite Z.rem_0_l by lia. reflexivity.
        + rewrite Z.sgn_pos, Z.abs_eq by lia. lia.
      - assert (Er : Z.rem v (10 ^ s) = - Z.rem (- v) (10 ^ s))
          by (rewrite Z.rem_opp_l by lia; lia).
        pose proof (Z.rem_bound_pos (- v) (10 ^ s) ltac:(lia) Hp).
        rewrite Z.sgn_neg by lia. rewrite Er, Z.abs_opp, Z.abs_eq by lia. lia. }
    rewrite Hsg. lia.
  - destruct (Z_le_gt_dec 0 v) as [H | H].
    + pose proof (Z.rem_bound_pos v (10 ^ s) H Hp). lia.
    + assert (Er : Z.rem v (10 ^ s) = - Z.rem (- v) (10 ^ s))
        by (rewrite Z.rem_opp_l by lia; lia).
      pose proof (Z.rem_bound_pos (- v) (10 ^ s) ltac:(lia) Hp). lia.
Qed.

Lemma toUnits_integer_and_fraction_witness :
  safe (-123456) /\ 0 <= 3 <= MAX_SAFE_INTEGER
  /\ toUnits (instance (-123456) 3) = (Int (-123), Int 456).
Proof.
  assert (H1 : safe (-123456)) by solve_safe.
  assert (H2 : 0 <= 3 <= MAX_SAFE_INTEGER) by solve_safe.
  repeat (split; [assumption |]).
  exact (proj1 (toUnits_integer_and_fraction (-123456) 3 H1 H2)).
Defined.

(** [hasSubUnits] of a valid instance tells whether the decimal value is
    not an integer: whether [10^scale] does not divide the magnitude. *)
Theorem hasSubUnits_iff_not_integer (v s : Z) :
  safe v -> 0 <= s <= MAX_SAFE_INTEGER ->
  (hasSubUnits (instance v s) = true <-> v mod 10 ^ s <> 0).
Proof.
  intros Hv Hs.
  destruct (units_numbers v s Hv ltac:(lia)) as [E1 _].
  pose proof (pow10_pos s ltac:(lia)) as Hp.
  unfold hasSubUnits, instance. cbn [_value _scale]. rewrite E1, seq_Int.
  rewrite negb_true_iff, Z.eqb_neq, (rem_zero_iff_mod v (10 ^ s) Hp).
  reflexivity.
Qed.

Lemma hasSubUnits_iff_not_integer_witness :
  safe 123456 /\ 0 <= 3 <= MAX_SAFE_INTEGER
  /\ (hasSubUnits (instance 123456 3) = true <-> 123456 mod 10 ^ 3 <> 0).
Proof.
  assert (H1 : safe 123456) by solve_safe.
  assert (H2 : 0 <= 3 <= MAX_SAFE_INTEGER) by solve_safe.
  repeat (split; [assumption |]).
  exact (hasSubUnits_iff_not_integer 123456 3 H1 H2).
Defined.

(** [toLossyNumber] of a valid instance whose decimal value is an integer
    is that integer, exactly. *)
Theorem toLossyNumber_exact_on_integers (v s : Z) :
  safe v -> 0 <= s <= MAX_SAFE_INTEGER -> v mod 10 ^ s = 0 ->
  toLossyNumber (instance v s) = Int (v / 10 ^ s).
Proof.
  intros Hv Hs Hm.
  pose proof (pow10_pos s ltac:(lia)) as Hp.
  unfold toLossyNumber, instance. cbn [_value _scale].
  destruct (Z.eq_dec v 0) as [-> | Hnz].
  - rewrite Zdiv_0_l.
    destruct (pow10_posnum s ltac:(lia)) as [-> | [p [-> Hpp]]];
      [reflexivity |].
    rewrite div_Int_exact by (try apply Zmod_0_l; lia).
    rewrite Zdiv_0_l. reflexivity.
  - pose proof (pow10_divides_safe v s Hv Hnz ltac:(lia) Hm) as H15.
    rewrite pow10_exact by lia.
    rewrite div_Int_exact by assumption.
    apply round_safe. pose proof (div_abs_le v (10 ^ s) Hp Hm).
    unfold safe in *. lia.
Qed.

Lemma toLossyNumber_exact_on_integers_witness :
  safe 123000 /\ 0 <= 3 <= MAX_SAFE_INTEGER /\ 123000 mod 10 ^ 3 = 0
  /\ toLossyNumber (instance 123000 3) = Int (123000 / 10 ^ 3).
Proof.
  assert (H1 : safe 123000) by solve_safe.
  assert (H2 : 0 <= 3 <= MAX_SAFE_INTEGER) by solve_safe.
  assert (H3 : 123000 mod 10 ^ 3 = 0) by reflexivity.
  repeat (split; [assumption |]).
  exact (toLossyNumber_exact_on_integers 123000 3 H1 H2 H3).
Defined.

(* ================================================================== *)
(** ** Further properties: trimScale *)
(* ================================================================== *)

Section TrimScaleCanonical.

(** The loop stops at the first power of ten that does not divide the
    magnitude, or at the scale. *)
Lemma trimScale_loop_stops (v s : Z) :
  safe v -> 0 <= s ->
  forall (fuel : nat) (i : Z),
    0 <= i <= s -> (Z.to_nat (s - i) <= fuel)%nat -> v mod 10 ^ i = 0 ->
    exists j, trimScale_loop fuel (Int v) (Int s) i = Some j
              /\ i <= j <= s /\ v mod 10 ^ j = 0
              /\ (j = s \/ v mod 10 ^ (j + 1) <> 0).
Proof.
  intros Hv Hs. induction fuel as [| fuel IH]; intros i Hi Hf Hm.
  - assert (i = s) by lia. subst i. cbn [trimScale_loop].
    rewrite lt_Int, Z.ltb_irrefl.
    exists s. repeat split; first [lia | assumption].
  - cbn [trimScale_loop]. rewrite lt_Int.
    destruct (Z.ltb_spec i s) as [Hlt | Hge].
    2:{ exists i. repeat split; first [lia | assumption]. }
    assert (Hstep : (seq (rem (Int v) (pow10 (Int (i + 1)))) (Int 0) = true
                     /\ v mod 10 ^ (i + 1) = 0)
                    \/ (seq (rem (Int v) (pow10 (Int (i + 1)))) (Int 0) = false
                        /\ v mod 10 ^ (i + 1) <> 0)).
    { destruct (units_numbers v (i + 1) Hv ltac:(lia)) as [E _].
      pose proof (pow10_pos (i + 1) ltac:(lia)) as Hp.
      rewrite E, seq_Int.
      destruct (Z.eqb_spec (Z.rem v (10 ^ (i + 1))) 0) as [E0 | E0];
        [left | right]; (split; [reflexivity |]);
        rewrite <- (rem_zero_iff_mod v _ Hp); assumption. }
    destruct Hstep as [[-> Hm'] | [-> Hm']]; cbn [negb].
    + destruct (IH (i + 1) ltac:(lia) ltac:(lia) Hm') as [j [E [Hj [Hmj Hmax]]]].
      exists j. split; [exact E |]. split; [lia |]. split; assumption.
    + exists i. repeat split; first [lia | assumption | (right; exact Hm')].
Qed.

Lemma trimmed_quotient (v j : Z) :
  0 <= j -> v mod 10 ^ j = 0 -> v mod 10 ^ (j + 1) <> 0 ->
  (v / 10 ^ j) mod 10 <> 0.
Proof.
  intros Hj Hm Hn Hq.
  pose proof (pow10_pos j Hj) as Hp.
  apply Z.div_exact in Hm; [| lia]. apply Z.div_exact in Hq; [| lia].
  apply Hn. rewrite Z.pow_add_r by lia. change (10 ^ 1) with 10.
  rewrite Hm, Hq.
  replace (10 ^ j * (10 * (v / 10 ^ j / 10)))
    with ((v / 10 ^ j / 10) * (10 ^ j * 10)) by ring.
  apply Z_mod_mult.
Qed.

Lemma decimal_scaled (q j t : Z) :
  0 <= j -> 0 <= t -> decimal (q * 10 ^ j) (t + j) == decimal q t.
Proof.
  intros Hj Ht. apply Qeq_alt. rewrite decimal_compare by lia.
  rewrite Z.pow_add_r by lia.
  apply Z.compare_eq_iff. ring.
Qed.

(** [trimScale] on a valid instance: the power of ten taken away, the
    trimmed result, the value kept. *)
Lemma trimScale_canonical (v s : Z) :
  safe v -> 0 <= s <= MAX_SAFE_INTEGER ->
  exists j,
    0 <= j <= s /\ v = (v / 10 ^ j) * 10 ^ j
    /\ trimScale (instance v s) = Some (instance (v / 10 ^ j) (s - j))
    /\ trimmed (v / 10 ^ j) (s - j)
    /\ safe (v / 10 ^ j)
    /\ (v = 0 -> j = s).
Proof.
  intros Hv Hs.
  destruct (trimScale_loop_stops v s Hv ltac:(lia) (Z.to_nat s) 0
              ltac:(lia) ltac:(lia) ltac:(apply Zmod_1_r))
    as [j [E [Hj [Hm Hmax]]]].
  exists j. split; [exact Hj |].
  pose proof (pow10_pos j ltac:(lia)) as Hp.
  pose proof (div_abs_le v (10 ^ j) Hp Hm) as Hq.
  assert (Hsq : safe (v / 10 ^ j)) by (unfold safe in *; lia).
  split; [apply Z.div_exact in Hm; lia |].
  split; [| split; [| split]].
  - unfold trimScale, instance. cbn [_value _scale trimScale_fuel]. rewrite E.
    rewrite sub_Int, (round_safe (s - j)) by solve_safe.
    do 2 f_equal.
    change (div (Int v) (pow10 (Int j)))
      with (toLossyNumber (instance v j)).
    unfold toLossyNumber, instance. cbn [_value _scale].
    destruct (Z.eq_dec v 0) as [-> | Hnz].
    + rewrite Zdiv_0_l.
      destruct (pow10_posnum j ltac:(lia)) as [-> | [p [-> Hpp]]];
        [reflexivity |].
      rewrite div_Int_exact by (try apply Zmod_0_l; lia).
      rewrite Zdiv_0_l. reflexivity.
    + pose proof (pow10_divides_safe v j Hv Hnz ltac:(lia) Hm) as H15.
      rewrite pow10_exact by lia.
      rewrite div_Int_exact by assumption.
      apply round_safe, Hsq.
  - unfold trimmed. destruct Hmax as [-> | Hmax]; [left; lia | right].
    apply trimmed_quotient; [lia | assumption | assumption].
  - exact Hsq.
  - intros ->. destruct Hmax as [H | H]; [exact H |].
    exfalso. apply H. apply Zmod_0_l.
Qed.

(** [trimScale] leaves a trimmed instance as it is. *)
Lemma trimScale_of_trimmed (v s : Z) :
  safe v -> 0 <= s <= MAX_SAFE_INTEGER -> trimmed v s ->
  trimScale (instance v s) = Some (instance v s).
Proof.
  intros Hv Hs Ht.
  assert (E : trimScale_loop (Z.to_nat s) (Int v) (Int s) 0 = Some 0).
  { destruct Ht as [-> | Hm].
    - reflexivity.
    - destruct (Z.to_nat s) as [| fuel] eqn:F; cbn [trimScale_loop];
        rewrite lt_Int; destruct (Z.ltb_spec 0 s) as [Hlt | Hge];
        try reflexivity; try lia.
      destruct (units_numbers v (0 + 1) Hv ltac:(lia)) as [-> _].
      rewrite seq_Int. change (10 ^ (0 + 1)) with 10.
      destruct (Z.eqb_spec (Z.rem v 10) 0) as [E0 | E0]; [| reflexivity].
      exfalso. apply Hm. apply (rem_zero_iff_mod v 10); [lia | exact E0]. }
  unfold trimScale, instance. cbn [_value _scale trimScale_fuel]. rewrite E.
  rewrite sub_Int, Z.sub_0_r, (round_safe s) by solve_safe.
  rewrite (pow10_exact 0) by lia.
  rewrite div_Int_exact by (try apply Zmod_1_r; lia).
  change (10 ^ 0) with 1. rewrite Z.div_1_r, round_safe by exact Hv.
  reflexivity.
Qed.

End TrimScaleCanonical.

(** [trimScale] on a valid instance ends and takes away as many trailing
    zeros of the magnitude as the scale allows: the result has the same
    decimal value, satisfies the invariant, and is trimmed (scale 0, or a
    magnitude whose last digit is not 0). *)
Theorem trimScale_canonical_form (v s : Z) :
  safe v -> 0 <= s <= MAX_SAFE_INTEGER ->
  exists v' s',
    trimScale (instance v s) = Some (instance v' s')
    /\ 0 <= s' <= s /\ safe v'
    /\ decimal v' s' == decimal v s
    /\ trimmed v' s'.
Proof.
  intros Hv Hs.
  destruct (trimScale_canonical v s Hv Hs) as [j [Hj [Ev [E [Ht [Hq _]]]]]].
  exists (v / 10 ^ j), (s - j).
  split; [exact E |]. split; [lia |]. split; [exact Hq |].
  split; [| exact Ht].
  rewrite Ev at 2. replace s with ((s - j) + j) at 2 by lia.
  symmetry. apply decimal_scaled; lia.
Qed.

Lemma trimScale_canonical_form_witness :
  safe 123456000 /\ 0 <= 6 <= MAX_SAFE_INTEGER
  /\ exists v' s',
       trimScale (instance 123456000 6) = Some (instance v' s')
       /\ 0 <= s' <= 6 /\ safe v'
       /\ decimal v' s' == decimal 123456000 6
       /\ trimmed v' s'.
Proof.
  assert (H1 : safe 123456000) by solve_safe.
  assert (H2 : 0 <= 6 <= MAX_SAFE_INTEGER) by solve_safe.
  repeat (split; [assumption |]).
  exact (trimScale_canonical_form 123456000 6 H1 H2).
Defined.

(** [trimScale] is idempotent on valid instances. *)
Theorem trimScale_idempotent (v s : Z) :
  safe v -> 0 <= s <= MAX_SAFE_INTEGER ->
  exists y, trimScale (instance v s) = Some y /\ trimScale y = Some y.
Proof.
  intros Hv Hs.
  destruct (trimScale_canonical v s Hv Hs) as [j [Hj [_ [E [Ht [Hq _]]]]]].
  exists (instance (v / 10 ^ j) (s - j)). split; [exact E |].
  apply trimScale_of_trimmed; [exact Hq | lia | exact Ht].
Qed.

Lemma trimScale_idempotent_witness :
  safe 1200 /\ 0 <= 3 <= MAX_SAFE_INTEGER
  /\ exists y, trimScale (instance 1200 3) = Some y /\ trimScale y = Some y.
Proof.
  assert (H1 : safe 1200) by solve_safe.
  assert (H2 : 0 <= 3 <= MAX_SAFE_INTEGER) by solve_safe.
  repeat (split; [assumption |]).
  exact (trimScale_idempotent 1200 3 H1 H2).
Defined.

(** An instance and its [trimScale] are [equal], in both orders, unless it
    is a zero of scale above 308. *)
Theorem equal_after_trimScale (v s : Z) :
  safe v -> 0 <= s <= MAX_SAFE_INTEGER -> (v = 0 -> s <= 308) ->
  exists y, trimScale (instance v s) = Some y
            /\ equal (instance v s) y = true /\ equal y (instance v s) = true.
Proof.
  intros Hv Hs Hz.
  destruct (trimScale_canonical v s Hv Hs) as [j [Hj [Ev [E [_ [Hq Hj0]]]]]].
  exists (instance (v / 10 ^ j) (s - j)). split; [exact E |].
  assert (Hd : decimal v s == decimal (v / 10 ^ j) (s - j)).
  { rewrite Ev at 1. replace s with ((s - j) + j) at 1 by lia.
    apply decimal_scaled; lia. }
  assert (Hq0 : v / 10 ^ j = 0 -> v = 0) by (intros H0; rewrite H0 in Ev; lia).
  split.
  - apply equal_decimal; try assumption; try lia.
    unfold nan_corner. destruct (s <? s - j) eqn:L; [apply Z.ltb_lt in L; lia |].
    destruct (Z.eqb_spec (v / 10 ^ j) 0) as [H0 | H0]; [| reflexivity].
    specialize (Hz (Hq0 H0)). simpl. apply Z.ltb_ge. lia.
  - apply equal_decimal; try assumption; try lia; [| symmetry; exact Hd].
    unfold nan_corner. destruct (Z.ltb_spec (s - j) s) as [L | L].
    + destruct (Z.eqb_spec (v / 10 ^ j) 0) as [H0 | H0]; [| reflexivity].
      specialize (Hz (Hq0 H0)). simpl. apply Z.ltb_ge. lia.
    + replace (308 <? s - j - s) with false by (symmetry; apply Z.ltb_ge; lia).
      apply andb_false_r.
Qed.

Lemma equal_after_trimScale_witness :
  safe 1200 /\ 0 <= 3 <= MAX_SAFE_INTEGER /\ (1200 = 0 -> 3 <= 308)
  /\ exists y, trimScale (instance 1200 3) = Some y
               /\ equal (instance 1200 3) y = true
               /\ equal y (instance 1200 3) = true.
Proof.
  assert (H1 : safe 1200) by solve_safe.
  assert (H2 : 0 <= 3 <= MAX_SAFE_INTEGER) by solve_safe.
  assert (H3 : 1200 = 0 -> 3 <= 308) by lia.
  repeat (split; [assumption |]).
  exact (equal_after_trimScale 1200 3 H1 H2 H3).
Defined.

(* ================================================================== *)
(** ** Further properties: add *)
(* ================================================================== *)

Section AddAlgebra.

Lemma exact_sum_comm (va sa vb sb : Z) :
  exact_sum va sa vb sb = exact_sum vb sb va sa.
Proof. unfold exact_sum. rewrite (Z.max_comm sb sa). lia. Qed.

Lemma nan_corner_comm (va sa vb sb : Z) :
  nan_corner va sa vb sb = nan_corner vb sb va sa.
Proof.
  unfold nan_corner.
  destruct (Z.lt_trichotomy sa sb) as [H | [H | H]].
  - replace (sa <? sb) with true by (symmetry; apply Z.ltb_lt; lia).
    replace (sb <? sa) with false by (symmetry; apply Z.ltb_ge; lia).
    reflexivity.
  - subst sb. rewrite Z.ltb_irrefl, Z.sub_diag.
    replace (308 <? 0) with false by reflexivity.
    rewrite !andb_false_r. reflexivity.
  - replace (sa <? sb) with false by (symmetry; apply Z.ltb_ge; lia).
    replace (sb <? sa) with true by (symmetry; apply Z.ltb_lt; lia).
    reflexivity.
Qed.

Lemma sum_in_range_comm (va sa vb sb : Z) :
  sum_in_range va sa vb sb = sum_in_range vb sb va sa.
Proof.
  unfold sum_in_range. rewrite exact_sum_comm, nan_corner_comm. reflexivity.
Qed.

Lemma add_Ok_inv (va sa vb sb : Z) (r : ScaledInteger) :
  safe va -> 0 <= sa <= MAX_SAFE_INTEGER ->
  safe vb -> 0 <= sb <= MAX_SAFE_INTEGER ->
  add (instance va sa) (instance vb sb) = Ok r ->
  r = instance (exact_sum va sa vb sb) (Z.max sa sb)
  /\ safe (exact_sum va sa vb sb).
Proof.
  intros Hva Hsa Hvb Hsb. rewrite add_spec by assumption.
  destruct (sum_in_range va sa vb sb) eqn:R; [| discriminate].
  intros H. injection H as <-. split; [reflexivity |].
  apply sum_in_range_safe, R.
Qed.

Lemma exact_sum_assoc (va sa vb sb vc sc : Z) :
  0 <= sa -> 0 <= sb -> 0 <= sc ->
  exact_sum (exact_sum va sa vb sb) (Z.max sa sb) vc sc
  = exact_sum va sa (exact_sum vb sb vc sc) (Z.max sb sc).
Proof.
  intros Ha Hb Hc. unfold exact_sum.
  rewrite <- Z.max_assoc.
  set (S := Z.max sa (Z.max sb sc)).
  assert (HS : sa <= S /\ sb <= S /\ sc <= S) by (unfold S; lia).
  assert (P : forall x y, x <= y -> y <= S -> 0 <= x ->
              10 ^ (y - x) * 10 ^ (S - y) = 10 ^ (S - x)).
  { intros x y H1 H2 H3. rewrite <- Z.pow_add_r by lia. f_equal. lia. }
  rewrite !Z.mul_add_distr_r, <- !Z.mul_assoc.
  rewrite (P sa (Z.max sa sb)), (P sb (Z.max sa sb)) by lia.
  rewrite (P sb (Z.max sb sc)), (P sc (Z.max sb sc)) by lia.
  lia.
Qed.

Lemma add_swap (va sa vb sb : Z) :
  safe va -> 0 <= sa <= MAX_SAFE_INTEGER ->
  safe vb -> 0 <= sb <= MAX_SAFE_INTEGER ->
  add (instance va sa) (instance vb sb) = add (instance vb sb) (instance va sa).
Proof.
  intros Hva Hsa Hvb Hsb. rewrite !add_spec by assumption.
  rewrite sum_in_range_comm, exact_sum_comm, Z.max_comm. reflexivity.
Qed.

End AddAlgebra.

(** [add] is commutative on valid instances: [a.add(b)] and [b.add(a)] give
    the same instance, or both fail. *)
Theorem add_commutative (va sa vb sb : Z) :
  safe va -> 0 <= sa <= MAX_SAFE_INTEGER ->
  safe vb -> 0 <= sb <= MAX_SAFE_INTEGER ->
  add (instance va sa) (instance vb sb) = add (instance vb sb) (instance va sa).
Proof. apply add_swap. Qed.

Lemma add_commutative_witness :
  safe 15 /\ 0 <= 1 <= MAX_SAFE_INTEGER /\ safe (-25) /\ 0 <= 2 <= MAX_SAFE_INTEGER
  /\ add (instance 15 1) (instance (-25) 2)
     = add (instance (-25) 2) (instance 15 1).
Proof.
  assert (H1 : safe 15) by solve_safe.
  assert (H2 : 0 <= 1 <= MAX_SAFE_INTEGER) by solve_safe.
  assert (H3 : safe (-25)) by solve_safe.
  assert (H4 : 0 <= 2 <= MAX_SAFE_INTEGER) by solve_safe.
  repeat (split; [assumption |]).
  exact (add_commutative 15 1 (-25) 2 H1 H2 H3 H4).
Defined.

(** Adding the zero of scale 0, on either side, gives the instance back as
    long as its scale is at most 308; with a larger scale the call throws
    'addition overflow'. *)
Theorem add_zero (v s : Z) :
  safe v -> 0 <= s <= MAX_SAFE_INTEGER ->
  add (instance v s) (instance 0 0)
  = (if s <=? 308 then Ok (instance v s) else Throw "addition overflow")
  /\ add (instance 0 0) (instance v s)
     = (if s <=? 308 then Ok (instance v s) else Throw "addition overflow").
Proof.
  intros Hv Hs.
  assert (H0 : safe 0) by solve_safe.
  assert (Hs0 : 0 <= 0 <= MAX_SAFE_INTEGER) by solve_safe.
  assert (E : add (instance v s) (instance 0 0)
              = if s <=? 308 then Ok (instance v s)
                else Throw "addition overflow").
  { rewrite add_spec by assumption.
    unfold sum_in_range, nan_corner, exact_sum.
    rewrite Z.max_l by lia. rewrite Z.sub_diag, Z.pow_0_r, Z.mul_1_r.
    rewrite Z.mul_0_l, Z.add_0_r, Z.sub_0_r.
    replace (s <? 0) with false by (symmetry; apply Z.ltb_ge; lia).
    replace (Z.abs v <=? MAX_SAFE_INTEGER) with true
      by (symmetry; apply Z.leb_le; exact Hv).
    simpl. destruct (Z.leb_spec s 308), (Z.ltb_spec 308 s); try lia; reflexivity. }
  split; [exact E |]. rewrite add_swap by assumption. exact E.
Qed.

Lemma add_zero_witness :
  safe 123 /\ 0 <= 2 <= MAX_SAFE_INTEGER
  /\ add (instance 123 2) (instance 0 0) = Ok (instance 123 2)
  /\ add (instance 0 0) (instance 123 2) = Ok (instance 123 2).
Proof.
  assert (H1 : safe 123) by solve_safe.
  assert (H2 : 0 <= 2 <= MAX_SAFE_INTEGER) by solve_safe.
  repeat (split; [assumption |]).
  exact (add_zero 123 2 H1 H2).
Defined.

(** [add] is associative on valid instances wherever the four additions
    succeed: [(a + b) + c] and [a + (b + c)] are the same instance. *)
Theorem add_associative (va sa vb sb vc sc : Z) (ab bc r1 r2 : ScaledInteger) :
  safe va -> 0 <= sa <= MAX_SAFE_INTEGER ->
  safe vb -> 0 <= sb <= MAX_SAFE_INTEGER ->
  safe vc -> 0 <= sc <= MAX_SAFE_INTEGER ->
  add (instance va sa) (instance vb sb) = Ok ab ->
  add ab (instance vc sc) = Ok r1 ->
  add (instance vb sb) (instance vc sc) = Ok bc ->
  add (instance va sa) bc = Ok r2 ->
  r1 = r2.
Proof.
  intros Hva Hsa Hvb Hsb Hvc Hsc Hab H1 Hbc H2.
  destruct (add_Ok_inv _ _ _ _ _ Hva Hsa Hvb Hsb Hab) as [-> Sab].
  destruct (add_Ok_inv _ _ _ _ _ Hvb Hsb Hvc Hsc Hbc) as [-> Sbc].
  assert (Mab : 0 <= Z.max sa sb <= MAX_SAFE_INTEGER) by lia.
  assert (Mbc : 0 <= Z.max sb sc <= MAX_SAFE_INTEGER) by lia.
  destruct (add_Ok_inv _ _ _ _ _ Sab Mab Hvc Hsc H1) as [-> _].
  destruct (add_Ok_inv _ _ _ _ _ Hva Hsa Sbc Mbc H2) as [-> _].
  rewrite exact_sum_assoc by lia. rewrite Z.max_assoc. reflexivity.
Qed.

Lemma add_associative_witness :
  add (instance 5 1) (instance 25 2) = Ok (instance 75 2)
  /\ add (instance 75 2) (instance 125 3) = Ok (instance 875 3)
  /\ add (instance 25 2) (instance 125 3) = Ok (instance 375 3)
  /\ add (instance 5 1) (instance 375 3) = Ok (instance 875 3)
  /\ instance 875 3 = instance 875 3.
Proof.
  assert (H1 : safe 5) by solve_safe.
  assert (H2 : 0 <= 1 <= MAX_SAFE_INTEGER) by solve_safe.
  assert (H3 : safe 25) by solve_safe.
  assert (H4 : 0 <= 2 <= MAX_SAFE_INTEGER) by solve_safe.
  assert (H5 : safe 125) by solve_safe.
  assert (H6 : 0 <= 3 <= MAX_SAFE_INTEGER) by solve_safe.
  assert (Hab : add (instance 5 1) (instance 25 2) = Ok (instance 75 2))
    by reflexivity.
  assert (Hr1 : add (instance 75 2) (instance 125 3) = Ok (instance 875 3))
    by reflexivity.
  assert (Hbc : add (instance 25 2) (instance 125 3) = Ok (instance 375 3))
    by reflexivity.
  assert (Hr2 : add (instance 5 1) (instance 375 3) = Ok (instance 875 3))
    by reflexivity.
  repeat (split; [assumption |]).
  exact (add_associative 5 1 25 2 125 3 _ _ _ _ H1 H2 H3 H4 H5 H6
           Hab Hr1 Hbc Hr2).
Defined.


(* ================================================================== *)
(** ** Further properties: widening *)
(* ================================================================== *)

(** Where nothing overflows, [increaseScale(k)] keeps the decimal value: the
    result is [equal] to the receiver as it was. *)
Theorem increaseScale_keeps_value (v s k : Z) :
  safe v -> 0 <= s -> 0 <= k <= 308 -> s + k <= MAX_SAFE_INTEGER ->
  safe (v * 10 ^ k) ->
  increaseScale (instance v s) (Int k) = instance (v * 10 ^ k) (s + k)
  /\ decimal (v * 10 ^ k) (s + k) == decimal v s
  /\ equal (instance v s) (increaseScale (instance v s) (Int k)) = true.
Proof.
  intros Hv Hs Hk Hsk Hp.
  assert (Hd : decimal (v * 10 ^ k) (s + k) == decimal v s)
    by (apply decimal_scaled; lia).
  rewrite (increaseScale_spec v s k Hv Hs Hk Hsk Hp).
  split; [reflexivity |]. split; [exact Hd |].
  apply equal_decimal; try assumption; try lia; [| symmetry; exact Hd].
  unfold nan_corner. destruct (s <? s + k).
  - replace (308 <? s + k - s) with false by (symmetry; apply Z.ltb_ge; lia).
    apply andb_false_r.
  - replace (308 <? s - (s + k)) with false by (symmetry; apply Z.ltb_ge; lia).
    apply andb_false_r.
Qed.

Lemma increaseScale_keeps_value_witness :
  safe 123456 /\ 0 <= 3 /\ 0 <= 3 <= 308 /\ 3 + 3 <= MAX_SAFE_INTEGER
  /\ safe (123456 * 10 ^ 3)
  /\ increaseScale (instance 123456 3) (Int 3) = instance (123456 * 10 ^ 3) (3 + 3)
  /\ decimal (123456 * 10 ^ 3) (3 + 3) == decimal 123456 3
  /\ equal (instance 123456 3) (increaseScale (instance 123456 3) (Int 3)) = true.
Proof.
  assert (H1 : safe 123456) by solve_safe.
  assert (H2 : 0 <= 3) by lia.
  assert (H3 : 0 <= 3 <= 308) by lia.
  assert (H4 : 3 + 3 <= MAX_SAFE_INTEGER) by solve_safe.
  assert (H5 : safe (123456 * 10 ^ 3)) by solve_safe.
  repeat (split; [assumption |]).
  exact (increaseScale_keeps_value 123456 3 3 H1 H2 H3 H4 H5).
Defined.



(** [normalizeTo(other)] never narrows: the receiver is unchanged when its
    scale is at least the other's, and otherwise widened to the other's
    scale with the same decimal value (where nothing overflows). *)
Theorem normalizeTo_widens_only (v s w t : Z) :
  safe v -> 0 <= s <= MAX_SAFE_INTEGER -> 0 <= t <= MAX_SAFE_INTEGER ->
  (t <= s -> normalizeTo (instance v s) (instance w t) = instance v s)
  /\ (s < t -> t - s <= 308 -> safe (v * 10 ^ (t - s)) ->
      normalizeTo (instance v s) (instance w t) = instance (v * 10 ^ (t - s)) t
      /\ decimal (v * 10 ^ (t - s)) t == decimal v s).
Proof.
  intros Hv Hs Ht. unfold normalizeTo, instance. cbn [_value _scale].
  rewrite lt_Int. split.
  - intros H. replace (s <? t) with false by (symmetry; apply Z.ltb_ge; lia).
    reflexivity.
  - intros H Hgap Hp.
    replace (s <? t) with true by (symmetry; apply Z.ltb_lt; lia).
    unfold transformScale. cbn [_value _scale fst].
    rewrite gt_Int. replace (s <? t) with true by (symmetry; apply Z.ltb_lt; lia).
    rewrite sub_Int, (round_safe (t - s)) by solve_safe. cbn [fst].
    pose proof (increaseScale_spec v s (t - s) Hv ltac:(lia) ltac:(lia) ltac:(lia) Hp)
      as E.
    unfold instance in E. rewrite E. replace (s + (t - s)) with t by lia.
    split; [reflexivity |].
    replace t with (s + (t - s)) at 2 by lia. apply decimal_scaled; lia.
Qed.

Lemma normalizeTo_widens_only_witness :
  safe 1001 /\ 0 <= 2 <= MAX_SAFE_INTEGER /\ 0 <= 4 <= MAX_SAFE_INTEGER
  /\ 2 < 4 /\ 4 - 2 <= 308 /\ safe (1001 * 10 ^ (4 - 2))
  /\ normalizeTo (instance 1001 2) (instance 10001 4)
     = instance (1001 * 10 ^ (4 - 2)) 4.
Proof.
  assert (H1 : safe 1001) by solve_safe.
  assert (H2 : 0 <= 2 <= MAX_SAFE_INTEGER) by solve_safe.
  assert (H3 : 0 <= 4 <= MAX_SAFE_INTEGER) by solve_safe.
  assert (H4 : 2 < 4) by lia.
  assert (H5 : 4 - 2 <= 308) by lia.
  assert (H6 : safe (1001 * 10 ^ (4 - 2))) by solve_safe.
  repeat (split; [assumption |]).
  exact (proj1 (proj2 (normalizeTo_widens_only 1001 2 10001 4 H1 H2 H3) H4 H5 H6)).
Defined.

(* ================================================================== *)
(** ** Further properties: normalize *)
(* ================================================================== *)

Lemma normalize_loop_length (max : ScaledInteger) (maxIndex : Z)
    (items : list ScaledInteger) :
  Forall (fun x => invariant x = true) items ->
  forall i, exists output,
    normalize_loop items i maxIndex max = Ok output
    /\ List.length output = List.length items.
Proof.
  induction items as [| item rest IH]; intros H i.
  - exists []. split; reflexivity.
  - inversion H as [| ? ? Hi Hr]; subst.
    destruct (IH Hr (i + 1)) as [out [E L]].
    cbn [normalize_loop]. destruct (i =? maxIndex).
    + rewrite E. exists (item :: out). split; [reflexivity | simpl; congruence].
    + unfold clone. rewrite (constructor_ok item Hi). cbn [bind]. rewrite E.
      eexists. split; [reflexivity | simpl; congruence].
Qed.

(** On instances that satisfy the invariant, [normalize] does not throw and
    returns as many elements as it was given. *)
Theorem normalize_keeps_length (values : list ScaledInteger) :
  Forall (fun x => invariant x = true) values ->
  exists output,
    normalize values = Ok output
    /\ List.length output = List.length values.
Proof.
  intros H. unfold normalize. destruct values as [| first rest].
  - exists []. split; reflexivity.
  - destruct (maximumScale first (skipn 1 (first :: rest))) as [maxIndex max].
    apply normalize_loop_length. exact H.
Qed.

Lemma normalize_keeps_length_witness :
  Forall (fun x => invariant x = true)
         [instance 100 0; instance 1001 2; instance 10001 4]
  /\ exists output,
       normalize [instance 100 0; instance 1001 2; instance 10001 4] = Ok output
       /\ List.length output = 3%nat.
Proof.
  assert (H : Forall (fun x => invariant x = true)
                     [instance 100 0; instance 1001 2; instance 10001 4])
    by (repeat constructor).
  split; [exact H |].
  exact (normalize_keeps_length _ H).
Defined.

(* ================================================================== *)
(** ** Further properties: what the parsers return *)
(* ================================================================== *)

Section ParsedDigits.

Lemma last_char (s : string) :
  s <> "" -> exists p c, s = p ++ String c "".
Proof.
  induction s as [| a r IH]; intros H; [contradiction |].
  destruct r as [| b r'].
  - exists "", a. reflexivity.
  - destruct (IH ltac:(discriminate)) as [p [c E]].
    exists (String a p), c. simpl. f_equal. exact E.
Qed.

Lemma digits_value_from_app (p : string) (c : ascii) :
  forall acc z,
    digits_value_from acc (p ++ String c "") = Some z ->
    exists y, z = 10 * y + digit_value c /\ is_digit c = true.
Proof.
  induction p as [| a r IH]; intros acc z H; cbn [append digits_value_from] in H.
  - destruct (is_digit c) eqn:Hc; [| discriminate].
    injection H as <-. exists acc. split; reflexivity.
  - destruct (is_digit a); [| discriminate]. apply (IH _ _ H).
Qed.

Lemma digit_value_zero (c : ascii) :
  is_digit c = true -> digit_value c = 0 -> c = "0"%char.
Proof.
  unfold digit_value. intros _ H.
  assert (E : N_of_ascii c = 48%N) by lia.
  rewrite <- (ascii_N_embedding c), E. reflexivity.
Qed.

Lemma digit_value_bound (c : ascii) :
  is_digit c = true -> 0 <= digit_value c <= 9.
Proof.
  unfold is_digit, digit_value. intros H. apply andb_prop in H.
  destruct H as [H1 H2]. apply N.leb_le in H1. apply N.leb_le in H2. lia.
Qed.

(** The value of [minorStr], when it is not 0, does not end with the
    digit 0. *)
Lemma minorStr_last_digit (g : groups) (N : Z) :
  digits_value (minorStr_of g) = Some N -> N <> 0 -> N mod 10 <> 0.
Proof.
  unfold minorStr_of. intros EN HN.
  set (m := match g_minor g with Some m => m | None => "" end) in *.
  destruct (trimEnd_result m "0"%char) as [n [_ Hend]].
  destruct (trimEnd m "0") as [| a r] eqn:Et.
  - simpl in EN. injection EN as <-. contradiction.
  - cbn [or_else] in EN.
    destruct (last_char (String a r) ltac:(discriminate)) as [p [c E]].
    rewrite E in EN, Hend.
    destruct (digits_value_from_app p c 0 N EN) as [y [-> Hc]].
    pose proof (digit_value_bound c Hc) as Hb.
    assert (Hd : digit_value c <> 0).
    { intros H0. apply (Hend p). rewrite (digit_value_zero c Hc H0). reflexivity. }
    rewrite Z.add_comm, Z.mul_comm, Z_mod_plus_full.
    rewrite Z.mod_small by lia. exact Hd.
Qed.

Lemma minorStr_length (g : groups) : 1 <= Z.of_nat (String.length (minorStr_of g)).
Proof.
  unfold minorStr_of. destruct (trimEnd _ "0"); simpl; lia.
Qed.

Lemma mod10_sum (M L N : Z) : 1 <= L -> (M * 10 ^ L + N) mod 10 = N mod 10.
Proof.
  intros HL. replace L with (1 + (L - 1)) by lia.
  rewrite Z.pow_add_r by lia. change (10 ^ 1) with 10.
  replace (M * (10 * 10 ^ (L - 1)) + N) with (N + (M * 10 ^ (L - 1)) * 10) by ring.
  apply Z_mod_plus_full.
Qed.

Lemma mod10_opp (m : Z) : m mod 10 <> 0 -> (- m) mod 10 <> 0.
Proof.
  intros H E. apply H. apply Z.mod_divide in E; [| lia].
  apply Z.mod_divide; [lia |]. apply Z.divide_opp_r in E.
  rewrite Z.opp_involutive in E. exact E.
Qed.

End ParsedDigits.

(** What [parse] returns is trimmed: the scale is 0 or the last digit of
    the magnitude is not 0, so [trimScale] leaves it as it is. *)
Theorem parse_result_is_trimmed (str : string) (x : ScaledInteger) :
  parse str = Ok x -> trimScale x = Some x.
Proof.
  intros Hx.
  assert (Hm : exists g, match_strict str = Some g).
  { unfold parse in Hx. destruct (match_strict str) as [g |]; [eauto | discriminate]. }
  destruct Hm as [g Hm].
  destruct (parse_matched str g Hm) as [M [N [EM [HM [EN [HN E]]]]]].
  rewrite E in Hx.
  destruct (parsed_construct _ _ _ M N _ x EM EN HM HN
              (strict_scale_nonneg g N) Hx) as [-> [Hs [_ Hl]]].
  pose proof (strict_scale_nonneg g N) as HL.
  assert (Ht : trimmed (M * 10 ^ strict_scale g N + N) (strict_scale g N)).
  { unfold trimmed, strict_scale in *. destruct (Z.eqb_spec N 0) as [-> | HN0];
      [left; reflexivity | right].
    rewrite mod10_sum by apply minorStr_length.
    apply (minorStr_last_digit g N EN HN0). }
  apply trimScale_of_trimmed; [| lia |].
  - destruct (String.eqb (g_sign g) "-"); unfold safe in *;
      rewrite ?Z.abs_opp; exact Hs.
  - destruct (String.eqb (g_sign g) "-"); [| exact Ht].
    destruct Ht as [H0 | H0]; [left; exact H0 | right; apply mod10_opp, H0].
Qed.

Lemma parse_result_is_trimmed_witness :
  parse "-12.3400" = Ok (instance (-1234) 2)
  /\ trimScale (instance (-1234) 2) = Some (instance (-1234) 2).
Proof.
  assert (H : parse "-12.3400" = Ok (instance (-1234) 2))
    by (vm_compute; reflexivity).
  split; [exact H |].
  exact (parse_result_is_trimmed "-12.3400" _ H).
Defined.

(** Where [parse] accepts a string, [parseLax] either refuses the magnitude
    ('unsafe integer value') or gives an instance of a scale at least as
    large that is [equal] to the one [parse] gives. *)
Theorem parseLax_agrees_with_parse (str : string) (x : ScaledInteger) :
  parse str = Ok x ->
  parseLax str = Throw "unsafe integer value"
  \/ exists y sx sy,
       parseLax str = Ok y /\ _scale x = Int sx /\ _scale y = Int sy
       /\ sx <= sy /\ equal x y = true.
Proof. apply parseLax_of_parse. Qed.

Lemma parseLax_agrees_with_parse_witness :
  parse "1.0" = Ok (instance 1 0)
  /\ (parseLax "1.0" = Throw "unsafe integer value"
      \/ exists y sx sy,
           parseLax "1.0" = Ok y /\ _scale (instance 1 0) = Int sx
           /\ _scale y = Int sy /\ sx <= sy /\ equal (instance 1 0) y = true).
Proof.
  assert (H : parse "1.0" = Ok (instance 1 0)) by (vm_compute; reflexivity).
  split; [exact H |].
  exact (parseLax_agrees_with_parse "1.0" _ H).
Defined.

(* ================================================================== *)
(** ** Further properties: the lax pattern *)
(* ================================================================== *)

Section LaxGrammar.

Lemma take_sign_body (sg body : string) :
  is_sign sg -> starts_without_sign body -> take_sign (sg ++ body) = (sg, body).
Proof.
  intros Hs Hb. destruct Hs as [-> | [-> | ->]]; try reflexivity.
  simpl. destruct body as [| c r]; [reflexivity |].
  simpl in Hb. unfold take_sign. rewrite Hb. reflexivity.
Qed.

Lemma digits_then_start (d t : string) :
  all_digits d = true -> starts_without_sign t -> starts_without_sign (d ++ t).
Proof.
  intros Hd Ht. destruct d as [| c r]; [exact Ht |].
  simpl in *. apply andb_prop in Hd. apply digit_not_sign, Hd.
Qed.

Lemma match_lax_spec (str : string) (g : groups) :
  match_lax str = Some g <-> lax_grammar str g.
Proof.
  split.
  - unfold match_lax.
    destruct (take_sign str) as [sg r] eqn:Es.
    destruct (span_digits r) as [mj r1] eqn:Em.
    destruct (take_sign_spec _ _ _ Es) as [-> Hsg].
    destruct (span_digits_spec _ _ _ Em) as [-> [Hmj _]].
    destruct r1 as [| c r2].
    + intros H. injection H as <-. rewrite app_empty_r.
      constructor; assumption.
    + destruct (Ascii.eqb_spec c "."%char) as [-> | _]; [| discriminate].
      destruct (span_digits r2) as [mn r3] eqn:En.
      destruct (span_digits_spec _ _ _ En) as [-> [Hmn _]].
      destruct (is_empty r3) eqn:Hr3; [| discriminate].
      apply is_empty_spec in Hr3. subst r3. simpl.
      intros H. injection H as <-. rewrite app_empty_r.
      apply (lax_decimal sg mj mn); assumption.
  - intros H. destruct H as [sg mj Hsg Hmj | sg mj mn Hsg Hmj Hmn];
      unfold match_lax.
    + rewrite (take_sign_body sg mj Hsg)
        by (rewrite <- (app_empty_r mj); apply digits_then_start; [exact Hmj | exact I]).
      rewrite <- (app_empty_r mj) at 1.
      rewrite (span_digits_app mj "" Hmj I). reflexivity.
    + rewrite (take_sign_body sg (mj ++ "." ++ mn) Hsg)
        by (apply digits_then_start; [exact Hmj | reflexivity]).
      rewrite (span_digits_app mj ("." ++ mn) Hmj) by reflexivity.
      cbn [append]. cbn [Ascii.eqb Bool.eqb].
      rewrite <- (app_empty_r mn) at 1.
      rewrite (span_digits_app mn "" Hmn I). reflexivity.
Qed.

Lemma lax_grammar_digits (str : string) (g : groups) :
  lax_grammar str g ->
  all_digits (majorStr_of g) = true /\ all_digits (minorStr_of g) = true.
Proof.
  intros H. unfold majorStr_of, minorStr_of.
  destruct H as [sg mj Hsg Hmj | sg mj mn Hsg Hmj Hmn];
    cbn [g_major g_minor]; split;
    try (apply all_digits_or_else, all_digits_trimStart; assumption);
    try (apply all_digits_or_else, all_digits_trimEnd; assumption).
  reflexivity.
Qed.

Lemma parseLax_matched (str : string) (g : groups) :
  match_lax str = Some g ->
  exists M N,
    digits_value (majorStr_of g) = Some M /\ 0 <= M
    /\ digits_value (minorStr_of g) = Some N /\ 0 <= N
    /\ parseLax str
       = constructor
           (let value :=
              Num.add (mul (toNumber (majorStr_of g))
                           (pow10 (Int (Z.of_nat (String.length (minorStr_of g))))))
                      (toNumber (minorStr_of g)) in
            if String.eqb (g_sign g) "-" then neg value else value)
           (Int (Z.of_nat (String.length (minorStr_of g)))).
Proof.
  intros Hm. pose proof (proj1 (match_lax_spec str g) Hm) as Hg.
  destruct (lax_grammar_digits str g Hg) as [Dm Dn].
  destruct (digits_value_some _ Dm) as [M [EM HM]].
  destruct (digits_value_some _ Dn) as [N [EN HN]].
  exists M, N. repeat (split; [assumption |]).
  unfold parseLax. rewrite Hm. reflexivity.
Qed.

End LaxGrammar.

(** [parseLax] fails with 'invalid decimal string' exactly on the strings
    outside the lax grammar (optional sign, digits or none, and optionally a
    dot with digits or none); on acceptance the scale is the length of the
    fractional digits after trimming the trailing zeros, and at least 1 (a
    string without fractional digits gets the scale 1), and the magnitude is
    [major * 10^scale + minor], negated if the sign is ['-']. *)
Theorem parseLax_lax_grammar (str : string) :
  (parseLax str = Throw "invalid decimal string"
   <-> ~ exists g, lax_grammar str g)
  /\ (forall x, parseLax str = Ok x ->
      exists g M N,
        lax_grammar str g
        /\ digits_value (majorStr_of g) = Some M
        /\ digits_value (minorStr_of g) = Some N
        /\ 1 <= Z.of_nat (String.length (minorStr_of g))
        /\ x = instance
                 (signed g (M * 10 ^ Z.of_nat (String.length (minorStr_of g)) + N))
                 (Z.of_nat (String.length (minorStr_of g)))).
Proof.
  split.
  - split.
    + intros H [g Hg]. apply match_lax_spec in Hg.
      destruct (parseLax_matched str g Hg) as [M [N [_ [_ [_ [_ E]]]]]].
      rewrite E in H.
      destruct (constructor_cases
                  (let value :=
                     Num.add (mul (toNumber (majorStr_of g))
                                  (pow10 (Int (Z.of_nat (String.length (minorStr_of g))))))
                             (toNumber (minorStr_of g)) in
                   if String.eqb (g_sign g) "-" then neg value else value)
                  (Z.of_nat (String.length (minorStr_of g)))
                  (Nat2Z.is_nonneg (String.length (minorStr_of g))))
        as [[x Hx] | Hx]; rewrite Hx in H; discriminate H.
    + intros H. unfold parseLax. destruct (match_lax str) as [g |] eqn:E;
        [| reflexivity].
      exfalso. apply H. exists g. apply match_lax_spec, E.
  - intros x Hx.
    assert (Hm : exists g, match_lax str = Some g).
    { unfold parseLax in Hx. destruct (match_lax str) as [g |]; [eauto | discriminate]. }
    destruct Hm as [g Hm].
    destruct (parseLax_matched str g Hm) as [M [N [EM [HM [EN [HN E]]]]]].
    rewrite E in Hx.
    destruct (parsed_construct _ _ _ M N _ x EM EN HM HN
                (Nat2Z.is_nonneg (String.length (minorStr_of g))) Hx) as [-> _].
    exists g, M, N. split; [apply match_lax_spec, Hm |].
    repeat (split; [assumption |]).
    split; [apply minorStr_length | reflexivity].
Qed.

Lemma parseLax_lax_grammar_witness :
  parseLax "-.5" = Ok (instance (-5) 1)
  /\ exists g M N,
       lax_grammar "-.5" g
       /\ digits_value (majorStr_of g) = Some M
       /\ digits_value (minorStr_of g) = Some N
       /\ 1 <= Z.of_nat (String.length (minorStr_of g))
       /\ instance (-5) 1
          = instance
              (signed g (M * 10 ^ Z.of_nat (String.length (minorStr_of g)) + N))
              (Z.of_nat (String.length (minorStr_of g))).
Proof.
  assert (H : parseLax "-.5" = Ok (instance (-5) 1)) by (vm_compute; reflexivity).
  split; [exact H |].
  exact (proj2 (parseLax_lax_grammar "-.5") _ H).
Defined.

(* ================================================================== *)
(** ** Further properties: the sign *)
(* ================================================================== *)

Section Sign.

Lemma quot_rem_signs (v b : Z) :
  0 < b ->
  v = Z.quot v b * b + Z.rem v b
  /\ (0 <= v -> 0 <= Z.quot v b /\ 0 <= Z.rem v b)
  /\ (v < 0 -> Z.quot v b <= 0 /\ Z.rem v b <= 0)
  /\ Z.abs (Z.quot v b) <= Z.abs v /\ Z.abs (Z.rem v b) <= Z.abs v.
Proof.
  intros Hb. pose proof (Z.quot_rem' v b) as E.
  assert (Hq : forall a, 0 <= a -> 0 <= Z.quot a b <= a /\ 0 <= Z.rem a b <= a).
  { intros a Ha. pose proof (Z.quot_rem' a b) as Ea.
    pose proof (Z.rem_bound_pos a b Ha Hb).
    pose proof (Z.quot_pos a b Ha Hb).
    pose proof (Z.rem_le a b Ha Hb). nia. }
  split; [lia |].
  destruct (Z_le_gt_dec 0 v) as [Hv | Hv].
  - destruct (Hq v Hv). repeat split; lia.
  - destruct (Hq (- v) ltac:(lia)) as [H1 H2].
    rewrite Z.quot_opp_l, Z.rem_opp_l in * by lia.
    repeat split; lia.
Qed.

Lemma uint_no_minus (d : Decimal.uint) (rest r : string) :
  NilEmpty.string_of_uint d ++ rest = String "-" r ->
  d = Decimal.Nil /\ rest = String "-" r.
Proof. destruct d; simpl; intros H; try discriminate H. auto. Qed.

Lemma string_of_int_nonneg (z : Z) (rest r : string) :
  0 <= z ->
  NilEmpty.string_of_int (Z.to_int z) ++ rest <> String "-" r.
Proof.
  intros Hz H. destruct z as [| p | p]; [discriminate H | | lia].
  simpl in H. apply uint_no_minus in H. destruct H as [H _].
  exact (DecimalPos.Unsigned.to_uint_nonnil p H).
Qed.

Lemma string_of_int_neg (z : Z) :
  z < 0 -> starts_with_minus (NilEmpty.string_of_int (Z.to_int z)).
Proof.
  intros Hz. destruct z as [| p | p]; try lia.
  eexists. reflexivity.
Qed.

(** How long the decimal digits of a number are, at most: doubling a
    number adds one digit at most, so there are no more digits than bits. *)
Lemma double_digits (d : Decimal.uint) :
  (Decimal.nb_digits (Decimal.Little.double d) <= S (Decimal.nb_digits d)
   /\ Decimal.nb_digits (Decimal.Little.succ_double d)
      <= S (Decimal.nb_digits d))%nat.
Proof. induction d; simpl; lia. Qed.

Lemma to_little_uint_digits (p : positive) :
  (Decimal.nb_digits (Pos.to_little_uint p) <= Pos.size_nat p)%nat.
Proof.
  induction p as [p IH | p IH |]; simpl.
  - pose proof (double_digits (Pos.to_little_uint p)). lia.
  - pose proof (double_digits (Pos.to_little_uint p)). lia.
  - lia.
Qed.

Lemma size_nat_bound (p : positive) (n : nat) :
  Z.pos p < 2 ^ Z.of_nat n -> (Pos.size_nat p <= n)%nat.
Proof.
  revert n. induction p as [p IH | p IH |]; intros n H;
    (destruct n as [| n]; [simpl in H; lia |]);
    rewrite Nat2Z.inj_succ, Z.pow_succ_r in H by lia; simpl.
  - apply le_n_S, IH. lia.
  - apply le_n_S, IH. lia.
  - lia.
Qed.

Lemma string_of_uint_length (d : Decimal.uint) :
  String.length (NilEmpty.string_of_uint d) = Decimal.nb_digits d.
Proof. induction d; simpl; congruence. Qed.

Lemma string_of_int_length (z : Z) :
  Z.abs z < 2 ^ 53 ->
  (String.length (NilEmpty.string_of_int (Z.to_int z)) <= 54)%nat.
Proof.
  intros H.
  assert (B : forall p, Z.pos p < 2 ^ 53 ->
                        (Decimal.nb_digits (Pos.to_uint p) <= 53)%nat).
  { intros p Hp. unfold Pos.to_uint. rewrite DecimalFacts.nb_digits_rev.
    pose proof (to_little_uint_digits p).
    pose proof (size_nat_bound p 53 Hp). lia. }
  destruct z as [| p | p]; simpl.
  - lia.
  - rewrite string_of_uint_length. specialize (B p H). lia.
  - rewrite string_of_uint_length. specialize (B p H). lia.
Qed.

(** the two outcomes of [padStart] *)
Lemma padStart0_fits (mi : string) (s : Z) :
  s <= MAX_STRING_LENGTH ->
  exists padded,
    padStart0 mi s = Ok padded
    /\ Z.of_nat (String.length padded) <= Z.max s (Z.of_nat (String.length mi)).
Proof.
  intros Hs. unfold padStart0.
  destruct (Z.leb_spec s (Z.of_nat (String.length mi))) as [H | H].
  - eexists. split; [reflexivity | lia].
  - replace (MAX_STRING_LENGTH <? s) with false
      by (symmetry; apply Z.ltb_ge; exact Hs).
    eexists. split; [reflexivity |].
    rewrite length_app, length_repeat_char. lia.
Qed.

Lemma padStart0_too_long (mi : string) (s : Z) :
  MAX_STRING_LENGTH < s -> Z.of_nat (String.length mi) < s ->
  padStart0 mi s = Throw "Invalid string length".
Proof.
  intros Hs Hl. unfold padStart0.
  replace (s <=? Z.of_nat (String.length mi)) with false
    by (symmetry; apply Z.leb_gt; exact Hl).
  replace (MAX_STRING_LENGTH <? s) with true
    by (symmetry; apply Z.ltb_lt; exact Hs).
  reflexivity.
Qed.

End Sign.

(** [toString] of a valid instance whose digits fit in a string (64
    characters are room enough for what stands around the fractional digits)
    returns a string, which begins with ['-'] exactly when the magnitude is
    negative, also when the integer part is 0 ([-0.5]).  With a scale
    beyond the longest string it returns ["0"] for the magnitude 0 and fails
    with the RangeError 'Invalid string length' for every other. *)
Theorem toString_shows_the_sign (v s : Z) :
  safe v -> 0 <= s <= MAX_SAFE_INTEGER ->
  (s + 64 <= MAX_STRING_LENGTH ->
   exists str,
     toString (instance v s) = Some (Ok str)
     /\ (starts_with_minus str <-> v < 0))
  /\ (MAX_STRING_LENGTH < s ->
      toString (instance v s)
      = Some (if v =? 0 then Ok "0" else Throw "Invalid string length")).
Proof.
  intros Hv Hs.
  pose proof (pow10_pos s ltac:(lia)) as Hp.
  destruct (units_numbers v s Hv ltac:(lia)) as [E1 E2].
  destruct (quot_rem_signs v (10 ^ s) Hp) as [E [Hpos [Hneg [Hq Hr]]]].
  set (q := Z.quot v (10 ^ s)) in *. set (r := Z.rem v (10 ^ s)) in *.
  pose proof Hv as Hv'. unfold safe in Hv'. rewrite MAX_SAFE_INTEGER_eq in Hv'.
  assert (Bq : (Z.abs q <? 10 ^ 21) = true) by (apply Z.ltb_lt; simpl; lia).
  assert (Br : (Z.abs (Z.abs r) <? 10 ^ 21) = true)
    by (apply Z.ltb_lt; rewrite (Z.abs_eq (Z.abs r)) by apply Z.abs_nonneg;
        simpl; lia).
  assert (Lq : (String.length (NilEmpty.string_of_int (Z.to_int q)) <= 54)%nat)
    by (apply string_of_int_length; rewrite pow2_53; lia).
  assert (Lr : (String.length (NilEmpty.string_of_int (Z.to_int (Z.abs r)))
                <= 54)%nat)
    by (apply string_of_int_length; rewrite pow2_53;
        rewrite (Z.abs_eq (Z.abs r)) by apply Z.abs_nonneg; lia).
  assert (HM : MAX_STRING_LENGTH = 536870888) by reflexivity.
  unfold toString, toUnits, instance. cbn [_value _scale].
  rewrite E1, E2. fold q r. cbn [abs]. rewrite seq_Int.
  unfold numberToString. rewrite Bq, Br.
  split.
  - intros Hfit.
    destruct (Z.eqb_spec (Z.abs r) 0) as [Hr0 | Hr0].
    + eexists. split; [reflexivity |].
      assert (r = 0) by lia.
      split.
      * intros [t Ht]. destruct (Z_lt_le_dec v 0) as [H0 | H0]; [exact H0 |].
        exfalso. destruct (Hpos H0) as [Hq0 _].
        apply (string_of_int_nonneg q "" t Hq0). rewrite app_empty_r. exact Ht.
      * intros H0. apply string_of_int_neg.
        destruct (Hneg H0). assert (q <> 0) by (intros Hq0; rewrite Hq0 in E; lia).
        lia.
    + rewrite seq_Int, lt_Int.
      destruct (padStart0_fits (NilEmpty.string_of_int (Z.to_int (Z.abs r))) s
                  ltac:(lia)) as [padded [-> Hlen]].
      cbn [bind]. unfold template. cbn [fold_right].
      rewrite app_empty_r.
      set (zerosign := if (q =? 0) && (v <? 0) then "-" else "").
      assert (Lz : (String.length zerosign <= 1)%nat)
        by (unfold zerosign; destruct ((q =? 0) && (v <? 0)); simpl; lia).
      replace (MAX_STRING_LENGTH
               <? Z.of_nat (String.length
                              (zerosign ++ NilEmpty.string_of_int (Z.to_int q)
                               ++ "." ++ padded))) with false.
      2:{ symmetry. apply Z.ltb_ge. rewrite !length_app. simpl String.length.
          lia. }
      eexists. split; [reflexivity |]. unfold zerosign.
      split.
      * intros [t Ht]. destruct (Z_lt_le_dec v 0) as [H0 | H0]; [exact H0 |].
        exfalso. destruct (Hpos H0) as [Hq0 _].
        replace (v <? 0) with false in Ht by (symmetry; apply Z.ltb_ge; lia).
        rewrite andb_false_r in Ht. cbn [append] in Ht.
        apply (string_of_int_nonneg q _ t Hq0 Ht).
      * intros H0. destruct (Hneg H0) as [Hq0 _].
        replace (v <? 0) with true by (symmetry; apply Z.ltb_lt; lia).
        rewrite andb_true_r.
        destruct (Z.eqb_spec q 0) as [Hz | Hz].
        -- eexists. reflexivity.
        -- destruct (string_of_int_neg q ltac:(lia)) as [t Ht].
           rewrite Ht. eexists. reflexivity.
  - intros Hbig.
    assert (H10 : 2 ^ 54 <= 10 ^ s).
    { apply Z.le_trans with (10 ^ 23); [vm_compute; discriminate |].
      apply Z.pow_le_mono_r; lia. }
    change (2 ^ 54) with 18014398509481984 in H10.
    subst q r.
    rewrite (rem_small_abs v (10 ^ s)) in * by lia.
    rewrite (quot_small_abs v (10 ^ s)) in * by lia.
    destruct (Z.eqb_spec v 0) as [Hz | Hz].
    + subst v. reflexivity.
    + replace (Z.abs v =? 0) with false by (symmetry; apply Z.eqb_neq; lia).
      rewrite padStart0_too_long; [reflexivity | lia | lia].
Qed.

Lemma toString_shows_the_sign_witness :
  safe (-5) /\ 0 <= 1 <= MAX_SAFE_INTEGER /\ 1 + 64 <= MAX_STRING_LENGTH
  /\ exists str,
       toString (instance (-5) 1) = Some (Ok str)
       /\ (starts_with_minus str <-> -5 < 0).
Proof.
  assert (H1 : safe (-5)) by solve_safe.
  assert (H2 : 0 <= 1 <= MAX_SAFE_INTEGER) by solve_safe.
  assert (H3 : 1 + 64 <= MAX_STRING_LENGTH) by (vm_compute; discriminate).
  repeat (split; [assumption |]).
  exact (proj1 (toString_shows_the_sign (-5) 1 H1 H2) H3).
Defined.

(** For a valid instance of scale at most 308, the three sign tests are the
    three comparisons with the zero of scale 0: [isZero] is [equal],
    [isNegative] is [lessThan], [isPositive] is [greaterThan]. *)
Theorem sign_tests_compare_with_zero (v s : Z) :
  safe v -> 0 <= s <= 308 ->
  isZero (instance v s) = equal (instance v s) (instance 0 0)
  /\ isNegative (instance v s) = lessThan (instance v s) (instance 0 0)
  /\ isPositive (instance v s) = greaterThan (instance v s) (instance 0 0).
Proof.
  intros Hv Hs.
  assert (H0 : safe 0) by solve_safe.
  assert (Hs' : 0 <= s <= MAX_SAFE_INTEGER) by solve_safe.
  assert (Hs0 : 0 <= 0 <= MAX_SAFE_INTEGER) by solve_safe.
  assert (Hc : nan_corner v s 0 0 = false).
  { unfold nan_corner.
    replace (s <? 0) with false by (symmetry; apply Z.ltb_ge; lia).
    replace (308 <? s - 0) with false by (symmetry; apply Z.ltb_ge; lia).
    reflexivity. }
  destruct (equal_compare_widened v s 0 0 Hv Hs' H0 Hs0 Hc) as [Ee Ec].
  unfold widened_l, widened_r in *.
  rewrite Z.max_l, Z.sub_diag, Z.pow_0_r, Z.mul_1_r, Z.mul_0_l in * by lia.
  unfold isZero, isNegative, isPositive, lessThan, greaterThan, instance in *.
  cbn [_value _scale] in *. rewrite Ee, Ec, seq_Int, gt_Int, lt_Int.
  destruct (Z.compare_spec v 0), (Z.ltb_spec v 0), (Z.ltb_spec 0 v);
    try lia; repeat split.
Qed.

Lemma sign_tests_compare_with_zero_witness :
  safe (-5) /\ 0 <= 1 <= 308
  /\ isZero (instance (-5) 1) = equal (instance (-5) 1) (instance 0 0)
  /\ isNegative (instance (-5) 1) = lessThan (instance (-5) 1) (instance 0 0)
  /\ isPositive (instance (-5) 1) = greaterThan (instance (-5) 1) (instance 0 0).
Proof.
  assert (H1 : safe (-5)) by solve_safe.
  assert (H2 : 0 <= 1 <= 308) by lia.
  repeat (split; [assumption |]).
  exact (sign_tests_compare_with_zero (-5) 1 H1 H2).
Defined.
